(** * Hermes VM memory core: WeakRefSlot, IDTracker and SegmentedArray

    A shallow embedding of

    - [WeakRefSlot] (tagged-pointer implementation) and [GCBase::IDTracker]
      from [include/hermes/VM/GCBase.h];
    - [SegmentedArray] from [lib/VM/SegmentedArray.cpp].

    Machine integers are values of [Z] and every C++ operation that can
    wrap is written with its modulus.  The [assert]s of the source are
    compiled out under [NDEBUG]; here the operations are total functions
    with the release semantics, and each [assert] is kept as a named
    predicate ([mark_assert], ...) so that theorems can state that the
    contract holds where the operation is used. *)

From stdpp Require Import base numbers list gmap strings pretty.

Local Open Scope Z_scope.

(** ** Arithmetic helpers *)

Lemma pow2_divide (k bits : Z) : 0 <= k <= bits -> (2 ^ k | 2 ^ bits).
Proof.
  intros Hk. exists (2 ^ (bits - k)).
  rewrite <- Z.pow_add_r by lia. f_equal; lia.
Qed.

Lemma mod4_of_wrap (bits z : Z) :
  2 <= bits -> (z mod 2 ^ bits) mod 4 = z mod 4.
Proof.
  intros Hb. apply Z.mod_mod_divide. apply (pow2_divide 2). lia.
Qed.

Lemma mod2_of_wrap (bits z : Z) :
  1 <= bits -> (z mod 2 ^ bits) mod 2 = z mod 2.
Proof.
  intros Hb. apply Z.mod_mod_divide. apply (pow2_divide 1). lia.
Qed.

Lemma land3_mod4 (z : Z) : Z.land z 3 = z mod 4.
Proof. change 3 with (Z.ones 2). rewrite Z.land_ones by lia. reflexivity. Qed.

(** ** WeakRefSlot (GCBase.h, tagged pointer implementation) *)

Module WeakRefSlot.

(** [enum State { Unmarked = 0, Marked, Free }]. *)
Inductive State := Unmarked | Marked | Free.

Definition State_to_Z (st : State) : Z :=
  match st with Unmarked => 0 | Marked => 1 | Free => 2 end.

(** [static_cast<State>(bits)]: the value 3 is no enumerator. *)
Definition State_of_Z (bits : Z) : option State :=
  match bits with
  | 0 => Some Unmarked
  | 1 => Some Marked
  | 2 => Some Free
  | _ => None
  end.

(** The single field [char *tagged_], an address of [ptr_bits] bits. *)
Record t := mk { tagged_ : Z }.

Section TaggedPointer.
Context (ptr_bits : Z).

  (** Pointer arithmetic on [char *] is arithmetic modulo the address
      space. *)
Definition wrap (z : Z) : Z := z mod 2 ^ ptr_bits.

Definition valid_ptr (p : Z) : Prop := 0 <= p < 2 ^ ptr_bits.
Definition valid (s : t) : Prop := valid_ptr (tagged_ s).

  (** [reinterpret_cast<uintptr_t>(tagged_) & 3], the integer that
      [state()] casts to [State] and that [(ptrdiff_t)state()] reads. *)
Definition stateBits (s : t) : Z := Z.land (tagged_ s) 3.

Definition state (s : t) : option State := State_of_Z (stateBits s).

Definition hasPointer (s : t) : bool := State_to_Z Free <? tagged_ s.

Definition hasValue (s : t) : bool := hasPointer s.

  (** [value()] is [HermesValue::encodeObjectValue(tagged_)]: the object
      value is identified with the address it encodes. *)
Definition value_assert (s : t) : Prop :=
    state s = Some Unmarked /\ hasPointer s = true.
Definition value (s : t) : Z := tagged_ s.

Definition getPointer_assert (s : t) : Prop := state s <> Some Free.
Definition getPointer (s : t) : Z := wrap (tagged_ s - stateBits s).

Definition setPointer_assert (s : t) : Prop := state s <> Some Free.
Definition setPointer (s : t) (newPtr : Z) : t :=
    mk (wrap (newPtr + stateBits s)).

Definition clearPointer (s : t) : t := mk (stateBits s).

Definition mark_assert (s : t) : Prop := state s = Some Unmarked.
Definition mark (s : t) : t := mk (wrap (tagged_ s + State_to_Z Marked)).

Definition unmark_assert (s : t) : Prop := state s = Some Marked.
Definition unmark (s : t) : t := mk (wrap (tagged_ s - State_to_Z Marked)).

  (** [free] has an assertion before and one after the update. *)
Definition free_assert (s : t) : Prop := state s = Some Unmarked.
Definition free (s : t) (nextFree : Z) : t :=
    mk (wrap (nextFree + State_to_Z Free)).
Definition free_post_assert (s : t) : Prop := state s = Some Free.

Definition nextFree_assert (s : t) : Prop := state s = Some Free.
Definition nextFree (s : t) : Z := wrap (tagged_ s - State_to_Z Free).

  (** [reset(v)] stores [v.getObject()]. *)
Definition reset (object : Z) : t := mk object.

  (** An address with the two low bits clear. *)
Definition aligned (p : Z) : Prop := Z.land p 3 = 0.

(** [WeakRefBase] holds the address of its slot and reads through it;
    the slot read is the argument here. *)
Definition isValid (slot_ : t) : bool := hasValue slot_.

Definition isSlotValid (slot : t) : bool := hasValue slot.

Definition unsafeGetHermesValue (slot_ : t) : Z := value slot_.

Hypothesis ptr_bits_ge : 2 <= ptr_bits.

Lemma modulus_pos : 0 < 2 ^ ptr_bits.
Proof. apply Z.pow_pos_nonneg; lia. Qed.

Lemma wrap_small (z : Z) : valid_ptr z -> wrap z = z.
Proof. intros H. apply Z.mod_small. exact H. Qed.

Lemma wrap_valid (z : Z) : valid_ptr (wrap z).
Proof. apply Z.mod_pos_bound, modulus_pos. Qed.

Lemma stateBits_wrap (z : Z) : stateBits (mk (wrap z)) = z mod 4.
Proof.
    unfold stateBits, wrap; simpl.
    rewrite land3_mod4. apply mod4_of_wrap, ptr_bits_ge.
Qed.

Lemma state_Some_bits (s : t) (st : State) :
    state s = Some st <-> stateBits s = State_to_Z st.
Proof.
    unfold state. pose proof (land3_mod4 (tagged_ s)) as Hm.
    pose proof (Z.mod_pos_bound (tagged_ s) 4 ltac:(lia)) as Hb.
    fold (stateBits s) in Hm. rewrite <- Hm in Hb.
    assert (stateBits s = 0 \/ stateBits s = 1 \/ stateBits s = 2 \/
            stateBits s = 3) as [-> | [-> | [-> | ->]]] by lia;
      destruct st; simpl; split; (discriminate || reflexivity).
Qed.

Lemma state_bits_range (s : t) : 0 <= stateBits s < 4.
Proof.
    unfold stateBits. rewrite land3_mod4. apply Z.mod_pos_bound. lia.
Qed.

Lemma mark_then_unmark (s : t) : valid s -> unmark (mark s) = s.
Proof.
    intros Hv. destruct s as [p]. unfold unmark, mark, valid in *.
    simpl in *. f_equal. unfold wrap.
    rewrite Zminus_mod_idemp_l.
    replace (p + 1 - 1) with p by lia. apply Z.mod_small, Hv.
Qed.

Lemma setPointer_bits (s : t) (newPtr : Z) :
    aligned newPtr -> stateBits (setPointer s newPtr) = stateBits s.
Proof.
    intros Ha. unfold setPointer. rewrite stateBits_wrap.
    unfold aligned in Ha. rewrite land3_mod4 in Ha.
    rewrite <- Zplus_mod_idemp_l, Ha, Z.add_0_l.
    apply Z.mod_small, state_bits_range.
Qed.

Lemma setPointer_getPointer (s : t) (newPtr : Z) :
    valid_ptr newPtr -> aligned newPtr ->
    getPointer (setPointer s newPtr) = newPtr.
Proof.
    intros Hv Ha. unfold getPointer.
    rewrite setPointer_bits by exact Ha.
    unfold setPointer, wrap; simpl.
    rewrite Zminus_mod_idemp_l.
    replace (newPtr + stateBits s - stateBits s) with newPtr by lia.
    apply Z.mod_small, Hv.
Qed.

Lemma free_bits (s : t) (p : Z) :
    aligned p -> stateBits (free s p) = State_to_Z Free.
Proof.
    intros Ha. unfold free. rewrite stateBits_wrap.
    unfold aligned in Ha. rewrite land3_mod4 in Ha.
    rewrite <- Zplus_mod_idemp_l, Ha. reflexivity.
Qed.

Lemma free_nextFree (s : t) (p : Z) :
    valid_ptr p -> nextFree (free s p) = p.
Proof.
    intros Hv. unfold nextFree, free, wrap; simpl.
    rewrite Zminus_mod_idemp_l.
    replace (p + 2 - 2) with p by lia. apply Z.mod_small, Hv.
Qed.

(** C5: for a slot in the [Unmarked] state that holds a referent pointer,
    [mark()] followed by [unmark()] gives back the very same slot: the
    same [state()], the same stored tagged pointer and the same [value()].
    Both assertions ([mark] wants [Unmarked], [unmark] wants [Marked]) hold
    along the way. *)
Theorem mark_unmark_restores (s : t) :
  valid s -> state s = Some Unmarked -> hasPointer s = true ->
  mark_assert s /\ unmark_assert (mark s) /\
  unmark (mark s) = s /\
  state (unmark (mark s)) = state s /\
  tagged_ (unmark (mark s)) = tagged_ s /\
  value (unmark (mark s)) = value s /\
  value_assert (unmark (mark s)).
Proof.
  intros Hv Hst Hp.
  pose proof (mark_then_unmark s Hv) as Heq.
  assert (unmark_assert (mark s)) as Hm.
  { apply state_Some_bits. unfold mark. rewrite stateBits_wrap.
    apply state_Some_bits in Hst. unfold stateBits in Hst.
    rewrite land3_mod4 in Hst.
    rewrite <- Zplus_mod_idemp_l, Hst. reflexivity. }
  rewrite Heq. repeat split; assumption.
Qed.

(** C6: for a slot in a non-[Free] state and a new referent address,
    [setPointer] changes the pointer only: the state bits stay exactly
    as they were and [getPointer()] then returns the new address.  A
    referent address is the address of a heap cell, an address of the
    address space whose two low bits are clear: [tagged_] keeps the
    state in those two bits ("The low two bits encode the integer value
    of the state"), and [reset] asserts that the object address reads as
    [Unmarked]. *)
Theorem setPointer_preserves_state (s : t) (newPtr : Z) :
  state s = Some Unmarked \/ state s = Some Marked ->
  valid_ptr newPtr -> aligned newPtr ->
  setPointer_assert s /\
  stateBits (setPointer s newPtr) = stateBits s /\
  state (setPointer s newPtr) = state s /\
  getPointer_assert (setPointer s newPtr) /\
  getPointer (setPointer s newPtr) = newPtr.
Proof.
  intros Hst Hv Ha.
  pose proof (setPointer_bits s newPtr Ha) as Hb.
  assert (state (setPointer s newPtr) = state s) as Hs.
  { unfold state. rewrite Hb. reflexivity. }
  assert (state s <> Some Free) as Hnf.
  { destruct Hst as [-> | ->]; discriminate. }
  unfold setPointer_assert, getPointer_assert. rewrite Hs.
  repeat split; try assumption.
  apply setPointer_getPointer; assumption.
Qed.

(** C10: freeing an [Unmarked] slot with an aligned link (null included)
    leaves the slot [Free], and [nextFree()] reads the link back. *)
Theorem free_nextFree_roundtrip (s : t) (p : Z) :
  state s = Some Unmarked -> valid_ptr p -> aligned p ->
  free_assert s /\
  free_post_assert (free s p) /\
  state (free s p) = Some Free /\
  nextFree_assert (free s p) /\
  nextFree (free s p) = p.
Proof.
  intros Hst Hv Ha.
  assert (state (free s p) = Some Free) as Hf.
  { apply state_Some_bits, free_bits, Ha. }
  repeat split; try assumption.
  apply free_nextFree, Hv.
Qed.

(** X1: [reset(v)] with the address of an object (not null, two low bits
    clear) leaves an [Unmarked] slot that has a value: the assertions of
    [value()] and [mark()] hold, and [value()] and [getPointer()] both
    give the address back. *)
Theorem reset_holds_value (object : Z) :
  valid_ptr object -> aligned object -> object <> 0 ->
  state (reset object) = Some Unmarked /\
  hasValue (reset object) = true /\
  isValid (reset object) = true /\
  value_assert (reset object) /\
  mark_assert (reset object) /\
  unsafeGetHermesValue (reset object) = object /\
  getPointer (reset object) = object.
Proof.
  intros Hv Ha Hn.
  assert (stateBits (reset object) = 0) as Hb by exact Ha.
  assert (state (reset object) = Some Unmarked) as Hs.
  { apply state_Some_bits. exact Hb. }
  assert (hasPointer (reset object) = true) as Hp.
  { unfold hasPointer, reset; simpl. apply Z.ltb_lt.
    unfold aligned in Ha. rewrite land3_mod4 in Ha.
    destruct Hv as [H0 _].
    pose proof (Z.div_mod object 4 ltac:(lia)). lia. }
  split; [exact Hs |]. split; [exact Hp |]. split; [exact Hp |].
  split; [split; assumption |]. split; [exact Hs |].
  split; [reflexivity |].
  unfold getPointer. rewrite Hb, Z.sub_0_r. apply wrap_small, Hv.
Qed.

(** An aligned address of the address space leaves room for the tag. *)
Lemma aligned_room (p : Z) :
  valid_ptr p -> aligned p -> p mod 4 = 0 /\ (p = 0 \/ 4 <= p) /\
  p + 3 < 2 ^ ptr_bits.
Proof.
  intros [H0 H1] Ha. unfold aligned in Ha. rewrite land3_mod4 in Ha.
  pose proof (Z.div_mod p 4 ltac:(lia)) as Hp.
  destruct (pow2_divide 2 ptr_bits ltac:(lia)) as [q Hq].
  change (2 ^ 2) with 4 in Hq.
  split; [exact Ha |]. split; [lia |]. lia.
Qed.

Lemma unmarked_aligned (s : t) :
  state s = Some Unmarked -> aligned (tagged_ s).
Proof. intros H. apply state_Some_bits in H. exact H. Qed.

(** X2: [clearPointer()] on a slot in one of the three states keeps the
    state and leaves a slot without pointer: [hasValue()] (and so
    [WeakRefBase::isValid]) is false and [getPointer()] is null.  When the
    referent of a [Marked] slot dies, the [unmark()] that follows leaves
    the null slot. *)
Theorem clearPointer_drops_referent (s : t) :
  is_Some (state s) ->
  state (clearPointer s) = state s /\
  hasPointer (clearPointer s) = false /\
  isValid (clearPointer s) = false /\
  getPointer (clearPointer s) = 0 /\
  (state s = Some Marked -> unmark (clearPointer s) = mk 0).
Proof.
  intros [st Hst].
  assert (stateBits (clearPointer s) = stateBits s) as Hb.
  { unfold clearPointer, stateBits; simpl.
    rewrite <- Z.land_assoc. reflexivity. }
  apply state_Some_bits in Hst.
  assert (0 <= stateBits s <= 2) as Hr by (destruct st; simpl in Hst; lia).
  assert (hasPointer (clearPointer s) = false) as Hp.
  { unfold hasPointer, clearPointer; simpl. apply Z.ltb_ge. lia. }
  split; [unfold state; rewrite Hb; reflexivity |].
  split; [exact Hp |]. split; [exact Hp |]. split.
  - unfold getPointer. rewrite Hb. unfold clearPointer; simpl.
    rewrite Z.sub_diag. apply Zmod_0_l.
  - intros Hm. apply state_Some_bits in Hm.
    unfold unmark, clearPointer; simpl. rewrite Hm. reflexivity.
Qed.

(** X3: [mark()] on an [Unmarked] slot changes the state only: the slot
    is [Marked], [getPointer()] returns the same address "whether or not
    this slot is marked" and [hasPointer()] answers as before.  A second
    [mark()] would break the assertion of [mark]. *)
Theorem mark_keeps_pointer (s : t) :
  valid s -> state s = Some Unmarked ->
  state (mark s) = Some Marked /\
  getPointer (mark s) = getPointer s /\
  getPointer s = tagged_ s /\
  hasPointer (mark s) = hasPointer s /\
  ~ mark_assert (mark s).
Proof.
  intros Hv Hst.
  destruct (aligned_room (tagged_ s) Hv (unmarked_aligned s Hst))
    as (Hm & Hz & Hroom).
  assert (stateBits s = 0) as Hb0 by (apply state_Some_bits in Hst; exact Hst).
  assert (tagged_ (mark s) = tagged_ s + 1) as Ht.
  { unfold mark; simpl. apply Z.mod_small. destruct Hv. lia. }
  assert (stateBits (mark s) = 1) as Hb1.
  { unfold mark. rewrite stateBits_wrap. simpl.
    rewrite <- Zplus_mod_idemp_l, Hm. reflexivity. }
  assert (state (mark s) = Some Marked) as Hs1.
  { apply state_Some_bits. exact Hb1. }
  split; [exact Hs1 |]. split; [| split; [| split]].
  - unfold getPointer. rewrite Hb1, Hb0, Ht. f_equal. lia.
  - unfold getPointer. rewrite Hb0, Z.sub_0_r. apply wrap_small, Hv.
  - unfold hasPointer. rewrite Ht. simpl.
    destruct Hz as [-> | Hz]; [reflexivity |].
    destruct (Z.ltb_spec 2 (tagged_ s + 1)), (Z.ltb_spec 2 (tagged_ s));
      (reflexivity || lia).
  - unfold mark_assert. rewrite Hs1. discriminate.
Qed.

(** X4: a referent that moves while its slot is [Marked]: [mark()],
    [setPointer(newPtr)] with an aligned address and [unmark()] leave the
    slot that [reset] gives for the new address, and the assertions of
    [setPointer] and [unmark] hold on the way. *)
Theorem marked_slot_relocates (s : t) (newPtr : Z) :
  valid s -> state s = Some Unmarked ->
  valid_ptr newPtr -> aligned newPtr ->
  setPointer_assert (mark s) /\
  unmark_assert (setPointer (mark s) newPtr) /\
  getPointer (setPointer (mark s) newPtr) = newPtr /\
  unmark (setPointer (mark s) newPtr) = reset newPtr.
Proof.
  intros Hv Hst Hnv Hna.
  destruct (aligned_room (tagged_ s) Hv (unmarked_aligned s Hst))
    as (Hm & _ & _).
  destruct (aligned_room newPtr Hnv Hna) as (Hnm & _ & Hroom).
  assert (stateBits (mark s) = 1) as Hb1.
  { unfold mark. rewrite stateBits_wrap. simpl.
    rewrite <- Zplus_mod_idemp_l, Hm. reflexivity. }
  assert (state (mark s) = Some Marked) as Hs1.
  { apply state_Some_bits. exact Hb1. }
  split; [unfold setPointer_assert; rewrite Hs1; discriminate |].
  split.
  { apply state_Some_bits. rewrite setPointer_bits by exact Hna.
    exact Hb1. }
  split; [apply setPointer_getPointer; assumption |].
  unfold unmark, setPointer, reset; simpl. rewrite Hb1. f_equal.
  unfold wrap. rewrite Zminus_mod_idemp_l.
  replace (newPtr + 1 - 1) with newPtr by lia.
  apply Z.mod_small, Hnv.
Qed.

(** X5: a freed slot answers [hasPointer()] (and so [hasValue()] and
    [WeakRefBase::isValid]) with true exactly when its free-list link is
    not null; the assertion of [getPointer] fails on it in both cases. *)
Theorem freed_slot_hasPointer_iff_link (s : t) (p : Z) :
  valid_ptr p -> aligned p ->
  (hasPointer (free s p) = true <-> p <> 0) /\
  (isSlotValid (free s p) = true <-> p <> 0) /\
  ~ getPointer_assert (free s p).
Proof.
  intros Hv Ha. destruct (aligned_room p Hv Ha) as (Hm & Hz & Hroom).
  assert (tagged_ (free s p) = p + 2) as Ht.
  { unfold free; simpl. apply Z.mod_small. destruct Hv. lia. }
  assert (hasPointer (free s p) = true <-> p <> 0) as Hp.
  { unfold hasPointer. rewrite Ht. simpl. rewrite Z.ltb_lt.
    destruct Hv. lia. }
  split; [exact Hp |]. split; [exact Hp |].
  unfold getPointer_assert. intros Hf. apply Hf.
  apply state_Some_bits, free_bits, Ha.
Qed.

End TaggedPointer.

(** A 64-bit slot pointing at address 4096. *)
Lemma mark_unmark_restores_witness :
  unmark 64 (mark 64 (mk 4096)) = mk 4096.
Proof.
  refine (proj1 (proj2 (proj2
    (mark_unmark_restores 64 _ (mk 4096) _ _ _)))).
  - lia.
  - unfold valid, valid_ptr; simpl; lia.
  - reflexivity.
  - reflexivity.
Defined.

Lemma setPointer_preserves_state_witness :
  state (setPointer 64 (mk 4097) 8192) = Some Marked /\
  getPointer 64 (setPointer 64 (mk 4097) 8192) = 8192.
Proof.
  pose proof (setPointer_preserves_state 64 ltac:(lia) (mk 4097) 8192
                (or_intror eq_refl)) as H.
  destruct H as (_ & _ & Hs & _ & Hg).
  - unfold valid_ptr; lia.
  - reflexivity.
  - split; [exact Hs | exact Hg].
Defined.

Lemma free_nextFree_roundtrip_witness :
  state (free 64 (mk 4096) 8192) = Some Free /\
  nextFree 64 (free 64 (mk 4096) 8192) = 8192.
Proof.
  pose proof (free_nextFree_roundtrip 64 ltac:(lia) (mk 4096) 8192
                eq_refl) as H.
  destruct H as (_ & _ & Hs & _ & Hn).
  - unfold valid_ptr; lia.
  - reflexivity.
  - split; [exact Hs | exact Hn].
Defined.

(** The 64-bit slot of the object at address 4096. *)
Lemma reset_holds_value_witness :
  state (reset 4096) = Some Unmarked /\ hasValue (reset 4096) = true /\
  getPointer 64 (reset 4096) = 4096.
Proof.
  destruct (reset_holds_value 64 4096) as (H1 & H2 & _ & _ & _ & _ & H7).
  - unfold valid_ptr; lia.
  - reflexivity.
  - lia.
  - split; [exact H1 |]. split; [exact H2 | exact H7].
Defined.

(** The referent of the [Marked] slot at address 4096 dies. *)
Lemma clearPointer_drops_referent_witness :
  state (clearPointer (mk 4097)) = Some Marked /\
  hasPointer (clearPointer (mk 4097)) = false /\
  unmark 64 (clearPointer (mk 4097)) = mk 0.
Proof.
  destruct (clearPointer_drops_referent 64 (mk 4097))
    as (H1 & H2 & _ & _ & H5).
  - exists Marked. reflexivity.
  - split; [exact H1 |]. split; [exact H2 |]. apply H5. reflexivity.
Defined.

Lemma mark_keeps_pointer_witness :
  state (mark 64 (mk 4096)) = Some Marked /\
  getPointer 64 (mark 64 (mk 4096)) = getPointer 64 (mk 4096).
Proof.
  destruct (mark_keeps_pointer 64 ltac:(lia) (mk 4096))
    as (H1 & H2 & _).
  - unfold valid, valid_ptr; simpl; lia.
  - reflexivity.
  - split; [exact H1 | exact H2].
Defined.

(** The object at 4096 moves to 8192 while its slot is marked. *)
Lemma marked_slot_relocates_witness :
  unmark 64 (setPointer 64 (mark 64 (mk 4096)) 8192) = reset 8192.
Proof.
  destruct (marked_slot_relocates 64 ltac:(lia) (mk 4096) 8192)
    as (_ & _ & _ & H).
  - unfold valid, valid_ptr; simpl; lia.
  - reflexivity.
  - unfold valid_ptr; lia.
  - reflexivity.
  - exact H.
Defined.

(** The last slot of a free list (null link) and one before it. *)
Lemma freed_slot_hasPointer_iff_link_witness :
  hasPointer (free 64 (mk 4096) 8192) = true /\
  hasPointer (free 64 (mk 4096) 0) <> true.
Proof.
  split.
  - destruct (freed_slot_hasPointer_iff_link 64 ltac:(lia) (mk 4096) 8192)
      as ([_ H] & _).
    + unfold valid_ptr; lia.
    + reflexivity.
    + apply H. lia.
  - destruct (freed_slot_hasPointer_iff_link 64 ltac:(lia) (mk 4096) 0)
      as ([H _] & _).
    + unfold valid_ptr; lia.
    + reflexivity.
    + intros Hp. apply (H Hp). reflexivity.
Defined.

End WeakRefSlot.

(** ** GCBase::IDTracker (GCBase.h) *)

Module IDTracker.

(** The three fields of the class.  Addresses ([const void *]) and IDs
    are integers; [objectIDMap_] is the [llvm::DenseMap] from addresses
    to IDs, shared by heap objects and native memory. *)
Record t := mk {
  nextID_ : Z;
  nextNativeID_ : Z;
  objectIDMap_ : gmap Z Z
}.

(** The calls of the public interface, for reasoning about sequences. *)
Inductive Op :=
| GetObjectID (cell : Z)
| GetNativeID (mem : Z)
| MoveObject (oldLocation newLocation : Z)
| UntrackObject (cell : Z)
| UntrackNative (mem : Z).

Section NodeIDs.
(** [HeapSnapshot::NodeID] is an unsigned type of [NodeID_bits] bits and
    [ReservedObjectID::FirstNonReservedID] counts the root sections; both
    come from headers that are not among the sources and are parameters
    here. *)
Context (NodeID_bits : Z) (FirstNonReservedID : Z).

Definition wrap64 (z : Z) : Z := z mod 2 ^ 64.
Definition wrapNodeID (z : Z) : Z := z mod 2 ^ NodeID_bits.

(** [std::numeric_limits<HeapSnapshot::NodeID>::max()]. *)
Definition NodeID_max : Z := 2 ^ NodeID_bits - 1.

Definition kIDStep : Z := 2.

(** The default member initialisers: [nextID_] starts on the first even
    number at or after [FirstNonReservedID], [nextNativeID_] one above,
    and the map is empty. *)
Definition initial : t :=
  let nextID := wrap64 (wrap64 FirstNonReservedID
                        + wrap64 FirstNonReservedID mod 2) in
  mk nextID (wrapNodeID (wrap64 (nextID + 1))) ∅.

Definition isTrackingIDs (tr : t) : bool :=
  negb (bool_decide (objectIDMap_ tr = ∅)).

(** [nextObjectID]: [None] stands for [hermes_fatal]; otherwise
    [return nextID_ += kIDStep]. *)
Definition nextObjectID (tr : t) : option (Z * t) :=
  if wrapNodeID (NodeID_max - kIDStep) <=? nextID_ tr then None
  else
    let n := wrap64 (nextID_ tr + kIDStep) in
    Some (wrapNodeID n, mk n (nextNativeID_ tr) (objectIDMap_ tr)).

Definition nextNativeID (tr : t) : option (Z * t) :=
  if wrapNodeID (NodeID_max - kIDStep) <=? nextNativeID_ tr then None
  else
    let n := wrapNodeID (nextNativeID_ tr + kIDStep) in
    Some (n, mk (nextID_ tr) n (objectIDMap_ tr)).

Definition getObjectID (tr : t) (cell : Z) : option (Z * t) :=
  match objectIDMap_ tr !! cell with
  | Some id => Some (id, tr)
  | None =>
      match nextObjectID tr with
      | None => None
      | Some (objID, tr') =>
          Some (objID,
                mk (nextID_ tr') (nextNativeID_ tr')
                   (<[cell := objID]> (objectIDMap_ tr')))
      end
  end.

Definition getNativeID (tr : t) (mem : Z) : option (Z * t) :=
  match objectIDMap_ tr !! mem with
  | Some id => Some (id, tr)
  | None =>
      match nextNativeID tr with
      | None => None
      | Some (objID, tr') =>
          Some (objID,
                mk (nextID_ tr') (nextNativeID_ tr')
                   (<[mem := objID]> (objectIDMap_ tr')))
      end
  end.

(** The assertion of [moveObject], reached only when the entry moves. *)
Definition moveObject_assert (tr : t) (newLocation : Z) : Prop :=
  objectIDMap_ tr !! newLocation = None.

Definition moveObject (tr : t) (oldLocation newLocation : Z) : t :=
  if decide (oldLocation = newLocation) then tr
  else
    match objectIDMap_ tr !! oldLocation with
    | None => tr
    | Some oldID =>
        mk (nextID_ tr) (nextNativeID_ tr)
           (<[newLocation := oldID]> (delete oldLocation (objectIDMap_ tr)))
    end.

Definition untrackObject (tr : t) (cell : Z) : t :=
  mk (nextID_ tr) (nextNativeID_ tr) (delete cell (objectIDMap_ tr)).

Definition untrackNative (tr : t) (mem : Z) : t := untrackObject tr mem.

(** One call: the ID it returns, if it returns one, and the tracker
    afterwards; [None] when the process is terminated. *)
Definition step (tr : t) (op : Op) : option (option Z * t) :=
  match op with
  | GetObjectID cell =>
      match getObjectID tr cell with
      | Some (id, tr') => Some (Some id, tr')
      | None => None
      end
  | GetNativeID mem =>
      match getNativeID tr mem with
      | Some (id, tr') => Some (Some id, tr')
      | None => None
      end
  | MoveObject o n => Some (None, moveObject tr o n)
  | UntrackObject cell => Some (None, untrackObject tr cell)
  | UntrackNative mem => Some (None, untrackNative tr mem)
  end.

(** A sequence of calls, with the IDs returned along the way. *)
Fixpoint run (tr : t) (ops : list Op) : option (list (Op * Z) * t) :=
  match ops with
  | [] => Some ([], tr)
  | op :: ops' =>
      match step tr op with
      | None => None
      | Some (r, tr') =>
          match run tr' ops' with
          | None => None
          | Some (rs, tr'') =>
              Some (match r with
                    | Some id => (op, id) :: rs
                    | None => rs
                    end, tr'')
          end
      end
  end.

(** What C4 asks of one returned ID. *)
Definition parity_ok (r : Op * Z) : Prop :=
  match fst r with
  | GetObjectID _ => Z.even (snd r) = true
  | GetNativeID _ => Z.odd (snd r) = true
  | _ => True
  end.

(** A sequence keeps heap and native addresses apart when the heap
    calls only see addresses of the heap ([isHeap a = true]) and
    [getNativeID] only sees addresses outside it. *)
Definition respects (isHeap : Z -> bool) (op : Op) : Prop :=
  match op with
  | GetObjectID cell => isHeap cell = true
  | GetNativeID mem => isHeap mem = false
  | MoveObject o n => isHeap o = true /\ isHeap n = true
  | UntrackObject _ | UntrackNative _ => True
  end.

(** Counters of the right parity, and every entry of the right parity
    for the kind of its address. *)
Definition parity_inv (isHeap : Z -> bool) (tr : t) : Prop :=
  Z.even (nextID_ tr) = true /\
  Z.odd (nextNativeID_ tr) = true /\
  forall a id, objectIDMap_ tr !! a = Some id ->
               if isHeap a then Z.even id = true else Z.odd id = true.

(** *** Uniqueness of IDs *)

(** [HeapSnapshot::NodeID] is no wider than the [uint64_t] counter
    [nextID_], and the reserved IDs leave room below its maximum. *)
Definition NodeID_fits : Prop :=
  2 <= NodeID_bits <= 64 /\
  0 <= FirstNonReservedID /\ FirstNonReservedID + 2 < 2 ^ NodeID_bits.

(** An ID that one of the two counters has handed out: past the
    reserved IDs and not past the counter of its parity. *)
Definition id_bounded (tr : t) (id : Z) : Prop :=
  FirstNonReservedID < id /\
  if Z.even id then id <= nextID_ tr else id <= nextNativeID_ tr.

(** The counters have their parity and lie between the reserved IDs and
    the largest [NodeID]; every tracked ID was handed out by a counter;
    no two addresses share an ID. *)
Definition tracker_inv (tr : t) : Prop :=
  Z.even (nextID_ tr) = true /\
  Z.odd (nextNativeID_ tr) = true /\
  FirstNonReservedID <= nextID_ tr <= NodeID_max /\
  FirstNonReservedID < nextNativeID_ tr <= NodeID_max /\
  (forall a id, objectIDMap_ tr !! a = Some id -> id_bounded tr id) /\
  (forall a b id,
     objectIDMap_ tr !! a = Some id -> objectIDMap_ tr !! b = Some id ->
     a = b).

Hypothesis NodeID_bits_ge : 1 <= NodeID_bits.

Lemma even_wrapNodeID (z : Z) : Z.even (wrapNodeID z) = Z.even z.
Proof.
  pose proof (mod2_of_wrap NodeID_bits z NodeID_bits_ge) as H.
  unfold wrapNodeID. rewrite !Zmod_even in H.
  destruct (Z.even (z mod 2 ^ NodeID_bits)), (Z.even z);
    (reflexivity || discriminate).
Qed.

Lemma even_wrap64 (z : Z) : Z.even (wrap64 z) = Z.even z.
Proof.
  pose proof (mod2_of_wrap 64 z ltac:(lia)) as H.
  unfold wrap64. rewrite !Zmod_even in H.
  destruct (Z.even (z mod 2 ^ 64)), (Z.even z);
    (reflexivity || discriminate).
Qed.

Lemma odd_wrapNodeID (z : Z) : Z.odd (wrapNodeID z) = Z.odd z.
Proof. rewrite <- !Z.negb_even, even_wrapNodeID. reflexivity. Qed.

Lemma odd_wrap64 (z : Z) : Z.odd (wrap64 z) = Z.odd z.
Proof. rewrite <- !Z.negb_even, even_wrap64. reflexivity. Qed.

Lemma initial_parity_inv (isHeap : Z -> bool) : parity_inv isHeap initial.
Proof.
  unfold parity_inv, initial; simpl.
  assert (Z.even (wrap64 (wrap64 FirstNonReservedID
                          + wrap64 FirstNonReservedID mod 2)) = true) as He.
  { rewrite even_wrap64, Z.even_add, Zmod_even.
    destruct (Z.even (wrap64 FirstNonReservedID)); reflexivity. }
  split; [exact He |]. split.
  - rewrite odd_wrapNodeID, odd_wrap64, Z.odd_add, <- Z.negb_even, He.
    reflexivity.
  - intros a id Hl. rewrite lookup_empty in Hl. discriminate.
Qed.

(** IDs handed out by the two counters have the parity of their kind. *)
Lemma nextObjectID_even (tr : t) (id : Z) (tr' : t) :
  Z.even (nextID_ tr) = true ->
  nextObjectID tr = Some (id, tr') ->
  Z.even id = true /\ Z.even (nextID_ tr') = true /\
  nextNativeID_ tr' = nextNativeID_ tr /\
  objectIDMap_ tr' = objectIDMap_ tr.
Proof.
  unfold nextObjectID. intros He H.
  destruct (wrapNodeID (NodeID_max - kIDStep) <=? nextID_ tr);
    [discriminate |].
  injection H as <- <-; simpl.
  rewrite even_wrapNodeID, even_wrap64, Z.even_add, He.
  repeat split; reflexivity.
Qed.

Lemma nextNativeID_odd (tr : t) (id : Z) (tr' : t) :
  Z.odd (nextNativeID_ tr) = true ->
  nextNativeID tr = Some (id, tr') ->
  Z.odd id = true /\ Z.odd (nextNativeID_ tr') = true /\
  nextID_ tr' = nextID_ tr /\
  objectIDMap_ tr' = objectIDMap_ tr.
Proof.
  unfold nextNativeID. intros Ho H.
  destruct (wrapNodeID (NodeID_max - kIDStep) <=? nextNativeID_ tr);
    [discriminate |].
  injection H as <- <-; simpl.
  rewrite odd_wrapNodeID, Z.odd_add, Ho.
  repeat split; reflexivity.
Qed.

Lemma step_parity_inv (isHeap : Z -> bool) (tr tr' : t) (op : Op)
      (r : option Z) :
  parity_inv isHeap tr -> respects isHeap op ->
  step tr op = Some (r, tr') ->
  parity_inv isHeap tr' /\
  (forall id, r = Some id -> parity_ok (op, id)).
Proof.
  intros (He & Ho & Hm) Hr Hs. destruct op as [c | m | o n | c | m];
    simpl in Hs, Hr.
  - unfold getObjectID in Hs.
    destruct (objectIDMap_ tr !! c) as [id |] eqn:Hl.
    + injection Hs as <- <-. split; [repeat split; assumption |].
      intros id' [= <-]. unfold parity_ok; simpl.
      specialize (Hm c id Hl). rewrite Hr in Hm. exact Hm.
    + destruct (nextObjectID tr) as [[id tr1] |] eqn:Hn; [| discriminate].
      injection Hs as <- <-.
      destruct (nextObjectID_even _ _ _ He Hn) as (Hid & He1 & Hn1 & Hm1).
      split.
      * split; [exact He1 |]. split; [simpl; rewrite Hn1; exact Ho |].
        simpl. intros a id' Hl'. rewrite Hm1 in Hl'.
        destruct (decide (c = a)) as [<- | Hne].
        -- rewrite lookup_insert_eq in Hl'. injection Hl' as <-.
           rewrite Hr. exact Hid.
        -- rewrite lookup_insert_ne in Hl' by exact Hne. exact (Hm _ _ Hl').
      * intros id' [= <-]. exact Hid.
  - unfold getNativeID in Hs.
    destruct (objectIDMap_ tr !! m) as [id |] eqn:Hl.
    + injection Hs as <- <-. split; [repeat split; assumption |].
      intros id' [= <-]. unfold parity_ok; simpl.
      specialize (Hm m id Hl). rewrite Hr in Hm. exact Hm.
    + destruct (nextNativeID tr) as [[id tr1] |] eqn:Hn; [| discriminate].
      injection Hs as <- <-.
      destruct (nextNativeID_odd _ _ _ Ho Hn) as (Hid & Ho1 & Hn1 & Hm1).
      split.
      * split; [simpl; rewrite Hn1; exact He |]. split; [exact Ho1 |].
        simpl. intros a id' Hl'. rewrite Hm1 in Hl'.
        destruct (decide (m = a)) as [<- | Hne].
        -- rewrite lookup_insert_eq in Hl'. injection Hl' as <-.
           rewrite Hr. exact Hid.
        -- rewrite lookup_insert_ne in Hl' by exact Hne. exact (Hm _ _ Hl').
      * intros id' [= <-]. exact Hid.
  - injection Hs as <- <-. split; [| intros id [=]].
    unfold moveObject. destruct (decide (o = n)) as [-> | Hne];
      [repeat split; assumption |].
    destruct (objectIDMap_ tr !! o) as [oldID |] eqn:Hl;
      [| repeat split; assumption].
    split; [exact He |]. split; [exact Ho |]. simpl.
    intros a id Hl'. destruct Hr as [Ho1 Hn1].
    destruct (decide (n = a)) as [<- | Hna].
    + rewrite lookup_insert_eq in Hl'. injection Hl' as <-.
      specialize (Hm o oldID Hl). rewrite Ho1 in Hm. rewrite Hn1. exact Hm.
    + rewrite lookup_insert_ne in Hl' by exact Hna.
      apply lookup_delete_Some in Hl' as [_ Hl']. exact (Hm _ _ Hl').
  - injection Hs as <- <-. split; [| intros id [=]].
    split; [exact He |]. split; [exact Ho |]. simpl.
    intros a id Hl'. apply lookup_delete_Some in Hl' as [_ Hl']. exact (Hm _ _ Hl').
  - injection Hs as <- <-. split; [| intros id [=]].
    split; [exact He |]. split; [exact Ho |]. simpl.
    intros a id Hl'. apply lookup_delete_Some in Hl' as [_ Hl']. exact (Hm _ _ Hl').
Qed.

Lemma run_parity_inv (isHeap : Z -> bool) (ops : list Op) :
  forall (tr tr' : t) (rs : list (Op * Z)),
    parity_inv isHeap tr -> Forall (respects isHeap) ops ->
    run tr ops = Some (rs, tr') ->
    parity_inv isHeap tr' /\ Forall parity_ok rs.
Proof.
  induction ops as [| op ops IH]; intros tr tr' rs Hinv Hall Hrun.
  - injection Hrun as <- <-. split; [exact Hinv | constructor].
  - simpl in Hrun. inversion Hall as [| ? ? Hop Hrest]; subst.
    destruct (step tr op) as [[r tr1] |] eqn:Hs; [| discriminate].
    destruct (run tr1 ops) as [[rs1 tr2] |] eqn:Hr; [| discriminate].
    injection Hrun as <- <-.
    destruct (step_parity_inv _ _ _ _ _ Hinv Hop Hs) as [Hinv1 Hid].
    destruct (IH _ _ _ Hinv1 Hrest Hr) as [Hinv2 Hrs].
    split; [exact Hinv2 |].
    destruct r as [id |]; [constructor; auto | exact Hrs].
Qed.

(** C3: [moveObject(old, new)] changes nothing when [old = new] and
    nothing when [old] is not tracked; otherwise the tracker it returns
    is the old one with the entry of [old] erased and [new] mapped to the
    ID [old] had (one state transition, every other entry and both
    counters untouched), so that [getObjectID(new)] returns that ID
    without allocating and [old] is no longer tracked. *)
Theorem moveObject_relocates (tr : t) (oldLocation newLocation : Z) :
  (oldLocation = newLocation ->
     moveObject tr oldLocation newLocation = tr) /\
  (objectIDMap_ tr !! oldLocation = None ->
     moveObject tr oldLocation newLocation = tr) /\
  (forall id,
     oldLocation <> newLocation ->
     objectIDMap_ tr !! oldLocation = Some id ->
     let tr' := moveObject tr oldLocation newLocation in
     tr' = mk (nextID_ tr) (nextNativeID_ tr)
              (<[newLocation := id]>
                 (delete oldLocation (objectIDMap_ tr))) /\
     getObjectID tr' newLocation = Some (id, tr') /\
     objectIDMap_ tr' !! oldLocation = None /\
     (forall a, a <> oldLocation -> a <> newLocation ->
                objectIDMap_ tr' !! a = objectIDMap_ tr !! a)).
Proof.
  unfold moveObject. split; [| split].
  - intros ->. rewrite decide_True by reflexivity. reflexivity.
  - intros ->. destruct (decide (oldLocation = newLocation)); reflexivity.
  - intros id Hne Hl. rewrite decide_False by exact Hne. rewrite Hl.
    simpl. split; [reflexivity |]. split; [| split].
    + unfold getObjectID; simpl. rewrite lookup_insert_eq. reflexivity.
    + rewrite lookup_insert_ne by congruence. apply lookup_delete_eq.
    + intros a Ha1 Ha2. rewrite lookup_insert_ne by congruence.
      apply lookup_delete_ne. congruence.
Qed.

(** C4 (as amended): along every sequence of calls that keeps heap and
    native addresses apart, every ID returned by [getObjectID] is even
    and every ID returned by [getNativeID] is odd. *)
Theorem ids_parity_separated (isHeap : Z -> bool) (ops : list Op)
        (rs : list (Op * Z)) (tr' : t) :
  Forall (respects isHeap) ops ->
  run initial ops = Some (rs, tr') ->
  forall op id, (op, id) ∈ rs ->
    match op with
    | GetObjectID _ => Z.even id = true
    | GetNativeID _ => Z.odd id = true
    | _ => True
    end.
Proof.
  intros Hall Hrun op id Hin.
  destruct (run_parity_inv isHeap ops _ _ _
              (initial_parity_inv isHeap) Hall Hrun) as [_ Hrs].
  rewrite Forall_forall in Hrs. exact (Hrs _ Hin).
Qed.

(** *** Counters that do not wrap *)

Lemma wrap64_small (z : Z) : 0 <= z < 2 ^ 64 -> wrap64 z = z.
Proof. intros H. apply Z.mod_small. exact H. Qed.

Lemma wrapNodeID_small (z : Z) :
  0 <= z < 2 ^ NodeID_bits -> wrapNodeID z = z.
Proof. intros H. apply Z.mod_small. exact H. Qed.

Lemma NodeID_le_64 : NodeID_fits -> 4 <= 2 ^ NodeID_bits <= 2 ^ 64.
Proof.
  intros ((Hb & Hb64) & _). split.
  - change 4 with (2 ^ 2). apply Z.pow_le_mono_r; lia.
  - apply Z.pow_le_mono_r; lia.
Qed.

Lemma id_bounded_mono (tr tr' : t) (id : Z) :
  nextID_ tr <= nextID_ tr' -> nextNativeID_ tr <= nextNativeID_ tr' ->
  id_bounded tr id -> id_bounded tr' id.
Proof.
  intros H1 H2 [Hf Hb]. split; [exact Hf |].
  destruct (Z.even id); lia.
Qed.

Lemma initial_tracker_inv : NodeID_fits -> tracker_inv initial.
Proof.
  intros Hfit. pose proof (NodeID_le_64 Hfit) as Hp.
  destruct Hfit as (Hb & Hf0 & Hf).
  destruct (initial_parity_inv (fun _ => true)) as (He & Ho & _).
  assert (wrap64 FirstNonReservedID = FirstNonReservedID) as Hw
    by (apply wrap64_small; lia).
  pose proof (Z.mod_pos_bound FirstNonReservedID 2 ltac:(lia)) as Hm.
  assert (nextID_ initial = FirstNonReservedID + FirstNonReservedID mod 2)
    as Hn.
  { unfold initial; simpl. rewrite Hw. apply wrap64_small. lia. }
  assert (nextNativeID_ initial = nextID_ initial + 1) as Hnn.
  { change (nextNativeID_ initial)
      with (wrapNodeID (wrap64 (nextID_ initial + 1))).
    rewrite Hn, wrap64_small by lia. apply wrapNodeID_small. lia. }
  unfold tracker_inv, NodeID_max.
  split; [exact He |]. split; [exact Ho |].
  split; [lia |]. split; [lia |]. split.
  - intros a id Hl. unfold initial in Hl; simpl in Hl.
    rewrite lookup_empty in Hl. discriminate.
  - intros a b id Hl. unfold initial in Hl; simpl in Hl.
    rewrite lookup_empty in Hl. discriminate.
Qed.

(** Past the overflow check the counter is bumped without wrapping. *)
Lemma nextObjectID_fresh (tr : t) (id : Z) (tr' : t) :
  NodeID_fits -> 0 <= nextID_ tr ->
  nextObjectID tr = Some (id, tr') ->
  id = nextID_ tr + kIDStep /\ id <= NodeID_max /\
  tr' = mk id (nextNativeID_ tr) (objectIDMap_ tr).
Proof.
  intros Hfit H0 H. pose proof (NodeID_le_64 Hfit) as Hp.
  unfold nextObjectID in H.
  rewrite (wrapNodeID_small (NodeID_max - kIDStep)) in H
    by (unfold NodeID_max, kIDStep; lia).
  destruct (Z.leb_spec (NodeID_max - kIDStep) (nextID_ tr)) as [| Hlt];
    [discriminate |].
  unfold NodeID_max, kIDStep in *.
  rewrite (wrap64_small (nextID_ tr + 2)) in H by lia.
  rewrite wrapNodeID_small in H by lia.
  injection H as <- <-. split; [reflexivity |]. split; [lia | reflexivity].
Qed.

Lemma nextNativeID_fresh (tr : t) (id : Z) (tr' : t) :
  NodeID_fits -> 0 <= nextNativeID_ tr ->
  nextNativeID tr = Some (id, tr') ->
  id = nextNativeID_ tr + kIDStep /\ id <= NodeID_max /\
  tr' = mk (nextID_ tr) id (objectIDMap_ tr).
Proof.
  intros Hfit H0 H. pose proof (NodeID_le_64 Hfit) as Hp.
  unfold nextNativeID in H.
  rewrite (wrapNodeID_small (NodeID_max - kIDStep)) in H
    by (unfold NodeID_max, kIDStep; lia).
  destruct (Z.leb_spec (NodeID_max - kIDStep) (nextNativeID_ tr)) as [| Hlt];
    [discriminate |].
  unfold NodeID_max, kIDStep in *.
  rewrite wrapNodeID_small in H by lia.
  injection H as <- <-. split; [reflexivity |]. split; [lia | reflexivity].
Qed.

(** Tracking a fresh ID of either counter keeps the invariant. *)
Lemma track_fresh_inv (tr : t) (a id : Z) (isObj : bool) :
  NodeID_fits -> tracker_inv tr ->
  id = (if isObj then nextID_ tr else nextNativeID_ tr) + kIDStep ->
  id <= NodeID_max ->
  tracker_inv
    (mk (if isObj then id else nextID_ tr)
        (if isObj then nextNativeID_ tr else id)
        (<[a := id]> (objectIDMap_ tr))) /\
  id_bounded
    (mk (if isObj then id else nextID_ tr)
        (if isObj then nextNativeID_ tr else id)
        (<[a := id]> (objectIDMap_ tr))) id.
Proof.
  intros Hfit (He & Ho & Hn & Hnn & Hb & Hinj) Hid Hmax.
  unfold kIDStep in Hid.
  assert (Z.even id = isObj) as Hpar.
  { rewrite Hid, Z.even_add. destruct isObj.
    - rewrite He. reflexivity.
    - rewrite <- Z.negb_odd, Ho. reflexivity. }
  assert (forall b id', objectIDMap_ tr !! b = Some id' -> id' <> id)
    as Hnew.
  { intros b id' Hl ->. destruct (Hb _ _ Hl) as [_ Hle].
    rewrite Hpar in Hle. destruct isObj; lia. }
  assert (id_bounded
            (mk (if isObj then id else nextID_ tr)
                (if isObj then nextNativeID_ tr else id)
                (<[a := id]> (objectIDMap_ tr))) id) as Hbid.
  { split; [destruct isObj; lia |]. rewrite Hpar.
    destruct isObj; simpl; lia. }
  split; [| exact Hbid].
  split; [destruct isObj; simpl; [rewrite <- Hpar; reflexivity | exact He] |].
  split.
  { destruct isObj; simpl; [exact Ho |].
    rewrite <- Z.negb_even, Hpar. reflexivity. }
  split; [destruct isObj; simpl; lia |].
  split; [destruct isObj; simpl; lia |]. split; simpl.
  - intros b id' Hl. destruct (decide (a = b)) as [<- | Hne].
    + rewrite lookup_insert_eq in Hl. injection Hl as <-. exact Hbid.
    + rewrite lookup_insert_ne in Hl by exact Hne.
      apply (id_bounded_mono tr); [| | exact (Hb _ _ Hl)];
        destruct isObj; simpl; lia.
  - intros b c id' Hlb Hlc.
    destruct (decide (a = b)) as [<- | Hnb];
      destruct (decide (a = c)) as [<- | Hnc]; try reflexivity.
    + rewrite lookup_insert_eq in Hlb. injection Hlb as <-.
      rewrite lookup_insert_ne in Hlc by exact Hnc.
      destruct (Hnew _ _ Hlc eq_refl).
    + rewrite lookup_insert_eq in Hlc. injection Hlc as <-.
      rewrite lookup_insert_ne in Hlb by exact Hnb.
      destruct (Hnew _ _ Hlb eq_refl).
    + rewrite lookup_insert_ne in Hlb by exact Hnb.
      rewrite lookup_insert_ne in Hlc by exact Hnc.
      exact (Hinj _ _ _ Hlb Hlc).
Qed.

Lemma delete_tracker_inv (tr : t) (a : Z) :
  tracker_inv tr ->
  tracker_inv (mk (nextID_ tr) (nextNativeID_ tr)
                  (delete a (objectIDMap_ tr))).
Proof.
  intros (He & Ho & Hn & Hnn & Hb & Hinj).
  split; [exact He |]. split; [exact Ho |]. split; [exact Hn |].
  split; [exact Hnn |]. split; simpl.
  - intros b id Hl. apply lookup_delete_Some in Hl as [_ Hl].
    exact (Hb _ _ Hl).
  - intros b c id Hlb Hlc.
    apply lookup_delete_Some in Hlb as [_ Hlb].
    apply lookup_delete_Some in Hlc as [_ Hlc].
    exact (Hinj _ _ _ Hlb Hlc).
Qed.

Lemma moveObject_tracker_inv (tr : t) (o n : Z) :
  tracker_inv tr -> tracker_inv (moveObject tr o n).
Proof.
  intros Hinv. unfold moveObject.
  destruct (decide (o = n)) as [-> | Hne]; [exact Hinv |].
  destruct (objectIDMap_ tr !! o) as [oldID |] eqn:Hl; [| exact Hinv].
  destruct Hinv as (He & Ho & Hn & Hnn & Hb & Hinj).
  split; [exact He |]. split; [exact Ho |]. split; [exact Hn |].
  split; [exact Hnn |]. split; simpl.
  - intros b id Hlb. destruct (decide (n = b)) as [<- | Hnb].
    + rewrite lookup_insert_eq in Hlb. injection Hlb as <-.
      exact (Hb _ _ Hl).
    + rewrite lookup_insert_ne in Hlb by exact Hnb.
      apply lookup_delete_Some in Hlb as [_ Hlb]. exact (Hb _ _ Hlb).
  - assert (forall b id, n <> b ->
              <[n := oldID]> (delete o (objectIDMap_ tr)) !! b = Some id ->
              id <> oldID) as Hother.
    { intros b id Hnb Hlb ->. rewrite lookup_insert_ne in Hlb by exact Hnb.
      apply lookup_delete_Some in Hlb as [Hob Hlb].
      exact (Hob (Hinj _ _ _ Hl Hlb)). }
    intros b c id Hlb Hlc.
    destruct (decide (n = b)) as [<- | Hnb];
      destruct (decide (n = c)) as [<- | Hnc]; try reflexivity.
    + rewrite lookup_insert_eq in Hlb. injection Hlb as <-.
      destruct (Hother _ _ Hnc Hlc eq_refl).
    + rewrite lookup_insert_eq in Hlc. injection Hlc as <-.
      destruct (Hother _ _ Hnb Hlb eq_refl).
    + rewrite lookup_insert_ne in Hlb by exact Hnb.
      rewrite lookup_insert_ne in Hlc by exact Hnc.
      apply lookup_delete_Some in Hlb as [_ Hlb].
      apply lookup_delete_Some in Hlc as [_ Hlc].
      exact (Hinj _ _ _ Hlb Hlc).
Qed.

Lemma moveObject_counters (tr : t) (o n : Z) :
  nextID_ (moveObject tr o n) = nextID_ tr /\
  nextNativeID_ (moveObject tr o n) = nextNativeID_ tr.
Proof.
  unfold moveObject. destruct (decide (o = n)); [split; reflexivity |].
  destruct (objectIDMap_ tr !! o); split; reflexivity.
Qed.

(** One call keeps the invariant, never lowers a counter, and returns an
    ID that a counter has handed out. *)
Lemma step_tracker_inv (tr tr' : t) (op : Op) (r : option Z) :
  NodeID_fits -> tracker_inv tr -> step tr op = Some (r, tr') ->
  tracker_inv tr' /\
  nextID_ tr <= nextID_ tr' /\ nextNativeID_ tr <= nextNativeID_ tr' /\
  (forall id, r = Some id -> id_bounded tr' id).
Proof.
  intros Hfit Hinv Hs. pose proof Hinv as (He & Ho & Hn & Hnn & Hb & Hinj).
  pose proof Hfit as (Hbits & Hf0 & Hf).
  destruct op as [c | m | o n | c | m]; simpl in Hs.
  - unfold getObjectID in Hs.
    destruct (objectIDMap_ tr !! c) as [id |] eqn:Hl.
    + injection Hs as <- <-. split; [exact Hinv |].
      split; [lia |]. split; [lia |].
      intros id' [= <-]. exact (Hb _ _ Hl).
    + destruct (nextObjectID tr) as [[id tr1] |] eqn:Hnx; [| discriminate].
      injection Hs as <- <-.
      destruct (nextObjectID_fresh tr id tr1 Hfit ltac:(lia) Hnx)
        as (Hid & Hmax & ->). simpl.
      destruct (track_fresh_inv tr c id true Hfit Hinv Hid Hmax)
        as [Hinv' Hbid].
      split; [exact Hinv' |]. simpl. unfold kIDStep in Hid.
      split; [lia |]. split; [lia |].
      intros id' [= <-]. exact Hbid.
  - unfold getNativeID in Hs.
    destruct (objectIDMap_ tr !! m) as [id |] eqn:Hl.
    + injection Hs as <- <-. split; [exact Hinv |].
      split; [lia |]. split; [lia |].
      intros id' [= <-]. exact (Hb _ _ Hl).
    + destruct (nextNativeID tr) as [[id tr1] |] eqn:Hnx; [| discriminate].
      injection Hs as <- <-.
      destruct (nextNativeID_fresh tr id tr1 Hfit ltac:(lia) Hnx)
        as (Hid & Hmax & ->). simpl.
      destruct (track_fresh_inv tr m id false Hfit Hinv Hid Hmax)
        as [Hinv' Hbid].
      split; [exact Hinv' |]. simpl. unfold kIDStep in Hid.
      split; [lia |]. split; [lia |].
      intros id' [= <-]. exact Hbid.
  - injection Hs as <- <-.
    destruct (moveObject_counters tr o n) as [-> ->].
    split; [apply moveObject_tracker_inv, Hinv |].
    split; [lia |]. split; [lia |]. intros id [=].
  - injection Hs as <- <-.
    split; [apply delete_tracker_inv, Hinv |]. simpl.
    split; [lia |]. split; [lia |]. intros id [=].
  - injection Hs as <- <-.
    split; [apply delete_tracker_inv, Hinv |]. simpl.
    split; [lia |]. split; [lia |]. intros id [=].
Qed.

Lemma run_tracker_inv (ops : list Op) :
  NodeID_fits ->
  forall (tr tr' : t) (rs : list (Op * Z)),
    tracker_inv tr -> run tr ops = Some (rs, tr') ->
    tracker_inv tr' /\
    nextID_ tr <= nextID_ tr' /\ nextNativeID_ tr <= nextNativeID_ tr' /\
    Forall (fun r => id_bounded tr' (snd r)) rs.
Proof.
  intros Hfit. induction ops as [| op ops IH]; intros tr tr' rs Hinv Hrun.
  - injection Hrun as <- <-. split; [exact Hinv |].
    split; [lia |]. split; [lia | constructor].
  - simpl in Hrun.
    destruct (step tr op) as [[r tr1] |] eqn:Hs; [| discriminate].
    destruct (run tr1 ops) as [[rs1 tr2] |] eqn:Hr; [| discriminate].
    injection Hrun as <- <-.
    destruct (step_tracker_inv _ _ _ _ Hfit Hinv Hs)
      as (Hinv1 & Hm1 & Hm1' & Hid).
    destruct (IH _ _ _ Hinv1 Hr) as (Hinv2 & Hm2 & Hm2' & Hrs).
    split; [exact Hinv2 |]. split; [lia |]. split; [lia |].
    destruct r as [id |]; [| exact Hrs].
    constructor; [| exact Hrs]. simpl.
    apply (id_bounded_mono tr1); [exact Hm2 | exact Hm2' |].
    apply Hid. reflexivity.
Qed.

(** *** Further properties of the tracker *)

(** X6: once [getObjectID] or [getNativeID] has returned an ID for an
    address, the address is tracked ([isTrackingIDs()] is true), and
    asking again, through either of the two, returns the same ID and
    changes nothing: no counter moves and the map stays as it is. *)
Theorem getObjectID_stable (tr : t) (addr id : Z) (tr1 : t) :
  getObjectID tr addr = Some (id, tr1) \/
  getNativeID tr addr = Some (id, tr1) ->
  objectIDMap_ tr1 !! addr = Some id /\
  isTrackingIDs tr1 = true /\
  getObjectID tr1 addr = Some (id, tr1) /\
  getNativeID tr1 addr = Some (id, tr1).
Proof.
  intros H.
  assert (objectIDMap_ tr1 !! addr = Some id) as Hl.
  { destruct H as [H | H].
    - unfold getObjectID in H.
      destruct (objectIDMap_ tr !! addr) as [id0 |] eqn:Hl0.
      + injection H as <- <-. exact Hl0.
      + destruct (nextObjectID tr) as [[id0 tr0] |]; [| discriminate].
        injection H as <- <-. simpl. apply lookup_insert_eq.
    - unfold getNativeID in H.
      destruct (objectIDMap_ tr !! addr) as [id0 |] eqn:Hl0.
      + injection H as <- <-. exact Hl0.
      + destruct (nextNativeID tr) as [[id0 tr0] |]; [| discriminate].
        injection H as <- <-. simpl. apply lookup_insert_eq. }
  split; [exact Hl |]. split; [| split].
  - unfold isTrackingIDs. apply negb_true_iff, bool_decide_eq_false.
    intros He. rewrite He, lookup_empty in Hl. discriminate.
  - unfold getObjectID. rewrite Hl. reflexivity.
  - unfold getNativeID. rewrite Hl. reflexivity.
Qed.

(** X7: in every tracker reached from the initial one by calls of the
    interface, no two tracked addresses share an ID, whatever the mix of
    heap and native addresses, moves and untracking. *)
Theorem tracked_ids_unique (ops : list Op) (rs : list (Op * Z)) (tr : t) :
  NodeID_fits -> run initial ops = Some (rs, tr) ->
  forall a b id,
    objectIDMap_ tr !! a = Some id -> objectIDMap_ tr !! b = Some id ->
    a = b.
Proof.
  intros Hfit Hrun.
  destruct (run_tracker_inv ops Hfit _ _ _ (initial_tracker_inv Hfit) Hrun)
    as ((_ & _ & _ & _ & _ & Hinj) & _).
  exact Hinj.
Qed.

(** X8: "Object IDs are not recycled".  When [getObjectID] gives an
    untracked address an ID, that ID is [nextID_ + kIDStep], it becomes
    the new [nextID_] and the address is mapped to it, with
    [nextNativeID_] untouched; when [getNativeID] does, the same holds
    with [nextNativeID_] for [nextID_].  In both cases the ID differs
    from every ID any earlier call has returned, those of addresses
    untracked since included, it is above all earlier IDs of its parity,
    and no tracked address has it. *)
Theorem fresh_id_not_recycled (ops : list Op) (rs : list (Op * Z)) (tr : t)
        (addr : Z) :
  NodeID_fits -> run initial ops = Some (rs, tr) ->
  objectIDMap_ tr !! addr = None ->
  (forall id tr',
     getObjectID tr addr = Some (id, tr') ->
     id = nextID_ tr + kIDStep /\
     tr' = mk id (nextNativeID_ tr) (<[addr := id]> (objectIDMap_ tr)) /\
     (forall op id', (op, id') ∈ rs -> id' <> id) /\
     (forall op id', (op, id') ∈ rs -> Z.even id' = true -> id' < id) /\
     (forall a, objectIDMap_ tr !! a <> Some id)) /\
  (forall id tr',
     getNativeID tr addr = Some (id, tr') ->
     id = nextNativeID_ tr + kIDStep /\
     tr' = mk (nextID_ tr) id (<[addr := id]> (objectIDMap_ tr)) /\
     (forall op id', (op, id') ∈ rs -> id' <> id) /\
     (forall op id', (op, id') ∈ rs -> Z.odd id' = true -> id' < id) /\
     (forall a, objectIDMap_ tr !! a <> Some id)).
Proof.
  intros Hfit Hrun Hnone.
  destruct (run_tracker_inv ops Hfit _ _ _ (initial_tracker_inv Hfit) Hrun)
    as (Hinv & _ & _ & Hrs).
  pose proof Hinv as (He & Ho & Hn & Hnn & Hb & _).
  pose proof Hfit as (_ & Hf0 & _).
  rewrite Forall_forall in Hrs. unfold kIDStep. split.
  - intros id tr' Hg. unfold getObjectID in Hg. rewrite Hnone in Hg.
    destruct (nextObjectID tr) as [[id0 tr0] |] eqn:Hnx; [| discriminate].
    injection Hg as <- <-.
    destruct (nextObjectID_fresh tr id0 tr0 Hfit ltac:(lia) Hnx)
      as (Hid & _ & ->).
    unfold kIDStep in Hid. simpl.
    assert (Z.even id0 = true) as Hev
      by (rewrite Hid, Z.even_add, He; reflexivity).
    assert (forall id', id_bounded tr id' -> Z.even id' = true ->
                        id' < id0) as Hlt.
    { intros id' [_ Hle] Hpar. rewrite Hpar in Hle. lia. }
    split; [exact Hid |]. split; [reflexivity |]. split; [| split].
    + intros op id' Hin ->. specialize (Hlt id0 (Hrs _ Hin) Hev). lia.
    + intros op id' Hin Hpar. exact (Hlt id' (Hrs _ Hin) Hpar).
    + intros a Hl. specialize (Hlt id0 (Hb _ _ Hl) Hev). lia.
  - intros id tr' Hg. unfold getNativeID in Hg. rewrite Hnone in Hg.
    destruct (nextNativeID tr) as [[id0 tr0] |] eqn:Hnx; [| discriminate].
    injection Hg as <- <-.
    destruct (nextNativeID_fresh tr id0 tr0 Hfit ltac:(lia) Hnx)
      as (Hid & _ & ->).
    unfold kIDStep in Hid. simpl.
    assert (Z.even id0 = false) as Hev
      by (rewrite Hid, Z.even_add, <- Z.negb_odd, Ho; reflexivity).
    assert (forall id', id_bounded tr id' -> Z.odd id' = true ->
                        id' < id0) as Hlt.
    { intros id' [_ Hle] Hpar. rewrite <- Z.negb_even in Hpar.
      apply negb_true_iff in Hpar. rewrite Hpar in Hle. lia. }
    assert (Z.odd id0 = true) as Hod
      by (rewrite <- Z.negb_even, Hev; reflexivity).
    split; [exact Hid |]. split; [reflexivity |]. split; [| split].
    + intros op id' Hin ->. specialize (Hlt id0 (Hrs _ Hin) Hod). lia.
    + intros op id' Hin Hpar. exact (Hlt id' (Hrs _ Hin) Hpar).
    + intros a Hl. specialize (Hlt id0 (Hb _ _ Hl) Hod). lia.
Qed.

(** X9: no call ever returns a reserved ID: every ID returned along a
    sequence of calls from the initial tracker lies above
    [FirstNonReservedID], so it is not [NoID] (zero), and is a [NodeID]
    value, at most the maximum of the type. *)
Theorem ids_never_reserved (ops : list Op) (rs : list (Op * Z)) (tr : t) :
  NodeID_fits -> run initial ops = Some (rs, tr) ->
  forall op id, (op, id) ∈ rs ->
    FirstNonReservedID < id <= NodeID_max /\ id <> 0.
Proof.
  intros Hfit Hrun op id Hin.
  destruct (run_tracker_inv ops Hfit _ _ _ (initial_tracker_inv Hfit) Hrun)
    as ((_ & _ & Hn & Hnn & _) & _ & _ & Hrs).
  rewrite Forall_forall in Hrs. destruct (Hrs _ Hin) as [Hf Hle].
  simpl in Hf, Hle. pose proof Hfit as (_ & Hf0 & _).
  destruct (Z.even id); lia.
Qed.

(** X10: moving an object and moving it back restores the tracker,
    when the destination of the first move is untracked as the assertion
    of [moveObject] demands; the assertion then holds for the move back
    as well. *)
Theorem moveObject_roundtrip (tr : t) (oldLocation newLocation : Z) :
  moveObject_assert tr newLocation ->
  moveObject (moveObject tr oldLocation newLocation)
             newLocation oldLocation = tr /\
  (oldLocation <> newLocation ->
   moveObject_assert (moveObject tr oldLocation newLocation) oldLocation).
Proof.
  unfold moveObject_assert. intros Hnew.
  destruct (decide (oldLocation = newLocation)) as [-> | Hne].
  { split; [| congruence].
    unfold moveObject. rewrite !decide_True by reflexivity. reflexivity. }
  unfold moveObject at 2 3. rewrite decide_False by exact Hne.
  destruct (objectIDMap_ tr !! oldLocation) as [oldID |] eqn:Hl.
  - split.
    + unfold moveObject. rewrite decide_False by congruence. simpl.
      rewrite lookup_insert_eq.
      rewrite delete_insert_id
        by (apply lookup_delete_None; right; exact Hnew).
      rewrite insert_delete_id by exact Hl.
      destruct tr; reflexivity.
    + intros _. simpl. rewrite lookup_insert_ne by congruence.
      apply lookup_delete_eq.
  - split; [| intros _; exact Hl].
    unfold moveObject. rewrite decide_False by congruence.
    rewrite Hnew. reflexivity.
Qed.

(** X11: giving an untracked address an ID and untracking it again
    leaves the map as it was (also its emptiness, which [isTrackingIDs]
    reports), through [untrackObject] and through [untrackNative] alike;
    untracking an address that is not tracked changes nothing. *)
Theorem track_untrack_roundtrip (tr : t) (addr id : Z) (tr1 : t) :
  objectIDMap_ tr !! addr = None ->
  getObjectID tr addr = Some (id, tr1) \/
  getNativeID tr addr = Some (id, tr1) ->
  objectIDMap_ (untrackObject tr1 addr) = objectIDMap_ tr /\
  untrackNative tr1 addr = untrackObject tr1 addr /\
  isTrackingIDs (untrackObject tr1 addr) = isTrackingIDs tr /\
  untrackObject tr addr = tr.
Proof.
  intros Hnone Hget.
  assert (objectIDMap_ tr1 = <[addr := id]> (objectIDMap_ tr)) as Hm.
  { destruct Hget as [Hg | Hg].
    - unfold getObjectID in Hg. rewrite Hnone in Hg.
      unfold nextObjectID in Hg.
      destruct (wrapNodeID (NodeID_max - kIDStep) <=? nextID_ tr);
        [discriminate |].
      injection Hg as <- <-. reflexivity.
    - unfold getNativeID in Hg. rewrite Hnone in Hg.
      unfold nextNativeID in Hg.
      destruct (wrapNodeID (NodeID_max - kIDStep) <=? nextNativeID_ tr);
        [discriminate |].
      injection Hg as <- <-. reflexivity. }
  assert (objectIDMap_ (untrackObject tr1 addr) = objectIDMap_ tr) as Hback.
  { unfold untrackObject; simpl. rewrite Hm.
    apply delete_insert_id, Hnone. }
  split; [exact Hback |]. split; [reflexivity |]. split.
  - unfold isTrackingIDs. rewrite Hback. reflexivity.
  - unfold untrackObject. rewrite delete_id by exact Hnone.
    destruct tr; reflexivity.
Qed.

(** X12: the only way [getObjectID] or [getNativeID] ends the process
    ([hermes_fatal]) is an untracked address when the counter of its
    kind is within [kIDStep] of the largest [NodeID]; an address that is
    tracked is always answered. *)
Theorem getObjectID_fatal_iff (tr : t) (addr : Z) :
  NodeID_fits ->
  (getObjectID tr addr = None <->
   objectIDMap_ tr !! addr = None /\ NodeID_max - kIDStep <= nextID_ tr) /\
  (getNativeID tr addr = None <->
   objectIDMap_ tr !! addr = None /\
   NodeID_max - kIDStep <= nextNativeID_ tr).
Proof.
  intros Hfit. pose proof (NodeID_le_64 Hfit) as Hp.
  assert (wrapNodeID (NodeID_max - kIDStep) = NodeID_max - kIDStep) as Hw.
  { apply wrapNodeID_small. unfold NodeID_max, kIDStep. lia. }
  unfold getObjectID, getNativeID, nextObjectID, nextNativeID.
  rewrite Hw.
  destruct (objectIDMap_ tr !! addr) as [id |].
  - split; split; (discriminate || intros [? _]; discriminate).
  - split.
    + destruct (Z.leb_spec (NodeID_max - kIDStep) (nextID_ tr)).
      * split; [intros _; split; [reflexivity | assumption] | reflexivity].
      * split; [discriminate | intros [_ ?]; lia].
    + destruct (Z.leb_spec (NodeID_max - kIDStep) (nextNativeID_ tr)).
      * split; [intros _; split; [reflexivity | assumption] | reflexivity].
      * split; [discriminate | intros [_ ?]; lia].
Qed.

End NodeIDs.

(** With 64-bit IDs and [FirstNonReservedID = 20]: an address first
    registered through [getNativeID] keeps its odd ID when it is later
    passed to [getObjectID], because both kinds share one map. *)
Lemma shared_map_parity_counterexample :
  ~ (forall (ops : list Op) (rs : list (Op * Z)) (tr' : t),
        run 64 (initial 64 20) ops = Some (rs, tr') ->
        Forall parity_ok rs).
Proof.
  intros H.
  specialize (H [GetNativeID 4096; GetObjectID 4096]).
  vm_compute in H. specialize (H _ _ eq_refl).
  inversion H as [| ? ? _ H2]; subst.
  inversion H2 as [| ? ? H3 _]; subst.
  vm_compute in H3. discriminate.
Qed.

(** The entry of address 16 moves to address 32 and keeps its ID 22. *)
Lemma moveObject_relocates_witness :
  getObjectID 64 (moveObject (mk 22 21 {[16 := 22]}) 16 32) 32
  = Some (22, moveObject (mk 22 21 {[16 := 22]}) 16 32) /\
  objectIDMap_ (moveObject (mk 22 21 {[16 := 22]}) 16 32) !! 16 = None.
Proof.
  destruct (moveObject_relocates 64 (mk 22 21 {[16 := 22]}) 16 32)
    as (_ & _ & H).
  destruct (H 22 ltac:(lia) ltac:(reflexivity)) as (_ & Hg & Ho & _).
  split; [exact Hg | exact Ho].
Defined.

Lemma ids_parity_separated_witness :
  Z.even 22 = true /\ Z.odd 23 = true.
Proof.
  pose proof (ids_parity_separated 64 20 ltac:(lia)
                (fun a => a <? 4096)
                [GetObjectID 16; GetNativeID 8192; MoveObject 16 32;
                 GetObjectID 32]
                [(GetObjectID 16, 22); (GetNativeID 8192, 23);
                 (GetObjectID 32, 22)]) as H.
  specialize (H (mk 22 23 {[32 := 22; 8192 := 23]})).
  split.
  - apply (H ltac:(repeat constructor) ltac:(vm_compute; reflexivity)
             (GetObjectID 16) 22).
    repeat constructor.
  - apply (H ltac:(repeat constructor) ltac:(vm_compute; reflexivity)
             (GetNativeID 8192) 23).
    apply list_elem_of_In. simpl. tauto.
Defined.

(** 64-bit IDs, twenty reserved ones. *)
Lemma getObjectID_stable_witness :
  getObjectID 64 (mk 22 21 {[16 := 22]}) 16
  = Some (22, mk 22 21 {[16 := 22]}) /\
  isTrackingIDs (mk 22 21 {[16 := 22]}) = true.
Proof.
  assert (getObjectID 64 (initial 64 20) 16
          = Some (22, mk 22 21 {[16 := 22]})) as H0
    by (vm_compute; reflexivity).
  destruct (getObjectID_stable 64 _ _ _ _ (or_introl H0))
    as (_ & Ht & Hg & _).
  split; [exact Hg | exact Ht].
Defined.

Lemma NodeID_fits_64_20 : NodeID_fits 64 20.
Proof. unfold NodeID_fits. lia. Qed.

(** A heap object and a native block, the object then moves: its ID 22
    is the ID of no other address. *)
Lemma tracked_ids_unique_witness :
  objectIDMap_ (mk 22 23 {[32 := 22; 8192 := 23]}) !! 8192 <> Some 22.
Proof.
  intros H.
  assert (run 64 (initial 64 20)
              [GetObjectID 16; GetNativeID 8192; MoveObject 16 32]
          = Some ([(GetObjectID 16, 22); (GetNativeID 8192, 23)],
                  mk 22 23 {[32 := 22; 8192 := 23]})) as Hrun
    by (vm_compute; reflexivity).
  assert (objectIDMap_ (mk 22 23 {[32 := 22; 8192 := 23]}) !! 32
          = Some 22) as H32 by (vm_compute; reflexivity).
  pose proof (tracked_ids_unique 64 20 ltac:(lia) _ _ _
                NodeID_fits_64_20 Hrun 32 8192 22 H32 H) as Heq.
  discriminate Heq.
Defined.

(** An address that is untracked and tracked again gets the next ID,
    not the one it had. *)
Lemma fresh_id_not_recycled_witness :
  getObjectID 64 (mk 22 21 ∅) 16 = Some (24, mk 24 21 {[16 := 24]}) /\
  24 = 22 + kIDStep /\ 22 <> 24.
Proof.
  assert (getObjectID 64 (mk 22 21 ∅) 16
          = Some (24, mk 24 21 {[16 := 24]})) as Hg
    by (vm_compute; reflexivity).
  assert (run 64 (initial 64 20) [GetObjectID 16; UntrackObject 16]
          = Some ([(GetObjectID 16, 22)], mk 22 21 ∅)) as Hrun
    by (vm_compute; reflexivity).
  assert (objectIDMap_ (mk 22 21 ∅) !! 16 = None) as Hn
    by (vm_compute; reflexivity).
  split; [exact Hg |].
  destruct (fresh_id_not_recycled 64 20 ltac:(lia) _ _ _ 16
              NodeID_fits_64_20 Hrun Hn) as [H _].
  destruct (H _ _ Hg) as (Hid & _ & Hne & _).
  split; [exact Hid |].
  apply (Hne (GetObjectID 16)). repeat constructor.
Defined.

Lemma ids_never_reserved_witness :
  20 < 23 <= NodeID_max 64 /\ 23 <> 0.
Proof.
  assert (run 64 (initial 64 20) [GetObjectID 16; GetNativeID 8192]
          = Some ([(GetObjectID 16, 22); (GetNativeID 8192, 23)],
                  mk 22 23 {[16 := 22; 8192 := 23]})) as Hrun
    by (vm_compute; reflexivity).
  apply (ids_never_reserved 64 20 ltac:(lia) _ _ _
           NodeID_fits_64_20 Hrun (GetNativeID 8192)).
  apply list_elem_of_In. simpl. tauto.
Defined.

(** The object at 16 moves to 32 and back. *)
Lemma moveObject_roundtrip_witness :
  moveObject (moveObject (mk 22 21 {[16 := 22]}) 16 32) 32 16
  = mk 22 21 {[16 := 22]}.
Proof.
  apply (moveObject_roundtrip (mk 22 21 {[16 := 22]}) 16 32).
  vm_compute. reflexivity.
Defined.

Lemma track_untrack_roundtrip_witness :
  objectIDMap_ (untrackObject (mk 24 21 {[16 := 24]}) 16) = ∅.
Proof.
  assert (getObjectID 64 (mk 22 21 ∅) 16
          = Some (24, mk 24 21 {[16 := 24]})) as Hg
    by (vm_compute; reflexivity).
  assert (objectIDMap_ (mk 22 21 ∅) !! 16 = None) as Hn
    by (vm_compute; reflexivity).
  destruct (track_untrack_roundtrip 64 (mk 22 21 ∅) 16 24 _ Hn
              (or_introl Hg)) as (H & _).
  exact H.
Defined.

(** The counter of heap IDs has reached the last even number. *)
Lemma getObjectID_fatal_iff_witness :
  getObjectID 64 (mk (2 ^ 64 - 2) 21 {[16 := 22]}) 32 = None /\
  getObjectID 64 (mk (2 ^ 64 - 2) 21 {[16 := 22]}) 16 <> None.
Proof.
  destruct (getObjectID_fatal_iff 64 20 (mk (2 ^ 64 - 2) 21 {[16 := 22]})
              32 NodeID_fits_64_20) as [[_ H] _].
  split.
  - apply H. split; [reflexivity |]. vm_compute. discriminate.
  - destruct (getObjectID_fatal_iff 64 20
                (mk (2 ^ 64 - 2) 21 {[16 := 22]}) 16 NodeID_fits_64_20)
      as [[H16 _] _].
    intros Hn. destruct (H16 Hn) as [Hl _]. vm_compute in Hl.
    discriminate Hl.
Defined.

End IDTracker.

(** ** SegmentedArray (SegmentedArray.cpp) *)

Module SegmentedArray.

(** Modelled from the spec: [HermesValue] and the [Segment] cell, whose
    declarations (HermesValue.h, SegmentedArray.h) are not among the
    sources.  A value is the "empty" sentinel, a reference to a
    [Segment] cell of the array ("each a separately-allocated heap cell
    referenced by a slot"), or any other value (numbers stand for
    those).  A segment is its declared [length_] and its payload [data_]
    of [kMaxLength] values; the array is the only owner of its segments,
    so the reference is the segment itself. *)
Inductive HermesValue :=
| EmptyValue
| NumberValue (n : Z)
| SegmentValue (seg : Segment)
with Segment :=
| mkSegment (length_ : Z) (data_ : list HermesValue).

Definition length_ (seg : Segment) : Z :=
  match seg with mkSegment len _ => len end.

Definition data_ (seg : Segment) : list HermesValue :=
  match seg with mkSegment _ data => data end.

(** [HermesValue::isEmpty()]; [EmptyValue] is
    [HermesValue::encodeEmptyValue()]. *)
Definition isEmpty (v : HermesValue) : bool :=
  match v with EmptyValue => true | _ => false end.

(** The cell: [slotCapacity_], [numSlotsUsed_] and the trailing inline
    storage of [slotCapacity_] values. *)
Record t := mk {
  slotCapacity_ : Z;
  numSlotsUsed_ : Z;
  slots : list HermesValue
}.

(** The prototypes [Runtime::raise...Error] build their error objects
    from (Runtime.cpp), and the error object as far as it matters here:
    its prototype and its message. *)
Inductive ErrorPrototype :=
| TypeErrorPrototype
| SyntaxErrorPrototype
| RangeErrorPrototype
| ReferenceErrorPrototype
| URIErrorPrototype.

Record JSError := mkJSError {
  prototype : ErrorPrototype;
  message : string
}.

(** What the array code asks of the runtime: allocation of cells
    ([runtime->alloc], counted here per kind of cell) and the pending
    exception set by [setThrownValue]. *)
Record Runtime := mkRuntime {
  arraysAllocated : Z;
  segmentsAllocated : Z;
  thrownValue_ : option JSError
}.

Inductive ExecutionStatus := EXCEPTION | RETURNED.

(** [size_type] is [uint32_t]. *)
Definition wrap32 (z : Z) : Z := z mod 2 ^ 32.

(** A read through a raw pointer at an unsigned offset; past the end of
    the storage the read is undefined in C++.  It yields a value that is
    not "empty" here, so that no "empty" result can come from a stray
    read. *)
Definition load (l : list HermesValue) (i : Z) : HermesValue :=
  default (NumberValue 0) (l !! Z.to_nat i).

(** A write through a raw pointer at an unsigned offset; past the end
    of the storage the write is undefined in C++ and dropped here. *)
Definition store (l : list HermesValue) (i : Z) (v : HermesValue)
  : list HermesValue :=
  <[Z.to_nat i := v]> l.

(** Modelled from the spec: [GCHermesValue::fill(base + first,
    base + last, v)] of the missing HermesValue-inline.h; the slots of
    the range are "filled" with the value, first to last. *)
Definition fill (l : list HermesValue) (first last : Z) (v : HermesValue)
  : list HermesValue :=
  foldl (fun acc i => store acc i v) l (seqZ first (last - first)).

(** Modelled from the spec: [GCHermesValue::copy(src, src + n, dst)]
    of the missing HermesValue-inline.h between two storages; "copies
    all live slots across", first to last. *)
Definition copy (src : list HermesValue) (n : Z) (dst : list HermesValue)
  : list HermesValue :=
  foldl (fun acc i => store acc i (load src i)) dst (seqZ 0 n).

(** [runtime->setThrownValue(value)] records the exception and returns
    [EXCEPTION]. *)
Definition setThrownValue (rt : Runtime) (value : JSError)
  : Runtime * ExecutionStatus :=
  (mkRuntime (arraysAllocated rt) (segmentsAllocated rt) (Some value),
   EXCEPTION).

Section Errors.
(** [StringPrimitive::create(runtime, buf)] and
    [JSError::create(runtime, prototype)] are declared in headers that
    are not among the sources: they are parameters.  Each returns the
    runtime it leaves and either the new value or [None] for
    [ExecutionStatus::EXCEPTION], with whatever exception it has
    raised. *)
Context (StringPrimitive_create : Runtime -> string -> Runtime * option string).
Context (JSError_create :
           Runtime -> ErrorPrototype -> Runtime * option JSError).

(** [raisePlaceholder(runtime, errorObj, message)] of Runtime.cpp:
    [recordStackTrace] and [setupStack] touch the stack property only;
    [setMessage] stores the message, and the object becomes the thrown
    value. *)
Definition raisePlaceholder_errorObj (rt : Runtime) (errorObj : JSError)
           (message : string) : Runtime * ExecutionStatus :=
  setThrownValue rt (mkJSError (prototype errorObj) message).

(** [raisePlaceholder(runtime, prototype, message)] with a message
    handle: it returns early when [JSError::create] fails. *)
Definition raisePlaceholder_message (rt : Runtime) (proto : ErrorPrototype)
           (message : string) : Runtime * ExecutionStatus :=
  match JSError_create rt proto with
  | (rt, None) => (rt, EXCEPTION)
  | (rt, Some errorObj) => raisePlaceholder_errorObj rt errorObj message
  end.

(** [raisePlaceholder(runtime, prototype, msg)] with a [TwineChar16]:
    it returns early when [StringPrimitive::create] fails. *)
Definition raisePlaceholder (rt : Runtime) (proto : ErrorPrototype)
           (msg : string) : Runtime * ExecutionStatus :=
  match StringPrimitive_create rt msg with
  | (rt, None) => (rt, EXCEPTION)
  | (rt, Some str) => raisePlaceholder_message rt proto str
  end.

(** [Runtime::raiseRangeError(msg)]. *)
Definition raiseRangeError (rt : Runtime) (msg : string)
  : Runtime * ExecutionStatus :=
  raisePlaceholder rt RangeErrorPrototype msg.

End Errors.

(** *** A small layout for concrete runs

    Four inline elements and segments of four elements; at most 1000
    elements; a policy that asks for exactly the new size. *)

Definition examplePolicy (oldSize newSize : Z) : Z := newSize.

(** A policy that asks for twice the new size. *)
Definition doublingPolicy (oldSize newSize : Z) : Z := 2 * newSize.

Definition exampleFresh (i : Z) : HermesValue := NumberValue (-1).

Definition exampleRuntime : Runtime := mkRuntime 0 0 None.

(** Allocations of the message string and of the error object that
    succeed, and a string allocation that fails with an exception of its
    own. *)
Definition exampleString (rt : Runtime) (buf : string)
  : Runtime * option string :=
  (rt, Some buf).

Definition exampleError (rt : Runtime) (proto : ErrorPrototype)
  : Runtime * option JSError :=
  (rt, Some (mkJSError proto "")).

Definition failingString (rt : Runtime) (buf : string)
  : Runtime * option string :=
  (fst (setThrownValue rt (mkJSError RangeErrorPrototype "String length exceeds limit")),
   None).

(** Capacity 12 (six slots), two elements in use. *)
Definition exampleArray : t :=
  mk 6 2 [NumberValue 10; NumberValue 11; NumberValue (-1);
          NumberValue (-1); EmptyValue; EmptyValue].

(** Capacity 4, two elements in use. *)
Definition inlineArray : t :=
  mk 4 2 [NumberValue 10; NumberValue 11; NumberValue (-1);
          NumberValue (-1)].

(** Capacity 4, one element in use, values left behind by a shrink. *)
Definition shrunkArray : t :=
  mk 4 1 [NumberValue 10; NumberValue 11; NumberValue 12;
          NumberValue (-1)].

(** Three values to push, and a segment of declared length 1. *)
Definition exampleValues : list HermesValue :=
  [NumberValue 1; NumberValue 2; NumberValue 3].

Definition exampleSegment : Segment :=
  mkSegment 1 [NumberValue 7; NumberValue 8; NumberValue 9; NumberValue 9].

Section Layout.
(** [kValueToSegmentThreshold], [Segment::kMaxLength], [maxElements()]
    and [calculateNewCapacity] are declared in SegmentedArray.h, which is
    not among the sources: they are parameters.  [uninitialized] gives
    the contents of freshly allocated memory. *)
Context (kValueToSegmentThreshold kMaxLength maxElements : Z).
Context (calculateNewCapacity : Z -> Z -> Z).
Context (uninitialized : Z -> HermesValue).
(** The two allocations behind [Runtime::raiseRangeError], see
    [raisePlaceholder]. *)
Context (StringPrimitive_create : Runtime -> string -> Runtime * option string).
Context (JSError_create :
           Runtime -> ErrorPrototype -> Runtime * option JSError).

Local Abbreviation T := kValueToSegmentThreshold.
Local Abbreviation L := kMaxLength.

(** Modelled from the spec: [toSegment] of the missing
    SegmentedArray.h; "elements at/above threshold live in segments
    addressed by index/segment-size". *)
Definition toSegment (index : Z) : Z :=
  wrap32 (index - kValueToSegmentThreshold) / kMaxLength.

(** Modelled from the spec: [toInterior] of the missing
    SegmentedArray.h, the offset inside the segment that [toSegment]
    names. *)
Definition toInterior (index : Z) : Z :=
  wrap32 (index - kValueToSegmentThreshold) mod kMaxLength.

(** Modelled from the spec: [numSlotsForCapacity] of the missing
    SegmentedArray.h; "capacity slots total (inline + one slot per needed
    segment pointer)". *)
Definition numSlotsForCapacity (capacity : Z) : Z :=
  if capacity <=? kValueToSegmentThreshold then capacity
  else wrap32 (kValueToSegmentThreshold
               + wrap32 (toSegment (wrap32 (capacity - 1)) + 1)).

(** Modelled from the spec: [segmentAtPossiblyUnallocated] of the
    missing SegmentedArray.h; a segment is "referenced by a slot in the
    SegmentedArray's storage", after the inline prefix. *)
Definition segmentAtPossiblyUnallocated (self : t) (segment : Z)
  : HermesValue :=
  load (slots self) (kValueToSegmentThreshold + segment).

(** Modelled from the spec: [segmentAt] of the missing
    SegmentedArray.h, the [Segment] cell that the slot refers to (the
    cast of a slot that holds no segment is undefined in C++ and yields
    an empty segment here). *)
Definition segmentAt (self : t) (segment : Z) : Segment :=
  match segmentAtPossiblyUnallocated self segment with
  | SegmentValue seg => seg
  | _ => mkSegment 0 []
  end.

(** Modelled from the spec: a write through the pointer returned by
    [segmentAt(n)] changes the segment the slot refers to. *)
Definition updateSegment (self : t) (segment : Z) (f : Segment -> Segment)
  : t :=
  mk (slotCapacity_ self) (numSlotsUsed_ self)
     (store (slots self) (kValueToSegmentThreshold + segment)
            (SegmentValue (f (segmentAt self segment)))).

(** Modelled from the spec: [size()] of the missing SegmentedArray.h;
    [numSlotsUsed_] is the "logical high-water mark including any
    segment-pointer slots", every used segment before the last is full
    and the last one holds its declared length. *)
Definition size (self : t) : Z :=
  let numSlotsUsed := numSlotsUsed_ self in
  if numSlotsUsed <=? kValueToSegmentThreshold then numSlotsUsed
  else
    let numSegments := numSlotsUsed - kValueToSegmentThreshold in
    kValueToSegmentThreshold + (numSegments - 1) * kMaxLength
    + length_ (segmentAt self (numSegments - 1)).

(** Modelled from the spec: [capacity()] of the missing SegmentedArray.h;
    "total addressable slots across inline + allocated segments" for a
    cell whose "total slot count is fixed at creation". *)
Definition capacity (self : t) : Z :=
  let slotCapacity := slotCapacity_ self in
  if slotCapacity <=? kValueToSegmentThreshold then slotCapacity
  else
    kValueToSegmentThreshold
    + (slotCapacity - kValueToSegmentThreshold) * kMaxLength.

(** Modelled from the spec: [at(index)] of the missing SegmentedArray.h;
    "elements with index < threshold live in inline storage; elements
    at/above threshold live in segments". *)
Definition at_ (self : t) (index : Z) : HermesValue :=
  if index <? kValueToSegmentThreshold then load (slots self) index
  else load (data_ (segmentAt self (toSegment index))) (toInterior index).

(** Modelled from the spec: a write through the reference returned by
    [at(index)] of the missing SegmentedArray.h, into the inline storage
    or into the segment of the index. *)
Definition set_at (self : t) (index : Z) (v : HermesValue) : t :=
  if index <? kValueToSegmentThreshold then
    mk (slotCapacity_ self) (numSlotsUsed_ self) (store (slots self) index v)
  else
    updateSegment self (toSegment index)
      (fun seg => mkSegment (length_ seg)
                    (store (data_ seg) (toInterior index) v)).

(** Modelled from the spec: the iterators [begin()], [end()] of the
    missing SegmentedArray.h walk the elements by index, so the
    [GCHermesValue] range operations on them are element-wise loops
    over [at].  [fillElements self first last v] is
    [fill(begin() + first, begin() + last, v)]. *)
Definition fillElements (self : t) (first last : Z) (v : HermesValue) : t :=
  foldl (fun acc i => set_at acc i v) self (seqZ first (last - first)).

(** Modelled from the spec:
    [copy(src.begin() + first, src.begin() + last, dst.begin() + dfirst)]
    over the iterators of the missing SegmentedArray.h, for distinct
    arrays ("copy element-by-element"). *)
Definition copyElements (src : t) (first last : Z) (dst : t) (dfirst : Z)
  : t :=
  foldl (fun acc k => set_at acc (dfirst + k) (at_ src (first + k)))
        dst (seqZ 0 (last - first)).

(** Modelled from the spec:
    [copy(begin() + first, begin() + last, begin() + dfirst)] over the
    iterators of the missing SegmentedArray.h inside one array ("an O(n)
    element-by-element copy"): front to back, reading what earlier steps
    wrote. *)
Definition copyWithin (self : t) (first last dfirst : Z) : t :=
  foldl (fun acc k => set_at acc (dfirst + k) (at_ acc (first + k)))
        self (seqZ 0 (last - first)).

(** Modelled from the spec:
    [copy_backward(begin() + first, begin() + last, begin() + dlast)]
    over the iterators of the missing SegmentedArray.h inside one array:
    back to front, reading what earlier steps wrote. *)
Definition copyBackwardWithin (self : t) (first last dlast : Z) : t :=
  foldl (fun acc k => set_at acc (dlast - k) (at_ acc (last - k)))
        self (seqZ 1 (last - first)).

(** Modelled from the spec: the [Segment] constructor of the missing
    SegmentedArray.h; a new segment has "length 0" and an
    "uninitialized payload". *)
Definition Segment_create (rt : Runtime) : Runtime * Segment :=
  (mkRuntime (arraysAllocated rt) (segmentsAllocated rt + 1)
             (thrownValue_ rt),
   mkSegment 0 (uninitialized <$> seqZ 0 kMaxLength)).

Definition setLengthWithoutFilling (seg : Segment) (newLength : Z)
  : Segment :=
  mkSegment newLength (data_ seg).

Definition setLength (seg : Segment) (newLength : Z) : Segment :=
  let seg :=
    if length_ seg <? newLength then
      mkSegment (length_ seg)
                (fill (data_ seg) (length_ seg) newLength EmptyValue)
    else seg in
  setLengthWithoutFilling seg newLength.

(** Modelled from the spec: the [SegmentedArray(runtime, capacity)]
    constructor of the missing SegmentedArray.h; a cell "sized to hold
    capacity slots total (inline + one slot per needed segment pointer),
    with no segments allocated yet (all segment-pointer slots are
    empty)".  The inline element slots are fresh memory. *)
Definition construct (capacity : Z) : t :=
  mk (numSlotsForCapacity capacity) 0
     ((fun i => if i <? kValueToSegmentThreshold then uninitialized i
                else EmptyValue) <$> seqZ 0 (numSlotsForCapacity capacity)).

Definition throwExcessiveCapacityError_assert (capacity : Z) : Prop :=
  maxElements < capacity.

Definition throwExcessiveCapacityError (rt : Runtime) (capacity : Z)
  : Runtime * ExecutionStatus :=
  raiseRangeError StringPrimitive_create JSError_create rt
    ("Requested an array size larger than the max allowable: Requested elements = "
     +:+ pretty capacity +:+ ", max elements = " +:+ pretty maxElements).

(** [create(runtime, capacity)]: [None] is [ExecutionStatus::EXCEPTION]. *)
Definition create (rt : Runtime) (capacity : Z) : Runtime * option t :=
  if maxElements <? capacity then
    (fst (throwExcessiveCapacityError rt capacity), None)
  else
    (mkRuntime (arraysAllocated rt + 1) (segmentsAllocated rt)
               (thrownValue_ rt),
     Some (construct capacity)).

(** [createLongLived] differs only in the allocator entry point. *)
Definition createLongLived (rt : Runtime) (capacity : Z)
  : Runtime * option t :=
  if maxElements <? capacity then
    (fst (throwExcessiveCapacityError rt capacity), None)
  else
    (mkRuntime (arraysAllocated rt + 1) (segmentsAllocated rt)
               (thrownValue_ rt),
     Some (construct capacity)).

Definition allocateSegment_assert (self : t) (segment : Z) : Prop :=
  isEmpty (segmentAtPossiblyUnallocated self segment) = true.

Definition allocateSegment (rt : Runtime) (self : t) (segment : Z)
  : Runtime * t :=
  let '(rt, c) := Segment_create rt in
  (rt, mk (slotCapacity_ self) (numSlotsUsed_ self)
          (store (slots self) (kValueToSegmentThreshold + segment)
                 (SegmentValue c))).

Definition set_numSlotsUsed (self : t) (n : Z) : t :=
  mk (slotCapacity_ self) n (slots self).

Definition set_slots (self : t) (l : list HermesValue) : t :=
  mk (slotCapacity_ self) (numSlotsUsed_ self) l.

(** [increaseSize<Fill>(runtime, self, amount)]. *)
Definition increaseSize (Fill : bool) (rt : Runtime) (self : t) (amount : Z)
  : Runtime * t :=
  let empty := EmptyValue in
  let currSize := size self in
  let finalSize := wrap32 (currSize + amount) in
  if (currSize <=? kValueToSegmentThreshold)
     && (finalSize <=? kValueToSegmentThreshold) then
    let self :=
      if Fill then set_slots self (fill (slots self) currSize finalSize empty)
      else self in
    (rt, set_numSlotsUsed self finalSize)
  else
    let self :=
      if currSize <=? kValueToSegmentThreshold then
        set_numSlotsUsed
          (set_slots self
             (fill (slots self) currSize kValueToSegmentThreshold empty))
          kValueToSegmentThreshold
      else self in
    let startSegment :=
      if currSize <=? kValueToSegmentThreshold then 0
      else toSegment (wrap32 (currSize - 1)) in
    let lastSegment := toSegment (wrap32 (finalSize - 1)) in
    let newNumSlotsUsed := numSlotsForCapacity finalSize in
    let self :=
      set_slots self
        (fill (slots self) (numSlotsUsed_ self) newNumSlotsUsed empty) in
    let self := set_numSlotsUsed self newNumSlotsUsed in
    let '(rt, self) :=
      if (startSegment <=? lastSegment)
         && isEmpty (segmentAtPossiblyUnallocated self startSegment)
      then allocateSegment rt self startSegment
      else (rt, self) in
    let '(rt, self) :=
      foldl (fun '(rt, self) i => allocateSegment rt self i) (rt, self)
            (seqZ (wrap32 (startSegment + 1)) (lastSegment - startSegment)) in
    let self :=
      foldl (fun self i =>
               let segmentLength :=
                 if i =? lastSegment
                 then wrap32 (toInterior (wrap32 (finalSize - 1)) + 1)
                 else kMaxLength in
               updateSegment self i
                 (fun seg => if Fill then setLength seg segmentLength
                             else setLengthWithoutFilling seg segmentLength))
            self (seqZ startSegment (lastSegment - startSegment + 1)) in
    (rt, self).

Definition decreaseSize_assert (self : t) (amount : Z) : Prop :=
  amount <= size self.

Definition decreaseSize (self : t) (amount : Z) : t :=
  let finalSize := wrap32 (size self - amount) in
  if finalSize <=? kValueToSegmentThreshold then
    set_numSlotsUsed self finalSize
  else
    let self :=
      updateSegment self (toSegment (wrap32 (finalSize - 1)))
        (fun seg =>
           setLength seg
             (wrap32 (toInterior (wrap32 (finalSize - 1)) + 1))) in
    set_numSlotsUsed self (numSlotsForCapacity finalSize).

Definition growWithinCapacity_assert (self : t) (amount : Z) : Prop :=
  wrap32 (size self + amount) <= capacity self.

Definition growRightWithinCapacity (rt : Runtime) (self : t) (amount : Z)
  : Runtime * t :=
  increaseSize true rt self amount.

Definition growLeftWithinCapacity (rt : Runtime) (self : t) (amount : Z)
  : Runtime * t :=
  let '(rt, self) := increaseSize false rt self amount in
  let self :=
    copyBackwardWithin self 0 (size self - amount) (size self) in
  (rt, fillElements self 0 amount EmptyValue).

Definition shrinkRight (self : t) (amount : Z) : t :=
  decreaseSize self amount.

Definition shrinkLeft (self : t) (amount : Z) : t :=
  let self := copyWithin self amount (size self) 0 in
  decreaseSize self amount.

(** [growRight(self, runtime, amount)]: the status, and the array the
    handle [self] refers to afterwards. *)
Definition growRight (rt : Runtime) (self : t) (amount : Z)
  : Runtime * ExecutionStatus * t :=
  if wrap32 (size self + amount) <=? capacity self then
    let '(rt, self) := growRightWithinCapacity rt self amount in
    (rt, RETURNED, self)
  else
    let newSize := wrap32 (size self + amount) in
    match create rt (calculateNewCapacity (size self) newSize) with
    | (rt, None) => (rt, EXCEPTION, self)
    | (rt, Some newSegmentedArray) =>
        let newSegmentedArray :=
          set_slots newSegmentedArray
            (copy (slots self) (numSlotsUsed_ self)
                  (slots newSegmentedArray)) in
        let newSegmentedArray :=
          set_numSlotsUsed newSegmentedArray (numSlotsUsed_ self) in
        let '(rt, newSegmentedArray) :=
          increaseSize true rt newSegmentedArray amount in
        (rt, RETURNED, newSegmentedArray)
    end.

Definition growLeft (rt : Runtime) (self : t) (amount : Z)
  : Runtime * ExecutionStatus * t :=
  if wrap32 (size self + amount) <? capacity self then
    let '(rt, self) := growLeftWithinCapacity rt self amount in
    (rt, RETURNED, self)
  else
    let newSize := wrap32 (size self + amount) in
    match create rt (calculateNewCapacity (size self) newSize) with
    | (rt, None) => (rt, EXCEPTION, self)
    | (rt, Some newSegmentedArray) =>
        let '(rt, newSegmentedArray) :=
          increaseSize false rt newSegmentedArray newSize in
        let newSegmentedArray :=
          fillElements newSegmentedArray 0 amount EmptyValue in
        let newSegmentedArray :=
          copyElements self 0 (size self) newSegmentedArray amount in
        (rt, RETURNED, newSegmentedArray)
    end.

Definition push_back (rt : Runtime) (self : t) (value : HermesValue)
  : Runtime * ExecutionStatus * t :=
  let oldSize := size self in
  match growRight rt self 1 with
  | (rt, EXCEPTION, self) => (rt, EXCEPTION, self)
  | (rt, RETURNED, self) => (rt, RETURNED, set_at self oldSize value)
  end.

Definition resize (rt : Runtime) (self : t) (newSize : Z)
  : Runtime * ExecutionStatus * t :=
  if size self <? newSize then
    growRight rt self (wrap32 (newSize - size self))
  else if newSize <? size self then
    (rt, RETURNED, shrinkRight self (wrap32 (size self - newSize)))
  else (rt, RETURNED, self).

Definition resizeLeft (rt : Runtime) (self : t) (newSize : Z)
  : Runtime * ExecutionStatus * t :=
  if newSize =? size self then (rt, RETURNED, self)
  else if size self <? newSize then
    growLeft rt self (wrap32 (newSize - size self))
  else (rt, RETURNED, shrinkLeft self (wrap32 (size self - newSize))).

Definition resizeWithinCapacity_assert (self : t) (newSize : Z) : Prop :=
  newSize <= capacity self.

Definition resizeWithinCapacity (rt : Runtime) (self : t) (newSize : Z)
  : Runtime * t :=
  let currSize := size self in
  if currSize <? newSize then
    growRightWithinCapacity rt self (wrap32 (newSize - currSize))
  else if newSize <? currSize then
    (rt, shrinkRight self (wrap32 (currSize - newSize)))
  else (rt, self).

(** [create(runtime, capacity, size)]: [create(runtime, capacity)], and
    on success [increaseSize<true>] by [size]. *)
Definition create_with_size (rt : Runtime) (capacity size : Z)
  : Runtime * option t :=
  match create rt capacity with
  | (rt, None) => (rt, None)
  | (rt, Some self) =>
      let '(rt, self) := increaseSize true rt self size in
      (rt, Some self)
  end.

(** [_trimCallback]: [self->slotCapacity_ = self->numSlotsUsed_]. *)
Definition _trimCallback (self : t) : t :=
  mk (numSlotsUsed_ self) (numSlotsUsed_ self) (slots self).

(** A run of [push_back] calls on one handle, one call per value, that
    ends at the first exception. *)
Fixpoint push_back_all (rt : Runtime) (self : t) (values : list HermesValue)
  : Runtime * ExecutionStatus * t :=
  match values with
  | [] => (rt, RETURNED, self)
  | value :: values =>
      match push_back rt self value with
      | (rt, EXCEPTION, self) => (rt, EXCEPTION, self)
      | (rt, RETURNED, self) => push_back_all rt self values
      end
  end.

(** *** Representation invariant *)

Definition len (l : list HermesValue) : Z := Z.of_nat (length l).

(** Segment [n] of a well-formed array is allocated, owns a payload of
    [kMaxLength] values, and is full unless it is the last one in use. *)
Definition segment_ok (self : t) (n : Z) : Prop :=
  exists seg,
    segmentAtPossiblyUnallocated self n = SegmentValue seg /\
    len (data_ seg) = kMaxLength /\
    if decide (kValueToSegmentThreshold + n + 1 < numSlotsUsed_ self)
    then length_ seg = kMaxLength
    else 1 <= length_ seg <= kMaxLength.

(** The used slots lie inside the storage, the size is a [size_type]
    value, and every used slot past the inline prefix is a segment. *)
Definition wf (self : t) : Prop :=
  0 <= numSlotsUsed_ self <= slotCapacity_ self /\
  len (slots self) = slotCapacity_ self /\
  size self < 2 ^ 32 /\
  forall n, 0 <= n ->
            kValueToSegmentThreshold + n < numSlotsUsed_ self ->
            segment_ok self n.

(** *** Auxiliary definitions for the proofs *)

(** What every element-wise loop keeps: invariant, size and slot
    counts. *)
Definition same_shape (s s' : t) : Prop :=
  wf s' /\ size s' = size s /\
  numSlotsUsed_ s' = numSlotsUsed_ s /\
  slotCapacity_ s' = slotCapacity_ s.

(** The payload of a segment fresh from [Segment::create]. *)
Definition freshSegment : Segment :=
  mkSegment 0 (uninitialized <$> seqZ 0 L).

(** The length given to segment [i] by the last loop. *)
Definition lengthOf (finalSize i : Z) : Z :=
  if i =? toSegment (finalSize - 1) then toInterior (finalSize - 1) + 1
  else L.

Definition setLengthAs (Fill : bool) (seg : Segment) (n : Z) : Segment :=
  if Fill then setLength seg n else setLengthWithoutFilling seg n.

(** The first segment the growth touches, and the segment found in slot
    [n] before the lengths are set: the old last segment for the first
    one when the array already used segments, a fresh one otherwise. *)
Definition startSegmentOf (self : t) : Z :=
  if size self <=? T then 0 else numSlotsUsed_ self - T - 1.

Definition baseSegment (self : t) (n : Z) : Segment :=
  if decide (n = startSegmentOf self) then
    if size self <=? T then freshSegment
    else segmentAt self (startSegmentOf self)
  else freshSegment.

(** *** Loops over index ranges *)

(** A loop [for (k = m; k < m + n; ++k) acc = f(acc, k)] keeps an
    invariant indexed by the loop counter. *)
Lemma foldl_seqZ_inv {A : Type} (f : A -> Z -> A) (P : Z -> A -> Prop)
      (m n : Z) (a : A) :
  0 <= n -> P m a ->
  (forall k acc, m <= k < m + n -> P k acc -> P (k + 1) (f acc k)) ->
  P (m + n) (foldl f a (seqZ m n)).
Proof.
  intros Hn H0 Hstep.
  rewrite <- (Z2Nat.id n Hn) in Hstep |- *.
  induction (Z.to_nat n) as [| j IH].
  - simpl. rewrite Z.add_0_r. exact H0.
  - rewrite seqZ_S, foldl_snoc.
    replace (m + Z.of_nat (S j)) with (m + Z.of_nat j + 1) by lia.
    apply Hstep; [lia |]. apply IH.
    intros k acc Hk. apply Hstep. lia.
Qed.

Lemma foldl_seqZ_empty {A : Type} (f : A -> Z -> A) (m n : Z) (a : A) :
  n <= 0 -> foldl f a (seqZ m n) = a.
Proof. intros Hn. rewrite seqZ_nil by exact Hn. reflexivity. Qed.

(** *** Raw storage: [load], [store], [fill], [copy] *)

Lemma len_nonneg (l : list HermesValue) : 0 <= len l.
Proof. unfold len. lia. Qed.

Lemma len_store (l : list HermesValue) (i : Z) (v : HermesValue) :
  len (store l i v) = len l.
Proof. unfold len, store. rewrite length_insert. reflexivity. Qed.

Lemma load_store_eq (l : list HermesValue) (i : Z) (v : HermesValue) :
  0 <= i < len l -> load (store l i v) i = v.
Proof.
  intros Hi. unfold load, store, len in *.
  rewrite list_lookup_insert_eq by lia. reflexivity.
Qed.

Lemma load_store_ne (l : list HermesValue) (i j : Z) (v : HermesValue) :
  0 <= i -> 0 <= j -> i <> j -> load (store l i v) j = load l j.
Proof.
  intros Hi Hj Hne. unfold load, store.
  rewrite list_lookup_insert_ne by lia. reflexivity.
Qed.

Lemma load_store (l : list HermesValue) (i j : Z) (v : HermesValue) :
  0 <= i < len l -> 0 <= j ->
  load (store l i v) j = if decide (i = j) then v else load l j.
Proof.
  intros Hi Hj. destruct (decide (i = j)) as [<- | Hne].
  - apply load_store_eq, Hi.
  - apply load_store_ne; lia.
Qed.

Lemma fill_spec (l : list HermesValue) (first last : Z) (v : HermesValue) :
  0 <= first -> last <= len l ->
  len (fill l first last v) = len l /\
  forall k, 0 <= k ->
    load (fill l first last v) k =
    if decide (first <= k < last) then v else load l k.
Proof.
  intros Hf Hl. unfold fill.
  destruct (decide (last - first <= 0)) as [Hle | Hgt].
  { rewrite foldl_seqZ_empty by exact Hle. split; [reflexivity |].
    intros k Hk. rewrite decide_False by lia. reflexivity. }
  pose proof (foldl_seqZ_inv (fun acc i => store acc i v)
    (fun j acc => len acc = len l /\
       forall k, 0 <= k ->
         load acc k = if decide (first <= k < j) then v else load l k)
    first (last - first) l ltac:(lia)) as H.
  replace (first + (last - first)) with last in H by lia.
  apply H.
  - split; [reflexivity |]. intros k Hk.
    rewrite decide_False by lia. reflexivity.
  - intros j acc Hj [Hlen Hacc]. split.
    + rewrite len_store. exact Hlen.
    + intros k Hk. rewrite load_store by lia. rewrite Hacc by exact Hk.
      repeat case_decide; (reflexivity || lia).
Qed.

Lemma copy_spec (src dst : list HermesValue) (n : Z) :
  n <= len dst ->
  len (copy src n dst) = len dst /\
  forall k, 0 <= k ->
    load (copy src n dst) k =
    if decide (k < n) then load src k else load dst k.
Proof.
  intros Hn. unfold copy.
  destruct (decide (n <= 0)) as [Hle | Hgt].
  { rewrite foldl_seqZ_empty by exact Hle. split; [reflexivity |].
    intros k Hk. rewrite decide_False by lia. reflexivity. }
  pose proof (foldl_seqZ_inv (fun acc i => store acc i (load src i))
    (fun j acc => len acc = len dst /\
       forall k, 0 <= k ->
         load acc k = if decide (k < j) then load src k else load dst k)
    0 n dst ltac:(lia)) as H.
  rewrite Z.add_0_l in H. apply H.
  - split; [reflexivity |]. intros k Hk.
    rewrite decide_False by lia. reflexivity.
  - intros j acc Hj [Hlen Hacc]. split.
    + rewrite len_store. exact Hlen.
    + intros k Hk. rewrite load_store by lia. rewrite Hacc by exact Hk.
      repeat case_decide; subst; (reflexivity || lia).
Qed.

Lemma load_fmap_seqZ (f : Z -> HermesValue) (n k : Z) :
  0 <= k < n -> load (f <$> seqZ 0 n) k = f k.
Proof.
  intros Hk. unfold load.
  rewrite list_lookup_fmap, lookup_seqZ_lt by lia. simpl.
  f_equal. lia.
Qed.

Lemma len_fmap_seqZ (f : Z -> HermesValue) (n : Z) :
  0 <= n -> len (f <$> seqZ 0 n) = n.
Proof. intros Hn. unfold len. rewrite length_fmap, length_seqZ. lia. Qed.

(** *** Index arithmetic *)

Hypothesis threshold_nonneg : 0 <= kValueToSegmentThreshold.
Hypothesis kMaxLength_pos : 0 < kMaxLength.

Lemma wrap32_small (z : Z) : 0 <= z < 2 ^ 32 -> wrap32 z = z.
Proof. intros H. apply Z.mod_small, H. Qed.

Lemma toSegment_eq (i : Z) :
  T <= i < 2 ^ 32 -> toSegment i = (i - T) / L.
Proof.
  intros Hi. unfold toSegment. rewrite wrap32_small by lia. reflexivity.
Qed.

Lemma toInterior_eq (i : Z) :
  T <= i < 2 ^ 32 -> toInterior i = (i - T) mod L.
Proof.
  intros Hi. unfold toInterior. rewrite wrap32_small by lia. reflexivity.
Qed.

(** An element index past the inline prefix splits into a segment
    number and an offset inside the segment. *)
Lemma index_split (i : Z) :
  T <= i < 2 ^ 32 ->
  0 <= toSegment i /\ 0 <= toInterior i < L /\
  i = T + toSegment i * L + toInterior i.
Proof.
  intros Hi. rewrite toSegment_eq, toInterior_eq by exact Hi.
  pose proof (Z.div_mod (i - T) L ltac:(lia)) as Hdm.
  pose proof (Z.mod_pos_bound (i - T) L kMaxLength_pos) as Hm.
  pose proof (Z.div_pos (i - T) L ltac:(lia) kMaxLength_pos) as Hd.
  split; [exact Hd |]. split; [exact Hm |]. lia.
Qed.

Lemma index_unsplit (n r : Z) :
  0 <= n -> 0 <= r < L -> T + n * L + r < 2 ^ 32 ->
  toSegment (T + n * L + r) = n /\ toInterior (T + n * L + r) = r.
Proof.
  intros Hn Hr Hb.
  rewrite toSegment_eq, toInterior_eq by nia.
  replace (T + n * L + r - T) with (r + n * L) by lia.
  rewrite Z.div_add, Z.mod_add by lia.
  rewrite Z.div_small, Z.mod_small by lia. lia.
Qed.

Lemma numSlotsForCapacity_inline (c : Z) :
  c <= T -> numSlotsForCapacity c = c.
Proof.
  intros Hc. unfold numSlotsForCapacity.
  destruct (Z.leb_spec c T); [reflexivity | lia].
Qed.

Lemma numSlotsForCapacity_segments (c : Z) :
  T < c < 2 ^ 32 ->
  numSlotsForCapacity c = T + toSegment (c - 1) + 1.
Proof.
  intros Hc. unfold numSlotsForCapacity.
  destruct (Z.leb_spec c T); [lia |].
  rewrite (wrap32_small (c - 1)) by lia.
  destruct (index_split (c - 1) ltac:(lia)) as (Hs & Hr & Heq).
  assert (toSegment (c - 1) < c - T) by nia.
  rewrite (wrap32_small (toSegment (c - 1) + 1)) by lia.
  rewrite wrap32_small by lia. lia.
Qed.

(** *** Elements of a well-formed array *)

Lemma segmentAt_of (self : t) (n : Z) (seg : Segment) :
  segmentAtPossiblyUnallocated self n = SegmentValue seg ->
  segmentAt self n = seg.
Proof. unfold segmentAt. intros ->. reflexivity. Qed.

Lemma size_inline (self : t) :
  numSlotsUsed_ self <= T -> size self = numSlotsUsed_ self.
Proof.
  intros H. unfold size. destruct (Z.leb_spec (numSlotsUsed_ self) T);
    [reflexivity | lia].
Qed.

Lemma size_segments (self : t) :
  T < numSlotsUsed_ self ->
  size self = T + (numSlotsUsed_ self - T - 1) * L
              + length_ (segmentAt self (numSlotsUsed_ self - T - 1)).
Proof.
  intros H. unfold size. destruct (Z.leb_spec (numSlotsUsed_ self) T);
    [lia |].
  replace (numSlotsUsed_ self - T - 1) with (numSlotsUsed_ self - T - 1)
    by lia.
  reflexivity.
Qed.

(** The last segment in use determines the size. *)
Lemma wf_last_segment (self : t) :
  wf self -> T < numSlotsUsed_ self ->
  exists seg,
    segmentAtPossiblyUnallocated self (numSlotsUsed_ self - T - 1)
    = SegmentValue seg /\
    len (data_ seg) = L /\ 1 <= length_ seg <= L /\
    size self = T + (numSlotsUsed_ self - T - 1) * L + length_ seg.
Proof.
  intros (_ & _ & _ & Hseg) Hlt.
  destruct (Hseg (numSlotsUsed_ self - T - 1) ltac:(lia) ltac:(lia))
    as (seg & Hs & Hd & Hl).
  rewrite decide_False in Hl by lia.
  exists seg. repeat split; try assumption; try lia.
  rewrite size_segments by exact Hlt.
  rewrite (segmentAt_of _ _ _ Hs). reflexivity.
Qed.

Lemma wf_size_inline_iff (self : t) :
  wf self -> (size self <= T <-> numSlotsUsed_ self <= T).
Proof.
  intros Hwf. split; intros H.
  - destruct (Z.le_gt_cases (numSlotsUsed_ self) T) as [Hle | Hgt];
      [exact Hle |].
    destruct (wf_last_segment self Hwf Hgt) as (seg & _ & _ & Hl & Hsz).
    nia.
  - rewrite size_inline by exact H. exact H.
Qed.

Lemma wf_size_nonneg (self : t) : wf self -> 0 <= size self.
Proof.
  intros Hwf. destruct (Z.le_gt_cases (numSlotsUsed_ self) T) as [Hle | Hgt].
  - rewrite size_inline by exact Hle. destruct Hwf as ((H & _) & _). exact H.
  - destruct (wf_last_segment self Hwf Hgt) as (seg & _ & _ & Hl & Hsz).
    nia.
Qed.

Lemma wf_size_le_capacity (self : t) : wf self -> size self <= capacity self.
Proof.
  intros Hwf. pose proof Hwf as ((H0 & Hcap) & _).
  unfold capacity.
  destruct (Z.le_gt_cases (numSlotsUsed_ self) T) as [Hle | Hgt].
  - rewrite size_inline by exact Hle.
    destruct (Z.leb_spec (slotCapacity_ self) T); nia.
  - destruct (wf_last_segment self Hwf Hgt) as (seg & _ & _ & Hl & Hsz).
    destruct (Z.leb_spec (slotCapacity_ self) T); nia.
Qed.

(** An element index in range past the inline prefix lands in an
    allocated segment, inside its declared length. *)
Lemma wf_index (self : t) (i : Z) :
  wf self -> T <= i < size self ->
  0 <= toSegment i /\ T + toSegment i < numSlotsUsed_ self /\
  0 <= toInterior i < L /\
  exists seg,
    segmentAtPossiblyUnallocated self (toSegment i) = SegmentValue seg /\
    len (data_ seg) = L /\ toInterior i < length_ seg <= L.
Proof.
  intros Hwf Hi. pose proof Hwf as (_ & _ & H32 & Hseg).
  destruct (index_split i ltac:(lia)) as (Hs & Hr & Heq).
  assert (T < numSlotsUsed_ self) as Hgt.
  { destruct (Z.le_gt_cases (numSlotsUsed_ self) T) as [Hle | Hgt];
      [| exact Hgt].
    rewrite size_inline in Hi by exact Hle. lia. }
  destruct (wf_last_segment self Hwf Hgt) as (lseg & Hls & Hld & Hll & Hsz).
  assert (T + toSegment i < numSlotsUsed_ self) as Hin by nia.
  split; [exact Hs |]. split; [exact Hin |]. split; [exact Hr |].
  destruct (Hseg (toSegment i) Hs Hin) as (seg & Hsg & Hd & Hl).
  exists seg. split; [exact Hsg |]. split; [exact Hd |].
  case_decide; [lia |].
  assert (toSegment i = numSlotsUsed_ self - T - 1) as Hlast by lia.
  rewrite Hlast in Hsg. rewrite Hsg in Hls. injection Hls as <-.
  nia.
Qed.

(** Changing elements only, segment by segment, keeps the invariant and
    the size. *)
Lemma wf_transfer (s s' : t) :
  wf s ->
  numSlotsUsed_ s' = numSlotsUsed_ s ->
  slotCapacity_ s' = slotCapacity_ s ->
  len (slots s') = len (slots s) ->
  (forall n seg, 0 <= n -> T + n < numSlotsUsed_ s ->
     segmentAtPossiblyUnallocated s n = SegmentValue seg ->
     exists seg',
       segmentAtPossiblyUnallocated s' n = SegmentValue seg' /\
       length_ seg' = length_ seg /\
       len (data_ seg') = len (data_ seg)) ->
  wf s' /\ size s' = size s.
Proof.
  intros Hwf Hn Hc Hlen Hsegs.
  assert (size s' = size s) as Hsize.
  { destruct (Z.le_gt_cases (numSlotsUsed_ s) T) as [Hle | Hgt].
    - rewrite !size_inline by lia. exact Hn.
    - rewrite !size_segments by lia. rewrite Hn.
      destruct (wf_last_segment s Hwf Hgt) as (seg & Hs & _).
      destruct (Hsegs (numSlotsUsed_ s - T - 1) seg ltac:(lia) ltac:(lia) Hs)
        as (seg' & Hs' & Hl & _).
      rewrite (segmentAt_of _ _ _ Hs), (segmentAt_of _ _ _ Hs'), Hl.
      reflexivity. }
  split; [| exact Hsize].
  destruct Hwf as (Hb & Hl & H32 & Hseg).
  split; [lia |]. split; [lia |]. split; [lia |].
  intros n Hn0 Hlt. rewrite Hn in Hlt.
  destruct (Hseg n Hn0 Hlt) as (seg & Hs & Hd & Hlen').
  destruct (Hsegs _ _ Hn0 Hlt Hs) as (seg' & Hs' & Hl' & Hd').
  exists seg'. split; [exact Hs' |]. split; [lia |].
  rewrite Hn, Hl'. exact Hlen'.
Qed.

(** Writing an element in range: the written element reads back, every
    other element is untouched, and size and invariant are kept. *)
Lemma set_at_spec (self : t) (i : Z) (v : HermesValue) :
  wf self -> 0 <= i < size self ->
  wf (set_at self i v) /\
  size (set_at self i v) = size self /\
  numSlotsUsed_ (set_at self i v) = numSlotsUsed_ self /\
  slotCapacity_ (set_at self i v) = slotCapacity_ self /\
  at_ (set_at self i v) i = v /\
  forall j, 0 <= j < 2 ^ 32 -> j <> i ->
            at_ (set_at self i v) j = at_ self j.
Proof.
  intros Hwf Hi. pose proof Hwf as (Hb & Hlen & H32 & Hseg).
  pose proof (wf_size_le_capacity self Hwf) as Hcap.
  unfold set_at. destruct (Z.ltb_spec i T) as [Hin | Hout].
  - (* inline element *)
    assert (i < len (slots self)) as Hil.
    { destruct (Z.le_gt_cases (numSlotsUsed_ self) T) as [Hle | Hgt].
      - rewrite size_inline in Hi by exact Hle. lia.
      - lia. }
    assert (forall n, 0 <= n ->
              segmentAtPossiblyUnallocated
                (mk (slotCapacity_ self) (numSlotsUsed_ self)
                    (store (slots self) i v)) n
              = segmentAtPossiblyUnallocated self n) as Hsame.
    { intros n Hn. unfold segmentAtPossiblyUnallocated; simpl.
      apply load_store_ne; lia. }
    destruct (wf_transfer self
                (mk (slotCapacity_ self) (numSlotsUsed_ self)
                    (store (slots self) i v)) Hwf eq_refl eq_refl)
      as [Hwf' Hsz'].
    { simpl. apply len_store. }
    { intros n seg Hn _ Hs. exists seg. rewrite Hsame by exact Hn.
      repeat split; assumption || reflexivity. }
    split; [exact Hwf' |]. split; [exact Hsz' |].
    split; [reflexivity |]. split; [reflexivity |]. split.
    + unfold at_. destruct (Z.ltb_spec i T); [| lia]. simpl.
      apply load_store_eq. lia.
    + intros j Hj Hne. unfold at_.
      destruct (Z.ltb_spec j T) as [Hjin | Hjout].
      * simpl. apply load_store_ne; lia.
      * unfold segmentAt.
        destruct (index_split j ltac:(lia)) as (Hs & _).
        rewrite Hsame by exact Hs. reflexivity.
  - (* element of a segment *)
    destruct (wf_index self i Hwf ltac:(lia))
      as (Hs0 & Hsin & Hr & seg & Hsg & Hd & Hl).
    destruct (index_split i ltac:(lia)) as (_ & _ & Hieq).
    unfold updateSegment. rewrite (segmentAt_of _ _ _ Hsg).
    set (seg' := mkSegment (length_ seg)
                   (store (data_ seg) (toInterior i) v)).
    set (self' := mk (slotCapacity_ self) (numSlotsUsed_ self)
                     (store (slots self) (T + toSegment i)
                            (SegmentValue seg'))).
    assert (forall n, 0 <= n ->
              segmentAtPossiblyUnallocated self' n
              = if decide (toSegment i = n) then SegmentValue seg'
                else segmentAtPossiblyUnallocated self n) as Hupd.
    { intros n Hn. unfold segmentAtPossiblyUnallocated, self'; simpl.
      rewrite load_store by lia.
      repeat case_decide; (reflexivity || lia). }
    destruct (wf_transfer self self' Hwf eq_refl eq_refl) as [Hwf' Hsz'].
    { unfold self'; simpl. apply len_store. }
    { intros n sg Hn _ Hs. rewrite Hupd by exact Hn.
      case_decide as Heq.
      - subst n. rewrite Hsg in Hs. injection Hs as <-.
        exists seg'. split; [reflexivity |]. split; [reflexivity |].
        unfold seg'; simpl. apply len_store.
      - exists sg. repeat split; assumption || reflexivity. }
    split; [exact Hwf' |]. split; [exact Hsz' |].
    split; [reflexivity |]. split; [reflexivity |]. split.
    + unfold at_. destruct (Z.ltb_spec i T); [lia |].
      unfold segmentAt. rewrite Hupd by exact Hs0.
      rewrite decide_True by reflexivity. unfold seg'; simpl.
      apply load_store_eq. lia.
    + intros j Hj Hne. unfold at_.
      destruct (Z.ltb_spec j T) as [Hjin | Hjout].
      * unfold self'; simpl. apply load_store_ne; lia.
      * destruct (index_split j ltac:(lia)) as (Hjs & Hjr & Hjeq).
        unfold segmentAt. rewrite Hupd by exact Hjs.
        case_decide as Heq; [| reflexivity].
        rewrite <- Heq, Hsg. unfold seg'; simpl.
        apply load_store_ne; lia.
Qed.

(** *** Element ranges: fill and copy *)

Lemma same_shape_refl (s : t) : wf s -> same_shape s s.
Proof. intros H. split; [exact H |]. repeat split. Qed.

Lemma same_shape_set_at (s acc : t) (i : Z) (v : HermesValue) :
  same_shape s acc -> 0 <= i < size s -> same_shape s (set_at acc i v).
Proof.
  intros (Hwf & Hsz & Hn & Hc) Hi.
  destruct (set_at_spec acc i v Hwf ltac:(lia))
    as (Hwf' & Hsz' & Hn' & Hc' & _).
  split; [exact Hwf' |]. split; [congruence |]. split; congruence.
Qed.

Lemma fillElements_spec (s : t) (first last : Z) (v : HermesValue) :
  wf s -> 0 <= first -> last <= size s ->
  same_shape s (fillElements s first last v) /\
  forall k, 0 <= k < 2 ^ 32 ->
    at_ (fillElements s first last v) k =
    if decide (first <= k < last) then v else at_ s k.
Proof.
  intros Hwf Hf Hl. pose proof Hwf as (_ & _ & H32 & _).
  unfold fillElements.
  destruct (decide (last - first <= 0)) as [Hle | Hgt].
  { rewrite foldl_seqZ_empty by exact Hle.
    split; [apply same_shape_refl, Hwf |].
    intros k Hk. rewrite decide_False by lia. reflexivity. }
  pose proof (foldl_seqZ_inv (fun acc i => set_at acc i v)
    (fun j acc => same_shape s acc /\
       forall k, 0 <= k < 2 ^ 32 ->
         at_ acc k = if decide (first <= k < j) then v else at_ s k)
    first (last - first) s ltac:(lia)) as H.
  replace (first + (last - first)) with last in H by lia.
  apply H.
  - split; [apply same_shape_refl, Hwf |].
    intros k Hk. rewrite decide_False by lia. reflexivity.
  - intros j acc Hj [Hsh Hacc]. split.
    + apply same_shape_set_at; [exact Hsh | lia].
    + destruct Hsh as (Hwf' & Hsz' & _).
      destruct (set_at_spec acc j v Hwf' ltac:(lia))
        as (_ & _ & _ & _ & Heq & Hne).
      intros k Hk. destruct (decide (k = j)) as [-> | Hkj].
      * rewrite Heq, decide_True by lia. reflexivity.
      * rewrite Hne, Hacc by lia.
        repeat case_decide; (reflexivity || lia).
Qed.

Lemma copyElements_spec (src dst : t) (first last dfirst : Z) :
  wf dst -> 0 <= dfirst -> dfirst + (last - first) <= size dst ->
  same_shape dst (copyElements src first last dst dfirst) /\
  forall k, 0 <= k < 2 ^ 32 ->
    at_ (copyElements src first last dst dfirst) k =
    if decide (dfirst <= k < dfirst + (last - first))
    then at_ src (first + (k - dfirst))
    else at_ dst k.
Proof.
  intros Hwf Hd Hl. pose proof Hwf as (_ & _ & H32 & _).
  unfold copyElements.
  destruct (decide (last - first <= 0)) as [Hle | Hgt].
  { rewrite foldl_seqZ_empty by exact Hle.
    split; [apply same_shape_refl, Hwf |].
    intros k Hk. rewrite decide_False by lia. reflexivity. }
  pose proof (foldl_seqZ_inv
    (fun acc k => set_at acc (dfirst + k) (at_ src (first + k)))
    (fun j acc => same_shape dst acc /\
       forall k, 0 <= k < 2 ^ 32 ->
         at_ acc k = if decide (dfirst <= k < dfirst + j)
                     then at_ src (first + (k - dfirst))
                     else at_ dst k)
    0 (last - first) dst ltac:(lia)) as H.
  rewrite Z.add_0_l in H. apply H.
  - split; [apply same_shape_refl, Hwf |].
    intros k Hk. rewrite decide_False by lia. reflexivity.
  - intros j acc Hj [Hsh Hacc]. split.
    + apply same_shape_set_at; [exact Hsh | lia].
    + destruct Hsh as (Hwf' & Hsz' & _).
      destruct (set_at_spec acc (dfirst + j) (at_ src (first + j)) Hwf'
                  ltac:(lia)) as (_ & _ & _ & _ & Heq & Hne).
      intros k Hk. destruct (decide (k = dfirst + j)) as [-> | Hkj].
      * rewrite Heq, decide_True by lia. f_equal. lia.
      * rewrite Hne, Hacc by lia.
        repeat case_decide; (reflexivity || lia).
Qed.

(** The backward copy of [first, last) to the range ending at [dlast],
    with [last <= dlast]: every read sees an element that has not been
    overwritten yet. *)
Lemma copyBackwardWithin_spec (s : t) (first last dlast : Z) :
  wf s -> 0 <= first -> last <= dlast -> dlast <= size s ->
  same_shape s (copyBackwardWithin s first last dlast) /\
  forall k, 0 <= k < 2 ^ 32 ->
    at_ (copyBackwardWithin s first last dlast) k =
    if decide (dlast - (last - first) <= k < dlast)
    then at_ s (k - (dlast - last))
    else at_ s k.
Proof.
  intros Hwf Hf Hl Hd. pose proof Hwf as (_ & _ & H32 & _).
  unfold copyBackwardWithin.
  destruct (decide (last - first <= 0)) as [Hle | Hgt].
  { rewrite foldl_seqZ_empty by exact Hle.
    split; [apply same_shape_refl, Hwf |].
    intros k Hk. rewrite decide_False by lia. reflexivity. }
  pose proof (foldl_seqZ_inv
    (fun acc k => set_at acc (dlast - k) (at_ acc (last - k)))
    (fun j acc => same_shape s acc /\
       forall k, 0 <= k < 2 ^ 32 ->
         at_ acc k = if decide (dlast - (j - 1) <= k < dlast)
                     then at_ s (k - (dlast - last))
                     else at_ s k)
    1 (last - first) s ltac:(lia)) as H.
  cbv beta in H.
  replace (1 + (last - first) - 1) with (last - first) in H by lia.
  apply H.
  - split; [apply same_shape_refl, Hwf |].
    intros k Hk. rewrite decide_False by lia. reflexivity.
  - intros j acc Hj [Hsh Hacc]. split.
    + apply same_shape_set_at; [exact Hsh | lia].
    + destruct Hsh as (Hwf' & Hsz' & _).
      destruct (set_at_spec acc (dlast - j) (at_ acc (last - j)) Hwf'
                  ltac:(lia)) as (_ & _ & _ & _ & Heq & Hne).
      intros k Hk. destruct (decide (k = dlast - j)) as [-> | Hkj].
      * rewrite Heq, Hacc by lia.
        rewrite decide_False, decide_True by lia. f_equal. lia.
      * rewrite Hne, Hacc by lia.
        repeat case_decide; (reflexivity || lia).
Qed.

(** The forward copy of [first, last) down to [dfirst <= first]. *)
Lemma copyWithin_spec (s : t) (first last dfirst : Z) :
  wf s -> 0 <= dfirst <= first -> last <= size s ->
  same_shape s (copyWithin s first last dfirst) /\
  forall k, 0 <= k < 2 ^ 32 ->
    at_ (copyWithin s first last dfirst) k =
    if decide (dfirst <= k < dfirst + (last - first))
    then at_ s (k + (first - dfirst))
    else at_ s k.
Proof.
  intros Hwf Hf Hl. pose proof Hwf as (_ & _ & H32 & _).
  unfold copyWithin.
  destruct (decide (last - first <= 0)) as [Hle | Hgt].
  { rewrite foldl_seqZ_empty by exact Hle.
    split; [apply same_shape_refl, Hwf |].
    intros k Hk. rewrite decide_False by lia. reflexivity. }
  pose proof (foldl_seqZ_inv
    (fun acc k => set_at acc (dfirst + k) (at_ acc (first + k)))
    (fun j acc => same_shape s acc /\
       forall k, 0 <= k < 2 ^ 32 ->
         at_ acc k = if decide (dfirst <= k < dfirst + j)
                     then at_ s (k + (first - dfirst))
                     else at_ s k)
    0 (last - first) s ltac:(lia)) as H.
  rewrite Z.add_0_l in H. apply H.
  - split; [apply same_shape_refl, Hwf |].
    intros k Hk. rewrite decide_False by lia. reflexivity.
  - intros j acc Hj [Hsh Hacc]. split.
    + apply same_shape_set_at; [exact Hsh | lia].
    + destruct Hsh as (Hwf' & Hsz' & _).
      destruct (set_at_spec acc (dfirst + j) (at_ acc (first + j)) Hwf'
                  ltac:(lia)) as (_ & _ & _ & _ & Heq & Hne).
      intros k Hk. destruct (decide (k = dfirst + j)) as [-> | Hkj].
      * rewrite Heq, Hacc by lia.
        rewrite decide_False, decide_True by lia. f_equal. lia.
      * rewrite Hne, Hacc by lia.
        repeat case_decide; (reflexivity || lia).
Qed.

(** *** The two segment loops of [increaseSize] *)

Lemma allocateSegment_eq (rt : Runtime) (self : t) (n : Z) :
  allocateSegment rt self n =
  (mkRuntime (arraysAllocated rt) (segmentsAllocated rt + 1)
             (thrownValue_ rt),
   mk (slotCapacity_ self) (numSlotsUsed_ self)
      (store (slots self) (T + n) (SegmentValue freshSegment))).
Proof. reflexivity. Qed.

(** [for (i = a; i < a + n; ++i) allocateSegment(runtime, self, i)]. *)
Lemma allocate_loop_spec (rt : Runtime) (self : t) (a n : Z) :
  0 <= a -> 0 <= n -> T + a + n <= len (slots self) ->
  forall rt' self',
    foldl (fun '(rt, self) i => allocateSegment rt self i) (rt, self)
          (seqZ a n) = (rt', self') ->
    numSlotsUsed_ self' = numSlotsUsed_ self /\
    slotCapacity_ self' = slotCapacity_ self /\
    len (slots self') = len (slots self) /\
    arraysAllocated rt' = arraysAllocated rt /\
    thrownValue_ rt' = thrownValue_ rt /\
    forall j, 0 <= j ->
      load (slots self') j =
      if decide (T + a <= j < T + a + n) then SegmentValue freshSegment
      else load (slots self) j.
Proof.
  intros Ha Hn Hlen rt' self' Heq.
  pose proof (foldl_seqZ_inv
    (fun '(rt, self) i => allocateSegment rt self i)
    (fun k (p : Runtime * t) =>
       numSlotsUsed_ (snd p) = numSlotsUsed_ self /\
       slotCapacity_ (snd p) = slotCapacity_ self /\
       len (slots (snd p)) = len (slots self) /\
       arraysAllocated (fst p) = arraysAllocated rt /\
       thrownValue_ (fst p) = thrownValue_ rt /\
       forall j, 0 <= j ->
         load (slots (snd p)) j =
         if decide (T + a <= j < T + k) then SegmentValue freshSegment
         else load (slots self) j)
    a n (rt, self) Hn) as H.
  rewrite Heq in H. simpl in H.
  replace (T + (a + n)) with (T + a + n) in H by lia.
  apply H.
  - repeat split. intros j Hj. rewrite decide_False by lia. reflexivity.
  - intros k [rt1 s1] Hk (H1 & H2 & H3 & H4 & H5 & H6); simpl in *.
    repeat split; try assumption.
    + rewrite len_store. exact H3.
    + intros j Hj. rewrite load_store by lia. rewrite H6 by exact Hj.
      repeat case_decide; (reflexivity || lia).
Qed.

(** [for (i = a; i < a + n; ++i) segmentAt(i)->...] with the update [g i]
    of segment [i]. *)
Lemma update_loop_spec (self : t) (a n : Z) (g : Z -> Segment -> Segment) :
  0 <= a -> 0 <= n -> T + a + n <= len (slots self) ->
  let self' := foldl (fun self i => updateSegment self i (g i)) self
                     (seqZ a n) in
  numSlotsUsed_ self' = numSlotsUsed_ self /\
  slotCapacity_ self' = slotCapacity_ self /\
  len (slots self') = len (slots self) /\
  forall j, 0 <= j ->
    load (slots self') j =
    if decide (T + a <= j < T + a + n)
    then SegmentValue (g (j - T) (segmentAt self (j - T)))
    else load (slots self) j.
Proof.
  intros Ha Hn Hlen self'. subst self'.
  pose proof (foldl_seqZ_inv
    (fun self i => updateSegment self i (g i))
    (fun k acc =>
       numSlotsUsed_ acc = numSlotsUsed_ self /\
       slotCapacity_ acc = slotCapacity_ self /\
       len (slots acc) = len (slots self) /\
       forall j, 0 <= j ->
         load (slots acc) j =
         if decide (T + a <= j < T + k)
         then SegmentValue (g (j - T) (segmentAt self (j - T)))
         else load (slots self) j)
    a n self Hn) as H.
  cbv beta in H.
  replace (T + (a + n)) with (T + a + n) in H by lia.
  apply H.
  - repeat split. intros j Hj. rewrite decide_False by lia. reflexivity.
  - intros k acc Hk (H1 & H2 & H3 & H4).
    unfold updateSegment; simpl.
    repeat split; try assumption.
    + rewrite len_store. exact H3.
    + intros j Hj. rewrite load_store by lia. rewrite H4 by exact Hj.
      destruct (decide (T + k = j)) as [<- | Hne].
      * rewrite decide_True by lia.
        replace (T + k - T) with k by lia.
        unfold segmentAt, segmentAtPossiblyUnallocated.
        rewrite H4 by lia. rewrite decide_False by lia. reflexivity.
      * repeat case_decide; (reflexivity || lia).
Qed.

(** *** [increaseSize] *)

(** Both sizes inside the inline storage: bump and fill. *)
Lemma increaseSize_inline_eq (Fill : bool) (rt : Runtime) (self : t)
      (amount : Z) :
  0 <= size self -> 0 <= amount -> size self + amount <= T ->
  size self + amount < 2 ^ 32 ->
  increaseSize Fill rt self amount =
  (rt, mk (slotCapacity_ self) (size self + amount)
          (if Fill
           then fill (slots self) (size self) (size self + amount) EmptyValue
           else slots self)).
Proof.
  intros Hs Ha Hf H32. unfold increaseSize.
  rewrite wrap32_small by lia.
  destruct (Z.leb_spec (size self) T); [| lia].
  destruct (Z.leb_spec (size self + amount) T); [| lia].
  destruct Fill; reflexivity.
Qed.

(** The final size in the segments: the function unfolded, with the
    32-bit wrap-arounds resolved. *)
Lemma increaseSize_segments_eq (Fill : bool) (rt : Runtime) (self : t)
      (amount : Z) (s1 s2 : t) (start : Z) (p3 p4 : Runtime * t) :
  0 <= size self -> 0 <= amount -> T < size self + amount ->
  size self + amount < 2 ^ 32 ->
  0 <= start < 2 ^ 32 - 1 ->
  s1 = (if size self <=? T
        then set_numSlotsUsed
               (set_slots self (fill (slots self) (size self) T EmptyValue))
               T
        else self) ->
  start = (if size self <=? T then 0 else toSegment (size self - 1)) ->
  s2 = set_numSlotsUsed
         (set_slots s1
            (fill (slots s1) (numSlotsUsed_ s1)
                  (numSlotsForCapacity (size self + amount)) EmptyValue))
         (numSlotsForCapacity (size self + amount)) ->
  p3 = (if (start <=? toSegment (size self + amount - 1))
           && isEmpty (segmentAtPossiblyUnallocated s2 start)
        then allocateSegment rt s2 start else (rt, s2)) ->
  p4 = foldl (fun '(rt, self) i => allocateSegment rt self i) p3
             (seqZ (start + 1)
                   (toSegment (size self + amount - 1) - start)) ->
  increaseSize Fill rt self amount =
  (fst p4,
   foldl (fun acc i =>
            updateSegment acc i
              (fun seg =>
                 setLengthAs Fill seg (lengthOf (size self + amount) i)))
         (snd p4)
         (seqZ start (toSegment (size self + amount - 1) - start + 1))).
Proof.
  intros Hs Ha Hf H32 Hst -> Hstart -> -> ->. unfold increaseSize.
  rewrite (wrap32_small (size self + amount)) by lia.
  rewrite (wrap32_small (size self + amount - 1)) by lia.
  replace ((size self <=? T) && (size self + amount <=? T)) with false.
  2:{ symmetry. apply andb_false_iff. right. apply Z.leb_gt. lia. }
  cbv zeta.
  assert ((if size self <=? T then 0
           else toSegment (wrap32 (size self - 1))) = start) as ->.
  { rewrite Hstart. destruct (Z.leb_spec (size self) T); [reflexivity |].
    rewrite wrap32_small by lia. reflexivity. }
  rewrite (wrap32_small (start + 1)) by lia.
  rewrite (wrap32_small (toInterior (size self + amount - 1) + 1)).
  2:{ destruct (index_split (size self + amount - 1) ltac:(lia))
        as (? & ? & ?). nia. }
  match goal with
  | |- (let '(_, _) := ?P in _) = _ => destruct P as [rt0 self0]
  end.
  match goal with
  | |- (let '(_, _) := ?P in _) = _ => destruct P as [rt1 self1]
  end.
  reflexivity.
Qed.

(** The storage after a growth that ends in the segments. *)
Lemma increaseSize_segments_slots (Fill : bool) (rt : Runtime) (self : t)
      (amount : Z) (rt' : Runtime) (self' : t) :
  wf self -> 0 <= amount -> T < size self + amount ->
  size self + amount <= capacity self -> size self + amount < 2 ^ 32 ->
  increaseSize Fill rt self amount = (rt', self') ->
  0 <= startSegmentOf self <= toSegment (size self + amount - 1) /\
  arraysAllocated rt' = arraysAllocated rt /\
  thrownValue_ rt' = thrownValue_ rt /\
  numSlotsUsed_ self' = T + toSegment (size self + amount - 1) + 1 /\
  slotCapacity_ self' = slotCapacity_ self /\
  len (slots self') = len (slots self) /\
  T + toSegment (size self + amount - 1) + 1 <= slotCapacity_ self /\
  (forall j, 0 <= j < T ->
     load (slots self') j =
     if decide (size self <= j) then EmptyValue else load (slots self) j) /\
  (forall n, 0 <= n ->
     segmentAtPossiblyUnallocated self' n =
     if decide (startSegmentOf self <= n
                <= toSegment (size self + amount - 1))
     then SegmentValue
            (setLengthAs Fill (baseSegment self n)
                         (lengthOf (size self + amount) n))
     else segmentAtPossiblyUnallocated self n).
Proof.
  intros Hwf Ha Hf Hcap H32 Heq.
  pose proof Hwf as (Hb & Hlen & _ & Hseg).
  pose proof (wf_size_nonneg self Hwf) as Hc0.
  pose proof (wf_size_inline_iff self Hwf) as Hiff.
  set (c := size self) in *. set (f := c + amount) in *.
  destruct (index_split (f - 1) ltac:(lia)) as (Hl0 & Hrl & Hfeq).
  set (last := toSegment (f - 1)) in *.
  set (start := startSegmentOf self).
  (* the capacity leaves room for the slots of the segments *)
  assert (T + last + 1 <= slotCapacity_ self) as Hroom.
  { unfold capacity in Hcap.
    destruct (Z.leb_spec (slotCapacity_ self) T); [lia | nia]. }
  (* the first segment touched *)
  assert (0 <= start <= last /\
          start = (if c <=? T then 0 else toSegment (c - 1)) /\
          (T < c -> exists lseg,
              segmentAtPossiblyUnallocated self start = SegmentValue lseg /\
              numSlotsUsed_ self = T + start + 1 /\
              len (data_ lseg) = L /\ 1 <= length_ lseg <= L /\
              c = T + start * L + length_ lseg))
    as (Hst & Hstart & Hold).
  { unfold start, startSegmentOf. fold c.
    destruct (Z.leb_spec c T) as [Hin | Hout].
    - split; [lia |]. split; [reflexivity | lia].
    - assert (T < numSlotsUsed_ self) as Hgt by lia.
      destruct (wf_last_segment self Hwf Hgt)
        as (lseg & Hls & Hld & Hll & Hsz).
      fold c in Hsz.
      destruct (index_unsplit (numSlotsUsed_ self - T - 1)
                  (length_ lseg - 1) ltac:(lia) ltac:(lia) ltac:(lia))
        as [Hts _].
      replace (T + (numSlotsUsed_ self - T - 1) * L + (length_ lseg - 1))
        with (c - 1) in Hts by lia.
      split; [nia |]. split; [congruence |].
      intros _. exists lseg. repeat split; try assumption; lia. }
  set (s1 := if c <=? T
             then set_numSlotsUsed
                    (set_slots self (fill (slots self) c T EmptyValue)) T
             else self).
  set (newU := numSlotsForCapacity f).
  set (s2 := set_numSlotsUsed
               (set_slots s1 (fill (slots s1) (numSlotsUsed_ s1) newU
                                   EmptyValue)) newU).
  set (p3 := if (start <=? last)
                && isEmpty (segmentAtPossiblyUnallocated s2 start)
             then allocateSegment rt s2 start else (rt, s2)).
  set (p4 := foldl (fun '(rt, self) i => allocateSegment rt self i) p3
                   (seqZ (start + 1) (last - start))).
  assert (0 <= start < 2 ^ 32 - 1) as Hst32 by nia.
  rewrite (increaseSize_segments_eq Fill rt self amount s1 s2 start p3 p4)
    in Heq; try reflexivity; try lia; try exact Hstart.
  fold c f last in Heq. injection Heq as Hrt Hself.
  assert (newU = T + last + 1) as HnewU.
  { unfold newU. rewrite numSlotsForCapacity_segments by lia. reflexivity. }
  (* after topping off the inline storage *)
  assert (len (slots s1) = len (slots self) /\
          numSlotsUsed_ s1 = (if c <=? T then T else T + start + 1) /\
          forall j, 0 <= j ->
            load (slots s1) j =
            if decide (c <= j < T) then EmptyValue else load (slots self) j)
    as (Hlen1 & Hu1 & Hs1).
  { unfold s1. destruct (Z.leb_spec c T) as [Hin | Hout].
    - destruct (fill_spec (slots self) c T EmptyValue Hc0)
        as [Hfl Hfv]; [lia |].
      simpl. split; [exact Hfl |]. split; [reflexivity |]. exact Hfv.
    - destruct (Hold Hout) as (lseg & _ & Hu & _).
      split; [reflexivity |]. split; [exact Hu |].
      intros j Hj. rewrite decide_False by lia. reflexivity. }
  assert (T <= numSlotsUsed_ s1 <= newU) as Hu1b.
  { rewrite Hu1, HnewU. destruct (Z.leb_spec c T); lia. }
  (* after clearing the slots that become used *)
  destruct (fill_spec (slots s1) (numSlotsUsed_ s1) newU EmptyValue)
    as [Hlen2 Hs2]; [lia | lia |].
  change (fill (slots s1) (numSlotsUsed_ s1) newU EmptyValue)
    with (slots s2) in Hlen2, Hs2.
  (* after allocating the first segment, if it was not allocated *)
  assert (arraysAllocated (fst p3) = arraysAllocated rt /\
          thrownValue_ (fst p3) = thrownValue_ rt /\
          numSlotsUsed_ (snd p3) = newU /\
          slotCapacity_ (snd p3) = slotCapacity_ self /\
          len (slots (snd p3)) = len (slots self) /\
          forall j, 0 <= j ->
            load (slots (snd p3)) j =
            if decide (j = T + start)
            then SegmentValue (baseSegment self start)
            else load (slots s2) j)
    as (Ha3 & Ht3 & Hu3 & Hc3 & Hlen3 & Hs3).
  { assert (slotCapacity_ s2 = slotCapacity_ self) as Hc2.
    { unfold s2, s1. destruct (c <=? T); reflexivity. }
    assert (baseSegment self start
            = if c <=? T then freshSegment else segmentAt self start)
      as ->.
    { unfold baseSegment. fold start c.
      rewrite decide_True by reflexivity. reflexivity. }
    assert (numSlotsUsed_ s2 = newU) as Hu2 by reflexivity.
    assert ((start <=? last) = true) as Hle by (apply Z.leb_le; lia).
    unfold p3. rewrite Hle. cbn [andb].
    destruct (Z.leb_spec c T) as [Hin | Hout].
    - assert (segmentAtPossiblyUnallocated s2 start = EmptyValue) as ->.
      { unfold segmentAtPossiblyUnallocated. rewrite Hs2 by lia.
        rewrite Hu1. rewrite decide_True by lia. reflexivity. }
      cbn [isEmpty]. rewrite allocateSegment_eq.
      cbn [fst snd numSlotsUsed_ slotCapacity_ slots arraysAllocated
           thrownValue_].
      split; [reflexivity |]. split; [reflexivity |].
      split; [exact Hu2 |]. split; [exact Hc2 |].
      split; [rewrite len_store; lia |].
      intros j Hj. rewrite load_store by lia.
      repeat case_decide; (reflexivity || lia).
    - destruct (Hold Hout) as (lseg & Hls & Hu & _).
      assert (segmentAtPossiblyUnallocated s2 start = SegmentValue lseg)
        as Hls2.
      { unfold segmentAtPossiblyUnallocated. rewrite Hs2 by lia.
        rewrite Hu1. rewrite decide_False by lia.
        rewrite Hs1, decide_False by lia. exact Hls. }
      rewrite Hls2. cbn [isEmpty fst snd].
      split; [reflexivity |]. split; [reflexivity |].
      split; [exact Hu2 |]. split; [exact Hc2 |]. split; [lia |].
      intros j Hj. case_decide as Hj'; [| reflexivity].
      subst j. rewrite (segmentAt_of self start lseg Hls). exact Hls2. }
  (* after allocating the other segments *)
  destruct p4 as [rt4 s4] eqn:Hp4. unfold p4 in Hp4.
  destruct p3 as [rt3 s3]. simpl in Ha3, Ht3, Hu3, Hc3, Hlen3, Hs3.
  destruct (allocate_loop_spec rt3 s3 (start + 1) (last - start)
              ltac:(lia) ltac:(lia) ltac:(lia) rt4 s4 Hp4)
    as (Hu4 & Hc4 & Hlen4 & Ha4 & Ht4 & Hs4).
  (* after setting the lengths *)
  simpl in Hrt, Hself.
  destruct (update_loop_spec s4 start (last - start + 1)
              (fun i seg => setLengthAs Fill seg (lengthOf f i))
              ltac:(lia) ltac:(lia) ltac:(lia))
    as (Hu5 & Hc5 & Hlen5 & Hs5).
  rewrite Hself in Hu5, Hc5, Hlen5, Hs5. subst rt'.
  split; [lia |]. split; [congruence |]. split; [congruence |].
  split; [lia |]. split; [congruence |]. split; [congruence |].
  split; [exact Hroom |]. split.
  - intros j Hj. rewrite Hs5, decide_False by lia.
    rewrite Hs4, decide_False by lia.
    rewrite Hs3, decide_False by lia.
    rewrite Hs2, decide_False by lia.
    rewrite Hs1 by lia.
    repeat case_decide; (reflexivity || lia).
  - intros n Hn. unfold segmentAtPossiblyUnallocated at 1.
    rewrite Hs5 by lia.
    replace (T + n - T) with n by lia.
    destruct (decide (start <= n <= last)) as [Hin | Hout].
    + rewrite decide_True by lia. do 2 f_equal.
      unfold segmentAt, segmentAtPossiblyUnallocated.
      rewrite Hs4 by lia.
      destruct (decide (n = start)) as [-> | Hne].
      * rewrite decide_False by lia. rewrite Hs3 by lia.
        rewrite decide_True by reflexivity. reflexivity.
      * rewrite decide_True by lia.
        unfold baseSegment. fold start.
        rewrite decide_False by exact Hne. reflexivity.
    + rewrite decide_False by lia.
      rewrite Hs4, decide_False by lia.
      rewrite Hs3, decide_False by lia.
      rewrite Hs2 by lia. rewrite Hs1 by lia.
      unfold segmentAtPossiblyUnallocated.
      destruct (Z.leb_spec c T) as [Hci | Hco].
      * assert (start = 0) as Hs0.
        { unfold start, startSegmentOf. fold c.
          destruct (Z.leb_spec c T); [reflexivity | lia]. }
        rewrite Hu1. rewrite decide_False by lia.
        rewrite decide_False by lia. reflexivity.
      * destruct (Hold Hco) as (lseg & _ & Hu & _).
        rewrite Hu1. rewrite decide_False by lia.
        rewrite decide_False by lia. reflexivity.
Qed.

Lemma setLengthAs_spec (Fill : bool) (seg : Segment) (n : Z) :
  0 <= length_ seg -> n <= len (data_ seg) ->
  length_ (setLengthAs Fill seg n) = n /\
  len (data_ (setLengthAs Fill seg n)) = len (data_ seg) /\
  forall r, 0 <= r ->
    load (data_ (setLengthAs Fill seg n)) r =
    if Fill && bool_decide (length_ seg <= r < n) then EmptyValue
    else load (data_ seg) r.
Proof.
  intros Hl Hn. unfold setLengthAs, setLength, setLengthWithoutFilling.
  destruct Fill; simpl; [| repeat split].
  destruct (Z.ltb_spec (length_ seg) n) as [Hlt | Hge]; simpl.
  - destruct (fill_spec (data_ seg) (length_ seg) n EmptyValue Hl Hn)
      as [Hlen Hv].
    split; [reflexivity |]. split; [exact Hlen |].
    intros r Hr. rewrite Hv by exact Hr.
    case_decide; [rewrite bool_decide_eq_true_2 | rewrite bool_decide_eq_false_2];
      (reflexivity || assumption).
  - split; [reflexivity |]. split; [reflexivity |].
    intros r Hr. rewrite bool_decide_eq_false_2 by lia. reflexivity.
Qed.

Lemma freshSegment_spec :
  length_ freshSegment = 0 /\ len (data_ freshSegment) = L.
Proof.
  unfold freshSegment; simpl. split; [reflexivity |].
  apply len_fmap_seqZ. lia.
Qed.

Lemma baseSegment_spec (self : t) (n : Z) :
  wf self ->
  len (data_ (baseSegment self n)) = L /\
  0 <= length_ (baseSegment self n) <= L /\
  (size self <= T \/ n <> startSegmentOf self ->
   length_ (baseSegment self n) = 0) /\
  (T < size self -> n = startSegmentOf self ->
   segmentAtPossiblyUnallocated self n
   = SegmentValue (baseSegment self n) /\
   1 <= length_ (baseSegment self n) /\
   numSlotsUsed_ self = T + n + 1 /\
   size self = T + n * L + length_ (baseSegment self n)).
Proof.
  intros Hwf. destruct freshSegment_spec as [Hfl Hfd].
  pose proof (wf_size_inline_iff self Hwf) as Hiff.
  unfold baseSegment, startSegmentOf.
  destruct (Z.leb_spec (size self) T) as [Hin | Hout].
  - assert ((if decide (n = 0) then freshSegment else freshSegment)
            = freshSegment) as -> by (case_decide; reflexivity).
    repeat split; try lia.
  - assert (T < numSlotsUsed_ self) as Hgt by lia.
    destruct (wf_last_segment self Hwf Hgt) as (lseg & Hls & Hld & Hll & Hsz).
    case_decide as Hn.
    + rewrite (segmentAt_of _ _ _ Hls). subst n.
      repeat split; try lia; try assumption.
    + repeat split; try lia.
Qed.

Lemma lengthOf_spec (f n : Z) :
  T < f < 2 ^ 32 -> 0 <= n <= toSegment (f - 1) ->
  1 <= lengthOf f n <= L /\
  (n < toSegment (f - 1) -> lengthOf f n = L) /\
  (n = toSegment (f - 1) -> lengthOf f n = toInterior (f - 1) + 1).
Proof.
  intros Hf Hn. unfold lengthOf.
  destruct (index_split (f - 1) ltac:(lia)) as (Hl0 & Hrl & Hfeq).
  destruct (Z.eqb_spec n (toSegment (f - 1))); repeat split; lia.
Qed.

(** [increaseSize] within the capacity: the array stays well formed, the
    size grows by [amount], the old elements stay, no array cell is
    allocated, and with [Fill] the new elements are "empty". *)
Lemma increaseSize_spec (Fill : bool) (rt : Runtime) (self : t)
      (amount : Z) (rt' : Runtime) (self' : t) :
  wf self -> 0 <= amount ->
  size self + amount <= capacity self -> size self + amount < 2 ^ 32 ->
  increaseSize Fill rt self amount = (rt', self') ->
  wf self' /\
  size self' = size self + amount /\
  slotCapacity_ self' = slotCapacity_ self /\
  arraysAllocated rt' = arraysAllocated rt /\
  thrownValue_ rt' = thrownValue_ rt /\
  (forall i, 0 <= i < size self -> at_ self' i = at_ self i) /\
  (Fill = true ->
   forall i, size self <= i < size self + amount ->
             at_ self' i = EmptyValue).
Proof.
  intros Hwf Ha Hcap H32 Heq.
  pose proof Hwf as (Hb & Hlen & _ & Hseg).
  pose proof (wf_size_nonneg self Hwf) as Hc0.
  pose proof (wf_size_inline_iff self Hwf) as Hiff.
  destruct (Z.le_gt_cases (size self + amount) T) as [Hin | Hout].
  - (* the final size is inside the inline storage *)
    rewrite increaseSize_inline_eq in Heq by lia.
    injection Heq as <- <-.
    assert (numSlotsUsed_ self = size self) as Hu.
    { rewrite size_inline; [reflexivity | lia]. }
    assert (size self + amount <= slotCapacity_ self) as Hroom.
    { unfold capacity in Hcap.
      destruct (Z.leb_spec (slotCapacity_ self) T); lia. }
    destruct (fill_spec (slots self) (size self) (size self + amount)
                EmptyValue Hc0 ltac:(lia)) as [Hfl Hfv].
    set (slots' := if Fill
                   then fill (slots self) (size self) (size self + amount)
                             EmptyValue
                   else slots self).
    assert (len slots' = len (slots self)) as Hlen'.
    { unfold slots'. destruct Fill; [exact Hfl | reflexivity]. }
    assert (size (mk (slotCapacity_ self) (size self + amount) slots')
            = size self + amount) as Hsz.
    { apply size_inline. simpl. exact Hin. }
    split.
    { split; [simpl; lia |]. split; [simpl; lia |].
      split; [rewrite Hsz; exact H32 |].
      simpl. intros n Hn Hlt. lia. }
    split; [exact Hsz |]. split; [reflexivity |].
    split; [reflexivity |]. split; [reflexivity |]. split.
    + intros i Hi. unfold at_. destruct (Z.ltb_spec i T); [| lia].
      simpl. unfold slots'. destruct Fill; [| reflexivity].
      rewrite Hfv, decide_False by lia. reflexivity.
    + intros -> i Hi. unfold at_. destruct (Z.ltb_spec i T); [| lia].
      simpl. rewrite Hfv, decide_True by lia. reflexivity.
  - (* the final size is in the segments *)
    destruct (increaseSize_segments_slots Fill rt self amount rt' self'
                Hwf Ha Hout Hcap H32 Heq)
      as (Hst & Hra & Hrt & Hu' & Hc' & Hlen' & Hroom & Hinl & Hsegs).
    set (f := size self + amount) in *.
    set (start := startSegmentOf self) in *.
    destruct (index_split (f - 1) ltac:(lia)) as (Hl0 & Hrl & Hfeq).
    set (last := toSegment (f - 1)) in *.
    (* every segment in use after the growth *)
    assert (forall n, start <= n <= last ->
              segmentAtPossiblyUnallocated self' n
              = SegmentValue (setLengthAs Fill (baseSegment self n)
                                          (lengthOf f n)) /\
              length_ (setLengthAs Fill (baseSegment self n) (lengthOf f n))
              = lengthOf f n /\
              len (data_ (setLengthAs Fill (baseSegment self n)
                                      (lengthOf f n))) = L /\
              forall r, 0 <= r ->
                load (data_ (setLengthAs Fill (baseSegment self n)
                                         (lengthOf f n))) r =
                if Fill && bool_decide (length_ (baseSegment self n) <= r
                                        < lengthOf f n)
                then EmptyValue
                else load (data_ (baseSegment self n)) r) as Hnew.
    { intros n Hn.
      destruct (baseSegment_spec self n Hwf) as (Hbd & Hbl & _).
      destruct (lengthOf_spec f n ltac:(lia) ltac:(fold last; lia))
        as (Hlo & _).
      destruct (setLengthAs_spec Fill (baseSegment self n) (lengthOf f n)
                  ltac:(lia) ltac:(lia)) as (H1 & H2 & H3).
      split; [| split; [exact H1 | split; [lia | exact H3]]].
      rewrite Hsegs by lia. fold start f last.
      rewrite decide_True by lia. reflexivity. }
    assert (forall n, 0 <= n < start ->
              segmentAtPossiblyUnallocated self' n
              = segmentAtPossiblyUnallocated self n) as Hkeep.
    { intros n Hn. rewrite Hsegs by lia. fold start f last.
      rewrite decide_False by lia. reflexivity. }
    assert (size self' = f) as Hsz.
    { rewrite size_segments by lia. rewrite Hu'. fold f last.
      replace (T + last + 1 - T - 1) with last by lia.
      destruct (Hnew last ltac:(lia)) as (Hs & Hl & _).
      rewrite (segmentAt_of _ _ _ Hs), Hl.
      destruct (lengthOf_spec f last ltac:(lia) ltac:(fold last; lia))
        as (_ & _ & Hlast).
      rewrite Hlast by reflexivity. lia. }
    split.
    { split; [fold f last in Hu'; lia |]. split; [lia |].
      split; [lia |].
      intros n Hn Hlt. rewrite Hu' in Hlt.
      unfold segment_ok. rewrite Hu'.
      destruct (Z.lt_ge_cases n start) as [Hlo | Hhi].
      - (* an old, full segment *)
        assert (T < size self) as Hgt.
        { unfold start, startSegmentOf in Hlo.
          destruct (Z.leb_spec (size self) T); lia. }
        destruct (baseSegment_spec self start Hwf) as (_ & _ & _ & Hold).
        destruct (Hold Hgt eq_refl) as (_ & _ & Hu & _).
        destruct (Hseg n Hn ltac:(lia)) as (seg & Hs & Hd & Hl).
        rewrite decide_True in Hl by lia.
        exists seg. rewrite Hkeep by lia.
        split; [exact Hs |]. split; [exact Hd |].
        case_decide; lia.
      - destruct (Hnew n ltac:(lia)) as (Hs & Hl & Hd & _).
        eexists. split; [exact Hs |]. split; [exact Hd |].
        rewrite Hl.
        destruct (lengthOf_spec f n ltac:(lia) ltac:(fold last; lia))
          as (Hlo & Hfull & _).
        case_decide; [apply Hfull; fold last; lia | exact Hlo]. }
    split; [exact Hsz |]. split; [exact Hc' |].
    split; [exact Hra |]. split; [exact Hrt |]. split.
    + (* the old elements *)
      intros i Hi. unfold at_.
      destruct (Z.ltb_spec i T) as [Hii | Hio].
      * rewrite Hinl, decide_False by lia. reflexivity.
      * destruct (wf_index self i Hwf ltac:(lia))
          as (Hs0 & Hsin & Hr & seg & Hsg & Hd & Hl).
        destruct (baseSegment_spec self start Hwf) as (_ & _ & _ & Hold).
        destruct (Hold ltac:(lia) eq_refl) as (Hbs & Hb1 & Hu & Hcsz).
        destruct (Z.lt_ge_cases (toSegment i) start) as [Hlo | Hhi].
        -- unfold segmentAt. rewrite Hkeep by lia. reflexivity.
        -- assert (toSegment i = start) as Hts by lia.
           destruct (Hnew start ltac:(lia)) as (Hs & _ & _ & Hld).
           rewrite Hts. rewrite (segmentAt_of _ _ _ Hs).
           rewrite (segmentAt_of _ _ _ Hbs).
           rewrite Hld by lia.
           rewrite Hts, Hbs in Hsg. injection Hsg as <-.
           rewrite bool_decide_eq_false_2 by lia.
           rewrite andb_false_r. reflexivity.
    + (* the new elements *)
      intros -> i Hi. fold f in Hi. unfold at_.
      destruct (Z.ltb_spec i T) as [Hii | Hio].
      * rewrite Hinl, decide_True by lia. reflexivity.
      * destruct (index_split i ltac:(lia)) as (Hs0 & Hr & Hieq).
        destruct (baseSegment_spec self (toSegment i) Hwf)
          as (_ & Hbl & Hfresh & Hold).
        assert (start <= toSegment i <= last /\
                length_ (baseSegment self (toSegment i)) <= toInterior i
                < lengthOf f (toSegment i)) as [Hrange Hfill].
        { assert (toSegment i <= last) as Hle by nia.
          destruct (lengthOf_spec f (toSegment i) ltac:(lia)
                      ltac:(fold last; lia)) as (_ & Hfull & Hlast).
          fold last in Hfull, Hlast.
          assert (toInterior i < lengthOf f (toSegment i)) as Hup.
          { destruct (Z.lt_ge_cases (toSegment i) last) as [Hlt | Hge].
            - rewrite Hfull by exact Hlt. lia.
            - rewrite Hlast by lia.
              assert (toSegment i = last) as Hl' by lia.
              rewrite Hl' in Hieq. lia. }
          destruct (Z.le_gt_cases (size self) T) as [Hci | Hco].
          - assert (start = 0) as Hs0'.
            { unfold start, startSegmentOf.
              destruct (Z.leb_spec (size self) T); [reflexivity | lia]. }
            rewrite Hfresh by (left; exact Hci). lia.
          - destruct (decide (toSegment i = start)) as [Hts | Hne].
            + destruct (Hold Hco Hts) as (_ & _ & _ & Hcsz).
              split; [lia |]. split; [| exact Hup]. rewrite Hts in *. lia.
            + rewrite Hfresh by (right; exact Hne).
              destruct (baseSegment_spec self start Hwf)
                as (_ & Hbl' & _ & Hold').
              destruct (Hold' Hco eq_refl) as (_ & _ & _ & Hcsz).
              split; [| lia]. split; [| lia].
              destruct (Z.lt_ge_cases (toSegment i) start); [nia | lia]. }
        destruct (Hnew (toSegment i) Hrange) as (Hs & _ & _ & Hld).
        rewrite (segmentAt_of _ _ _ Hs), Hld by lia.
        rewrite bool_decide_eq_true_2 by exact Hfill. reflexivity.
Qed.

(** *** [decreaseSize], the constructor, and copies of the used slots *)

(** Shrinking lowers the size and rewrites no element: whatever the
    slots past the new size held, they still hold. *)
Lemma decreaseSize_spec (self : t) (amount : Z) :
  wf self -> 0 <= amount <= size self ->
  wf (decreaseSize self amount) /\
  size (decreaseSize self amount) = size self - amount /\
  slotCapacity_ (decreaseSize self amount) = slotCapacity_ self /\
  forall i, 0 <= i < 2 ^ 32 ->
            at_ (decreaseSize self amount) i = at_ self i.
Proof.
  intros Hwf Ha. pose proof Hwf as (Hb & Hlen & H32 & Hseg).
  pose proof (wf_size_inline_iff self Hwf) as Hiff.
  unfold decreaseSize. rewrite (wrap32_small (size self - amount)) by lia.
  set (f := size self - amount).
  destruct (Z.leb_spec f T) as [Hin | Hout].
  - assert (f <= slotCapacity_ self) as Hroom.
    { destruct (Z.le_gt_cases (numSlotsUsed_ self) T) as [Hle | Hgt].
      - pose proof (size_inline self Hle). unfold f. lia.
      - lia. }
    assert (size (set_numSlotsUsed self f) = f) as Hsz.
    { apply size_inline. simpl. exact Hin. }
    split.
    { split; [simpl; lia |]. split; [exact Hlen |].
      split; [rewrite Hsz; lia |]. simpl. intros n Hn Hlt. lia. }
    split; [exact Hsz |]. split; [reflexivity |].
    intros i Hi. reflexivity.
  - rewrite (wrap32_small (f - 1)) by lia.
    destruct (wf_index self (f - 1) Hwf ltac:(lia))
      as (Hs0 & Hsin & Hr & seg & Hsg & Hd & Hl).
    destruct (index_split (f - 1) ltac:(lia)) as (_ & _ & Hfeq).
    rewrite (wrap32_small (toInterior (f - 1) + 1)) by lia.
    rewrite numSlotsForCapacity_segments by lia.
    set (n := toSegment (f - 1)) in *. set (r := toInterior (f - 1)) in *.
    unfold updateSegment. rewrite (segmentAt_of _ _ _ Hsg).
    assert (setLength seg (r + 1) = mkSegment (r + 1) (data_ seg)) as ->.
    { unfold setLength, setLengthWithoutFilling.
      destruct (Z.ltb_spec (length_ seg) (r + 1)); [lia | reflexivity]. }
    set (seg' := mkSegment (r + 1) (data_ seg)).
    set (self' := set_numSlotsUsed
                    (mk (slotCapacity_ self) (numSlotsUsed_ self)
                        (store (slots self) (T + n) (SegmentValue seg')))
                    (T + n + 1)).
    assert (forall m, 0 <= m ->
              segmentAtPossiblyUnallocated self' m
              = if decide (n = m) then SegmentValue seg'
                else segmentAtPossiblyUnallocated self m) as Hupd.
    { intros m Hm. unfold segmentAtPossiblyUnallocated, self'; simpl.
      rewrite load_store by lia.
      repeat case_decide; (reflexivity || lia). }
    assert (size self' = f) as Hsz.
    { rewrite size_segments by (simpl; lia). simpl.
      replace (T + n + 1 - T - 1) with n by lia.
      unfold segmentAt. rewrite Hupd by lia.
      rewrite decide_True by reflexivity. simpl. lia. }
    split.
    { split; [simpl; lia |].
      split; [unfold self'; simpl; rewrite len_store; exact Hlen |].
      split; [lia |].
      intros m Hm Hlt. simpl in Hlt. unfold segment_ok.
      rewrite Hupd by exact Hm. simpl.
      case_decide as Hnm.
      - exists seg'. split; [reflexivity |]. split; [exact Hd |].
        rewrite decide_False by lia. simpl. lia.
      - destruct (Hseg m Hm ltac:(lia)) as (sg & Hs & Hdd & Hll).
        rewrite decide_True in Hll by lia.
        exists sg. split; [exact Hs |]. split; [exact Hdd |].
        case_decide; lia. }
    split; [exact Hsz |]. split; [reflexivity |].
    intros i Hi. unfold at_. destruct (Z.ltb_spec i T) as [Hii | Hio].
    + unfold self'; simpl. apply load_store_ne; lia.
    + destruct (index_split i ltac:(lia)) as (Hi0 & _).
      unfold segmentAt. rewrite Hupd by exact Hi0.
      case_decide as Hnm; [| reflexivity].
      rewrite <- Hnm, Hsg. reflexivity.
Qed.

(** The cell made by the constructor: no slot in use, and every
    segment-pointer slot "empty". *)
Lemma construct_spec (c : Z) :
  0 <= c < 2 ^ 32 ->
  wf (construct c) /\ size (construct c) = 0 /\
  numSlotsUsed_ (construct c) = 0 /\
  c <= capacity (construct c) /\
  slotCapacity_ (construct c) = numSlotsForCapacity c /\
  forall n, 0 <= n -> T + n < slotCapacity_ (construct c) ->
            segmentAtPossiblyUnallocated (construct c) n = EmptyValue.
Proof.
  intros Hc.
  assert (0 <= numSlotsForCapacity c /\
          c <= (if numSlotsForCapacity c <=? T then numSlotsForCapacity c
                else T + (numSlotsForCapacity c - T) * L)) as [Hn0 Hcap].
  { destruct (Z.le_gt_cases c T) as [Hle | Hgt].
    - rewrite numSlotsForCapacity_inline by exact Hle.
      destruct (Z.leb_spec c T); lia.
    - rewrite numSlotsForCapacity_segments by lia.
      destruct (index_split (c - 1) ltac:(lia)) as (Hs & Hr & Heq).
      destruct (Z.leb_spec (T + toSegment (c - 1) + 1) T); nia. }
  assert (size (construct c) = 0) as Hsz.
  { apply size_inline. simpl. exact threshold_nonneg. }
  split.
  { split; [simpl; lia |].
    split; [simpl; apply len_fmap_seqZ; exact Hn0 |].
    split; [rewrite Hsz; lia |]. simpl. intros n Hn Hlt. lia. }
  split; [exact Hsz |]. split; [reflexivity |].
  split; [exact Hcap |]. split; [reflexivity |].
  intros n Hn Hlt. simpl in Hlt.
  unfold segmentAtPossiblyUnallocated, construct; simpl.
  rewrite load_fmap_seqZ by lia.
  destruct (Z.ltb_spec (T + n) T); [lia | reflexivity].
Qed.

(** An array whose used slots are those of a well-formed array has the
    same elements. *)
Lemma wf_same_used (s s' : t) :
  wf s ->
  numSlotsUsed_ s' = numSlotsUsed_ s ->
  numSlotsUsed_ s <= slotCapacity_ s' ->
  len (slots s') = slotCapacity_ s' ->
  (forall j, 0 <= j < numSlotsUsed_ s ->
             load (slots s') j = load (slots s) j) ->
  wf s' /\ size s' = size s /\
  forall i, 0 <= i < size s -> at_ s' i = at_ s i.
Proof.
  intros Hwf Hu Hroom Hlen' Hsame.
  pose proof Hwf as (Hb & Hlen & H32 & Hseg).
  assert (forall n, 0 <= n -> T + n < numSlotsUsed_ s ->
            segmentAtPossiblyUnallocated s' n
            = segmentAtPossiblyUnallocated s n) as Hsegs.
  { intros n Hn Hlt. unfold segmentAtPossiblyUnallocated.
    apply Hsame. lia. }
  assert (size s' = size s) as Hsz.
  { destruct (Z.le_gt_cases (numSlotsUsed_ s) T) as [Hle | Hgt].
    - rewrite !size_inline by lia. exact Hu.
    - rewrite !size_segments by lia. rewrite Hu.
      unfold segmentAt. rewrite Hsegs by lia. reflexivity. }
  split.
  { split; [lia |]. split; [exact Hlen' |]. split; [lia |].
    intros n Hn Hlt. rewrite Hu in Hlt. unfold segment_ok.
    rewrite Hsegs, Hu by assumption. exact (Hseg n Hn Hlt). }
  split; [exact Hsz |].
  intros i Hi. unfold at_. destruct (Z.ltb_spec i T) as [Hii | Hio].
  - apply Hsame.
    destruct (Z.le_gt_cases (numSlotsUsed_ s) T) as [Hle | Hgt].
    + rewrite size_inline in Hi by exact Hle. lia.
    + lia.
  - destruct (wf_index s i Hwf ltac:(lia)) as (Hs0 & Hsin & _).
    unfold segmentAt. rewrite Hsegs by assumption. reflexivity.
Qed.

(** *** Growing and shrinking *)

(** [maxElements()] is a [size_type] value, and the capacity chosen by
    the policy holds the requested size. *)
Hypothesis maxElements_fits : maxElements < 2 ^ 32.
Hypothesis calculateNewCapacity_fits :
  forall oldSize newSize,
    0 <= oldSize <= newSize -> newSize < 2 ^ 32 ->
    newSize <= calculateNewCapacity oldSize newSize.

Lemma numSlotsUsed_le_numSlotsForCapacity (self : t) (c : Z) :
  wf self -> size self <= c < 2 ^ 32 ->
  numSlotsUsed_ self <= numSlotsForCapacity c.
Proof.
  intros Hwf Hc. pose proof Hwf as (Hb & _).
  destruct (Z.le_gt_cases (numSlotsUsed_ self) T) as [Hle | Hgt].
  - rewrite size_inline in Hc by exact Hle.
    destruct (Z.le_gt_cases c T) as [Hcl | Hcg].
    + rewrite numSlotsForCapacity_inline by exact Hcl. lia.
    + rewrite numSlotsForCapacity_segments by lia.
      destruct (index_split (c - 1) ltac:(lia)) as (Hs & _). lia.
  - destruct (wf_last_segment self Hwf Hgt) as (seg & _ & _ & Hl & Hsz).
    rewrite numSlotsForCapacity_segments by nia.
    destruct (index_split (c - 1) ltac:(nia)) as (Hs & Hr & Heq). nia.
Qed.

Lemma growRight_spec (rt : Runtime) (self : t) (amount : Z)
      (rt' : Runtime) (self' : t) :
  wf self -> 0 <= amount -> size self + amount < 2 ^ 32 ->
  growRight rt self amount = (rt', RETURNED, self') ->
  wf self' /\
  size self' = size self + amount /\
  (forall i, 0 <= i < size self -> at_ self' i = at_ self i) /\
  (forall i, size self <= i < size self + amount ->
             at_ self' i = EmptyValue) /\
  arraysAllocated rt' =
  arraysAllocated rt
  + (if size self + amount <=? capacity self then 0 else 1).
Proof.
  intros Hwf Ha H32 Heq. pose proof (wf_size_nonneg self Hwf) as Hc0.
  unfold growRight in Heq. rewrite wrap32_small in Heq by lia.
  destruct (Z.leb_spec (size self + amount) (capacity self)) as [Hin | Hout].
  - unfold growRightWithinCapacity in Heq.
    destruct (increaseSize true rt self amount) as [rt1 s1] eqn:He.
    injection Heq as <- <-.
    destruct (increaseSize_spec true rt self amount rt1 s1 Hwf Ha Hin H32 He)
      as (H1 & H2 & _ & H4 & _ & H6 & H7).
    split; [exact H1 |]. split; [exact H2 |]. split; [exact H6 |].
    split; [exact (H7 eq_refl) | lia].
  - set (c' := calculateNewCapacity (size self) (size self + amount)) in *.
    pose proof (calculateNewCapacity_fits (size self) (size self + amount)
                  ltac:(lia) H32) as Hfit.
    fold c' in Hfit.
    unfold create in Heq.
    destruct (Z.ltb_spec maxElements c') as [Hbig | Hok];
      [discriminate |].
    cbv iota beta in Heq.
    destruct (construct_spec c' ltac:(lia))
      as (Hwn & Hsn & Hun & Hcn & Hscn & _).
    pose proof Hwn as (_ & Hlenn & _).
    pose proof (numSlotsUsed_le_numSlotsForCapacity self c' Hwf ltac:(lia))
      as Hroom.
    destruct (copy_spec (slots self) (slots (construct c'))
                (numSlotsUsed_ self) ltac:(lia)) as [Hcl Hcv].
    set (newS := set_numSlotsUsed
                   (set_slots (construct c')
                      (copy (slots self) (numSlotsUsed_ self)
                            (slots (construct c'))))
                   (numSlotsUsed_ self)) in *.
    destruct (wf_same_used self newS Hwf eq_refl)
      as (Hwf1 & Hsz1 & Hat1).
    { change (slotCapacity_ newS) with (slotCapacity_ (construct c')).
      lia. }
    { change (len (copy (slots self) (numSlotsUsed_ self)
                        (slots (construct c')))
              = slotCapacity_ (construct c')).
      lia. }
    { intros j Hj.
      change (slots newS)
        with (copy (slots self) (numSlotsUsed_ self)
                   (slots (construct c'))).
      rewrite Hcv, decide_True by lia. reflexivity. }
    assert (size newS + amount <= capacity newS) as Hcap1.
    { rewrite Hsz1. change (capacity newS) with (capacity (construct c')).
      lia. }
    destruct (increaseSize true _ newS amount) as [rt1 s1] eqn:He.
    injection Heq as <- <-.
    destruct (increaseSize_spec true _ newS amount rt1 s1 Hwf1 Ha
                Hcap1 ltac:(lia) He)
      as (H1 & H2 & _ & H4 & _ & H6 & H7).
    split; [exact H1 |]. split; [lia |]. split; [| split].
    + intros i Hi. rewrite H6 by lia. apply Hat1. exact Hi.
    + intros i Hi. apply H7; [reflexivity | lia].
    + rewrite H4. reflexivity.
Qed.

Lemma growLeftWithinCapacity_spec (rt : Runtime) (self : t) (amount : Z)
      (rt' : Runtime) (self' : t) :
  wf self -> 0 <= amount ->
  size self + amount <= capacity self -> size self + amount < 2 ^ 32 ->
  growLeftWithinCapacity rt self amount = (rt', self') ->
  wf self' /\
  size self' = size self + amount /\
  (forall i, 0 <= i < amount -> at_ self' i = EmptyValue) /\
  (forall i, 0 <= i < size self -> at_ self' (amount + i) = at_ self i) /\
  arraysAllocated rt' = arraysAllocated rt.
Proof.
  intros Hwf Ha Hcap H32 Heq. pose proof (wf_size_nonneg self Hwf) as Hc0.
  unfold growLeftWithinCapacity in Heq.
  destruct (increaseSize false rt self amount) as [rt1 s1] eqn:He.
  injection Heq as <- <-.
  destruct (increaseSize_spec false rt self amount rt1 s1 Hwf Ha
              Hcap H32 He)
    as (H1 & H2 & _ & H4 & _ & H6 & _).
  rewrite H2.
  replace (size self + amount - amount) with (size self) by lia.
  destruct (copyBackwardWithin_spec s1 0 (size self) (size self + amount)
              H1 ltac:(lia) ltac:(lia) ltac:(lia))
    as ((Hw2 & Hs2 & _) & Hv2).
  destruct (fillElements_spec
              (copyBackwardWithin s1 0 (size self) (size self + amount))
              0 amount EmptyValue Hw2 ltac:(lia) ltac:(lia))
    as ((Hw3 & Hs3 & _) & Hv3).
  split; [exact Hw3 |]. split; [lia |]. split; [| split].
  - intros i Hi. rewrite Hv3, decide_True by lia. reflexivity.
  - intros i Hi. rewrite Hv3, decide_False by lia.
    rewrite Hv2, decide_True by lia.
    replace (amount + i - (size self + amount - size self)) with i by lia.
    apply H6. exact Hi.
  - exact H4.
Qed.

Lemma growLeft_spec (rt : Runtime) (self : t) (amount : Z)
      (rt' : Runtime) (self' : t) :
  wf self -> 0 <= amount -> size self + amount < 2 ^ 32 ->
  growLeft rt self amount = (rt', RETURNED, self') ->
  wf self' /\
  size self' = size self + amount /\
  (forall i, 0 <= i < amount -> at_ self' i = EmptyValue) /\
  (forall i, 0 <= i < size self -> at_ self' (amount + i) = at_ self i) /\
  arraysAllocated rt' =
  arraysAllocated rt
  + (if size self + amount <? capacity self then 0 else 1).
Proof.
  intros Hwf Ha H32 Heq. pose proof (wf_size_nonneg self Hwf) as Hc0.
  unfold growLeft in Heq. rewrite wrap32_small in Heq by lia.
  destruct (Z.ltb_spec (size self + amount) (capacity self)) as [Hin | Hout].
  - destruct (growLeftWithinCapacity rt self amount) as [rt1 s1] eqn:He.
    injection Heq as <- <-.
    destruct (growLeftWithinCapacity_spec rt self amount rt1 s1 Hwf Ha
                ltac:(lia) H32 He) as (H1 & H2 & H3 & H4 & H5).
    split; [exact H1 |]. split; [exact H2 |]. split; [exact H3 |].
    split; [exact H4 | lia].
  - set (c' := calculateNewCapacity (size self) (size self + amount)) in *.
    pose proof (calculateNewCapacity_fits (size self) (size self + amount)
                  ltac:(lia) H32) as Hfit.
    fold c' in Hfit.
    unfold create in Heq.
    destruct (Z.ltb_spec maxElements c') as [Hbig | Hok];
      [discriminate |].
    cbv iota beta in Heq.
    destruct (construct_spec c' ltac:(lia))
      as (Hwn & Hsn & Hun & Hcn & Hscn & _).
    destruct (increaseSize false _ (construct c') (size self + amount))
      as [rt1 s1] eqn:He.
    injection Heq as <- <-.
    destruct (increaseSize_spec false _ (construct c') (size self + amount)
                rt1 s1 Hwn ltac:(lia) ltac:(lia) ltac:(lia) He)
      as (H1 & H2 & _ & H4 & _ & _ & _).
    rewrite Hsn in H2.
    destruct (fillElements_spec s1 0 amount EmptyValue H1 ltac:(lia)
                ltac:(lia)) as ((Hw2 & Hs2 & _) & Hv2).
    destruct (copyElements_spec self (fillElements s1 0 amount EmptyValue)
                0 (size self) amount Hw2 Ha ltac:(lia))
      as ((Hw3 & Hs3 & _) & Hv3).
    split; [exact Hw3 |]. split; [lia |]. split; [| split].
    + intros i Hi. rewrite Hv3, decide_False by lia.
      rewrite Hv2, decide_True by lia. reflexivity.
    + intros i Hi. rewrite Hv3, decide_True by lia. f_equal. lia.
    + rewrite H4. simpl. lia.
Qed.

Lemma shrinkLeft_spec (self : t) (amount : Z) :
  wf self -> 0 <= amount <= size self ->
  wf (shrinkLeft self amount) /\
  size (shrinkLeft self amount) = size self - amount /\
  (forall i, 0 <= i < size self - amount ->
             at_ (shrinkLeft self amount) i = at_ self (i + amount)) /\
  (forall i, size self - amount <= i < 2 ^ 32 ->
             at_ (shrinkLeft self amount) i = at_ self i).
Proof.
  intros Hwf Ha. pose proof Hwf as (_ & _ & H32 & _).
  unfold shrinkLeft.
  destruct (copyWithin_spec self amount (size self) 0 Hwf ltac:(lia)
              ltac:(lia)) as ((Hw1 & Hs1 & _) & Hv1).
  destruct (decreaseSize_spec (copyWithin self amount (size self) 0) amount
              Hw1 ltac:(lia)) as (Hw2 & Hs2 & _ & Hv2).
  split; [exact Hw2 |]. split; [lia |]. split.
  - intros i Hi. rewrite Hv2, Hv1 by lia.
    rewrite decide_True by lia. f_equal. lia.
  - intros i Hi. rewrite Hv2, Hv1 by lia.
    rewrite decide_False by lia. reflexivity.
Qed.

(** Both grow entry points return unless [create] raises. *)
Lemma growLeft_returns (rt : Runtime) (self : t) (amount : Z) :
  wf self -> 0 <= amount -> size self + amount < 2 ^ 32 ->
  size self + amount < capacity self \/
  calculateNewCapacity (size self) (size self + amount) <= maxElements ->
  exists rt' self', growLeft rt self amount = (rt', RETURNED, self').
Proof.
  intros Hwf Ha H32 Hfit. pose proof (wf_size_nonneg self Hwf) as Hc0.
  unfold growLeft. rewrite wrap32_small by lia.
  destruct (Z.ltb_spec (size self + amount) (capacity self)) as [Hin | Hout].
  - destruct (growLeftWithinCapacity rt self amount) as [rt1 s1].
    eauto.
  - destruct Hfit as [Hlt | Hle]; [lia |].
    unfold create.
    destruct (Z.ltb_spec maxElements
                (calculateNewCapacity (size self) (size self + amount)));
      [lia |].
    cbv iota beta.
    destruct (increaseSize false _ _ _) as [rt1 s1]. eauto.
Qed.

Lemma growRight_returns (rt : Runtime) (self : t) (amount : Z) :
  wf self -> 0 <= amount -> size self + amount < 2 ^ 32 ->
  size self + amount <= capacity self \/
  calculateNewCapacity (size self) (size self + amount) <= maxElements ->
  exists rt' self', growRight rt self amount = (rt', RETURNED, self').
Proof.
  intros Hwf Ha H32 Hfit. pose proof (wf_size_nonneg self Hwf) as Hc0.
  unfold growRight. rewrite wrap32_small by lia.
  destruct (Z.leb_spec (size self + amount) (capacity self)) as [Hin | Hout].
  - destruct (growRightWithinCapacity rt self amount) as [rt1 s1].
    eauto.
  - destruct Hfit as [Hlt | Hle]; [lia |].
    unfold create.
    destruct (Z.ltb_spec maxElements
                (calculateNewCapacity (size self) (size self + amount)));
      [lia |].
    cbv iota beta.
    destruct (increaseSize true _ _ _) as [rt1 s1]. eauto.
Qed.

(** [wf] is an invariant of the class: [create] establishes it and
    every operation that changes the array keeps it. *)
Lemma wf_invariant :
  (forall rt capacity rt' arr,
     0 <= capacity ->
     create rt capacity = (rt', Some arr) -> wf arr) /\
  (forall rt self amount rt' self',
     wf self -> 0 <= amount -> size self + amount < 2 ^ 32 ->
     growRight rt self amount = (rt', RETURNED, self') -> wf self') /\
  (forall rt self amount rt' self',
     wf self -> 0 <= amount -> size self + amount < 2 ^ 32 ->
     growLeft rt self amount = (rt', RETURNED, self') -> wf self') /\
  (forall self amount,
     wf self -> 0 <= amount <= size self -> wf (shrinkRight self amount)) /\
  (forall self amount,
     wf self -> 0 <= amount <= size self -> wf (shrinkLeft self amount)) /\
  (forall self i v,
     wf self -> 0 <= i < size self -> wf (set_at self i v)).
Proof.
  split; [| split; [| split; [| split; [| split]]]].
  - intros rt capacity rt' arr Hc Heq. unfold create in Heq.
    destruct (Z.ltb_spec maxElements capacity); [discriminate |].
    injection Heq as _ <-. apply construct_spec. lia.
  - intros rt self amount rt' self' Hwf Ha H32 Heq.
    apply (growRight_spec rt self amount rt' self' Hwf Ha H32 Heq).
  - intros rt self amount rt' self' Hwf Ha H32 Heq.
    apply (growLeft_spec rt self amount rt' self' Hwf Ha H32 Heq).
  - intros self amount Hwf Ha.
    apply (decreaseSize_spec self amount Hwf Ha).
  - intros self amount Hwf Ha.
    apply (shrinkLeft_spec self amount Hwf Ha).
  - intros self i v Hwf Hi. apply (set_at_spec self i v Hwf Hi).
Qed.

(** *** The claims about SegmentedArray *)

(** C1 (as amended): on an array that satisfies the class invariant
    [wf], a grow operation fills the slots it newly exposes with "empty"
    ([oldSize, newSize) when growing to the right, [0, amount) when
    growing to the left) and ends with size [oldSize + amount]; a
    shrink operation only lowers the size, and every slot at or past the
    new size keeps the value it held.  The grow operations return unless
    [create] refuses the new capacity.  ([amount] is a [size_type] value
    with [oldSize + amount] representable.) *)
Theorem grow_fills_exposed_slots (rt : Runtime) (self : t) (amount : Z) :
  wf self -> 0 <= amount -> size self + amount < 2 ^ 32 ->
  (forall rt' self',
     growRight rt self amount = (rt', RETURNED, self') ->
     size self' = size self + amount /\
     forall i, size self <= i < size self + amount ->
               at_ self' i = EmptyValue) /\
  (size self + amount <= capacity self ->
   forall rt' self',
     growRightWithinCapacity rt self amount = (rt', self') ->
     size self' = size self + amount /\
     forall i, size self <= i < size self + amount ->
               at_ self' i = EmptyValue) /\
  (forall rt' self',
     growLeft rt self amount = (rt', RETURNED, self') ->
     size self' = size self + amount /\
     forall i, 0 <= i < amount -> at_ self' i = EmptyValue) /\
  (size self + amount <= capacity self ->
   forall rt' self',
     growLeftWithinCapacity rt self amount = (rt', self') ->
     size self' = size self + amount /\
     forall i, 0 <= i < amount -> at_ self' i = EmptyValue) /\
  (forall rt' self',
     resize rt self (size self + amount) = (rt', RETURNED, self') ->
     size self' = size self + amount /\
     forall i, size self <= i < size self + amount ->
               at_ self' i = EmptyValue) /\
  (forall rt' self',
     resizeLeft rt self (size self + amount) = (rt', RETURNED, self') ->
     size self' = size self + amount /\
     forall i, 0 <= i < amount -> at_ self' i = EmptyValue) /\
  (size self + amount <= capacity self ->
   forall rt' self',
     resizeWithinCapacity rt self (size self + amount) = (rt', self') ->
     size self' = size self + amount /\
     forall i, size self <= i < size self + amount ->
               at_ self' i = EmptyValue) /\
  (amount <= size self ->
   size (shrinkRight self amount) = size self - amount /\
   forall i, 0 <= i < 2 ^ 32 ->
             at_ (shrinkRight self amount) i = at_ self i) /\
  (amount <= size self ->
   size (shrinkLeft self amount) = size self - amount /\
   forall i, size self - amount <= i < 2 ^ 32 ->
             at_ (shrinkLeft self amount) i = at_ self i) /\
  (size self + amount <= capacity self \/
   calculateNewCapacity (size self) (size self + amount) <= maxElements ->
   exists rt' self', growRight rt self amount = (rt', RETURNED, self')) /\
  (size self + amount < capacity self \/
   calculateNewCapacity (size self) (size self + amount) <= maxElements ->
   exists rt' self', growLeft rt self amount = (rt', RETURNED, self')).
Proof.
  intros Hwf Ha H32. pose proof (wf_size_nonneg self Hwf) as Hc0.
  assert (forall rt' self',
            growRight rt self amount = (rt', RETURNED, self') ->
            size self' = size self + amount /\
            forall i, size self <= i < size self + amount ->
                      at_ self' i = EmptyValue) as HgrowR.
  { intros rt' self' Heq.
    destruct (growRight_spec rt self amount rt' self' Hwf Ha H32 Heq)
      as (_ & H2 & _ & H4 & _).
    split; assumption. }
  assert (size self + amount <= capacity self ->
          forall rt' self',
            growRightWithinCapacity rt self amount = (rt', self') ->
            size self' = size self + amount /\
            forall i, size self <= i < size self + amount ->
                      at_ self' i = EmptyValue) as HgrowRW.
  { intros Hcap rt' self' Heq. unfold growRightWithinCapacity in Heq.
    destruct (increaseSize_spec true rt self amount rt' self' Hwf Ha Hcap
                H32 Heq) as (_ & H2 & _ & _ & _ & _ & H7).
    split; [exact H2 | exact (H7 eq_refl)]. }
  assert (forall rt' self',
            growLeft rt self amount = (rt', RETURNED, self') ->
            size self' = size self + amount /\
            forall i, 0 <= i < amount -> at_ self' i = EmptyValue)
    as HgrowL.
  { intros rt' self' Heq.
    destruct (growLeft_spec rt self amount rt' self' Hwf Ha H32 Heq)
      as (_ & H2 & H3 & _).
    split; assumption. }
  split; [exact HgrowR |]. split; [exact HgrowRW |].
  split; [exact HgrowL |].
  split; [| split; [| split; [| split; [| split; [| split; [| split]]]]]].
  - intros Hcap rt' self' Heq.
    destruct (growLeftWithinCapacity_spec rt self amount rt' self' Hwf Ha
                Hcap H32 Heq) as (_ & H2 & H3 & _).
    split; assumption.
  - intros rt' self' Heq. unfold resize in Heq.
    destruct (Z.ltb_spec (size self) (size self + amount)) as [Hlt | Hge].
    + replace (size self + amount - size self) with amount in Heq by lia.
      rewrite wrap32_small in Heq by lia.
      exact (HgrowR rt' self' Heq).
    + destruct (Z.ltb_spec (size self + amount) (size self)); [lia |].
      injection Heq as _ <-. split; [lia |]. intros i Hi. lia.
  - intros rt' self' Heq. unfold resizeLeft in Heq.
    destruct (Z.eqb_spec (size self + amount) (size self)) as [Heq0 | Hne].
    + injection Heq as _ <-. split; [lia |]. intros i Hi. lia.
    + destruct (Z.ltb_spec (size self) (size self + amount)); [| lia].
      replace (size self + amount - size self) with amount in Heq by lia.
      rewrite wrap32_small in Heq by lia.
      exact (HgrowL rt' self' Heq).
  - intros Hcap rt' self' Heq. unfold resizeWithinCapacity in Heq.
    destruct (Z.ltb_spec (size self) (size self + amount)) as [Hlt | Hge].
    + replace (size self + amount - size self) with amount in Heq by lia.
      rewrite wrap32_small in Heq by lia.
      exact (HgrowRW Hcap rt' self' Heq).
    + destruct (Z.ltb_spec (size self + amount) (size self)); [lia |].
      injection Heq as _ <-. split; [lia |]. intros i Hi. lia.
  - intros Hle. unfold shrinkRight.
    destruct (decreaseSize_spec self amount Hwf ltac:(lia))
      as (_ & H2 & _ & H4).
    split; assumption.
  - intros Hle.
    destruct (shrinkLeft_spec self amount Hwf ltac:(lia))
      as (_ & H2 & _ & H4).
    split; assumption.
  - apply growRight_returns; assumption.
  - apply growLeft_returns; assumption.
Qed.

(** Every path of [raisePlaceholder] returns [EXCEPTION], also the two
    early returns after a failed allocation. *)
Lemma throwExcessiveCapacityError_status (rt : Runtime) (capacity : Z) :
  snd (throwExcessiveCapacityError rt capacity) = EXCEPTION.
Proof.
  unfold throwExcessiveCapacityError, raiseRangeError, raisePlaceholder,
    raisePlaceholder_message.
  destruct (StringPrimitive_create rt _) as [rt1 [str |]]; [| reflexivity].
  destruct (JSError_create rt1 _) as [rt2 [errorObj |]]; reflexivity.
Qed.

(** What the two absent functions are for: the string holds the
    characters it is created from, and the error object has the
    prototype it is created with. *)
Hypothesis StringPrimitive_create_chars :
  forall rt buf rt' str,
    StringPrimitive_create rt buf = (rt', Some str) -> str = buf.
Hypothesis JSError_create_prototype :
  forall rt proto rt' errorObj,
    JSError_create rt proto = (rt', Some errorObj) ->
    prototype errorObj = proto.

(** C2: [create] (and [createLongLived]) ends in an exception exactly
    when the capacity exceeds [maxElements()].  It then is the outcome
    of [raiseRangeError] with the message that names the requested and
    the maximum element count, and every path of that call returns the
    status [EXCEPTION]: when the message string and the error object
    are allocated, the thrown value is the RangeError with that message;
    when one of the two allocations fails, [create] still returns
    [EXCEPTION], with the exception the failed allocation left.  In no
    case is a SegmentedArray cell allocated first.  Otherwise one cell is
    allocated, no segment is, nothing is raised, and the new array is
    empty with every segment-pointer slot "empty". *)
Theorem create_range_error_iff (rt : Runtime) (capacity : Z) :
  let msg :=
    "Requested an array size larger than the max allowable: Requested elements = "
    +:+ pretty capacity +:+ ", max elements = " +:+ pretty maxElements in
  (snd (create rt capacity) = None <-> maxElements < capacity) /\
  (maxElements < capacity ->
   create rt capacity
   = (fst (raiseRangeError StringPrimitive_create JSError_create rt msg),
      None) /\
   snd (raiseRangeError StringPrimitive_create JSError_create rt msg)
   = EXCEPTION /\
   (forall rt1 str rt2 errorObj,
      StringPrimitive_create rt msg = (rt1, Some str) ->
      JSError_create rt1 RangeErrorPrototype = (rt2, Some errorObj) ->
      create rt capacity =
      (mkRuntime (arraysAllocated rt2) (segmentsAllocated rt2)
         (Some (mkJSError RangeErrorPrototype msg)), None)) /\
   (forall rt1,
      StringPrimitive_create rt msg = (rt1, None) ->
      create rt capacity = (rt1, None)) /\
   (forall rt1 str rt2,
      StringPrimitive_create rt msg = (rt1, Some str) ->
      JSError_create rt1 RangeErrorPrototype = (rt2, None) ->
      create rt capacity = (rt2, None))) /\
  (capacity <= maxElements ->
   exists arr,
     create rt capacity =
     (mkRuntime (arraysAllocated rt + 1) (segmentsAllocated rt)
                (thrownValue_ rt), Some arr) /\
     numSlotsUsed_ arr = 0 /\
     (forall n, 0 <= n -> T + n < slotCapacity_ arr ->
                segmentAtPossiblyUnallocated arr n = EmptyValue) /\
     (0 <= capacity -> wf arr /\ size arr = 0)) /\
  createLongLived rt capacity = create rt capacity.
Proof.
  intros msg.
  pose proof (throwExcessiveCapacityError_status rt capacity) as Hst.
  unfold create, createLongLived.
  destruct (Z.ltb_spec maxElements capacity) as [Hbig | Hok].
  - split; [split; [intros _; exact Hbig | reflexivity] |].
    split; [| split; [lia | reflexivity]].
    intros _. unfold throwExcessiveCapacityError in *. fold msg in Hst |- *.
    split; [reflexivity |]. split; [exact Hst |].
    unfold raiseRangeError, raisePlaceholder, raisePlaceholder_message,
      raisePlaceholder_errorObj.
    split; [| split].
    + intros rt1 str rt2 errorObj Hs He. rewrite Hs.
      rewrite (StringPrimitive_create_chars _ _ _ _ Hs). rewrite He.
      rewrite (JSError_create_prototype _ _ _ _ He). reflexivity.
    + intros rt1 Hs. rewrite Hs. reflexivity.
    + intros rt1 str rt2 Hs He. rewrite Hs.
      rewrite (StringPrimitive_create_chars _ _ _ _ Hs), He. reflexivity.
  - split; [split; [discriminate | lia] |].
    split; [lia |]. split; [| reflexivity].
    intros _. exists (construct capacity).
    split; [reflexivity |]. split; [reflexivity |]. split.
    + intros n Hn Hlt. simpl in Hlt.
      unfold segmentAtPossiblyUnallocated, construct; simpl.
      rewrite load_fmap_seqZ by lia.
      destruct (Z.ltb_spec (T + n) T); [lia | reflexivity].
    + intros Hc0.
      destruct (construct_spec capacity ltac:(lia)) as (Hw & Hs & _).
      split; assumption.
Qed.

(** C7: after a successful [growLeft(amount)] on an array that satisfies
    the class invariant [wf], the first [amount] elements read "empty",
    the elements at [amount .. amount + oldSize) are the old contents in
    their order, and the size is [oldSize + amount]; the call does
    succeed unless [create] refuses the new capacity.  ([amount] is a
    [size_type] value with [oldSize + amount] representable.) *)
Theorem growLeft_prepends_empty (rt : Runtime) (self : t) (amount : Z) :
  wf self -> 0 <= amount -> size self + amount < 2 ^ 32 ->
  (size self + amount < capacity self \/
   calculateNewCapacity (size self) (size self + amount) <= maxElements ->
   exists rt' self', growLeft rt self amount = (rt', RETURNED, self')) /\
  forall rt' self',
    growLeft rt self amount = (rt', RETURNED, self') ->
    (forall i, 0 <= i < amount -> at_ self' i = EmptyValue) /\
    (forall i, 0 <= i < size self ->
               at_ self' (amount + i) = at_ self i) /\
    size self' = size self + amount.
Proof.
  intros Hwf Ha H32. split.
  - apply growLeft_returns; assumption.
  - intros rt' self' Heq.
    destruct (growLeft_spec rt self amount rt' self' Hwf Ha H32 Heq)
      as (_ & H2 & H3 & H4 & _).
    repeat split; assumption.
Qed.

(** C8 (the code departs from it): when [size + amount] equals the
    capacity, which [growLeftWithinCapacity] accepts, [growLeft] still
    allocates a new SegmentedArray cell, whereas [growRight] grows in
    place. *)
Theorem growLeft_reallocates_at_full_capacity (rt : Runtime) (self : t)
        (amount : Z) :
  wf self -> 0 <= amount ->
  size self + amount = capacity self -> capacity self < 2 ^ 32 ->
  calculateNewCapacity (size self) (capacity self) <= maxElements ->
  growWithinCapacity_assert self amount /\
  (exists rt' self',
     growLeft rt self amount = (rt', RETURNED, self') /\
     arraysAllocated rt' = arraysAllocated rt + 1) /\
  (exists rt' self',
     growRight rt self amount = (rt', RETURNED, self') /\
     arraysAllocated rt' = arraysAllocated rt).
Proof.
  intros Hwf Ha Hfull H32 Hpol.
  split; [| split].
  - unfold growWithinCapacity_assert. rewrite wrap32_small; [lia |].
    pose proof (wf_size_nonneg self Hwf). lia.
  - destruct (growLeft_returns rt self amount Hwf Ha ltac:(lia))
      as (rt' & self' & Heq).
    { right. rewrite Hfull. exact Hpol. }
    exists rt', self'. split; [exact Heq |].
    destruct (growLeft_spec rt self amount rt' self' Hwf Ha ltac:(lia) Heq)
      as (_ & _ & _ & _ & Hal).
    rewrite Hal. destruct (Z.ltb_spec (size self + amount) (capacity self));
      lia.
  - destruct (growRight_returns rt self amount Hwf Ha ltac:(lia))
      as (rt' & self' & Heq).
    { left. lia. }
    exists rt', self'. split; [exact Heq |].
    destruct (growRight_spec rt self amount rt' self' Hwf Ha ltac:(lia) Heq)
      as (_ & _ & _ & _ & Hal).
    rewrite Hal. destruct (Z.leb_spec (size self + amount) (capacity self));
      lia.
Qed.

(** *** Further properties of SegmentedArray *)

Lemma capacity_of_slotCapacity (s s' : t) :
  slotCapacity_ s' = slotCapacity_ s -> capacity s' = capacity s.
Proof. unfold capacity. intros ->. reflexivity. Qed.

(** [push_back] on a well-formed array: one more element, the value in
    the last place, the others as they were. *)
Lemma push_back_spec (rt : Runtime) (self : t) (value : HermesValue)
      (rt' : Runtime) (self' : t) :
  wf self -> size self + 1 < 2 ^ 32 ->
  push_back rt self value = (rt', RETURNED, self') ->
  wf self' /\ size self' = size self + 1 /\
  at_ self' (size self) = value /\
  forall i, 0 <= i < size self -> at_ self' i = at_ self i.
Proof.
  intros Hwf H32 Heq. pose proof (wf_size_nonneg self Hwf) as Hc0.
  unfold push_back in Heq.
  destruct (growRight rt self 1) as [[rt1 st] s1] eqn:Hg.
  destruct st; [discriminate |]. injection Heq as <- <-.
  destruct (growRight_spec rt self 1 rt1 s1 Hwf ltac:(lia) H32 Hg)
    as (Hw & Hs & Hold & _).
  destruct (set_at_spec s1 (size self) value Hw ltac:(lia))
    as (Hw' & Hs' & _ & _ & Hv & Hoth).
  split; [exact Hw' |]. split; [lia |]. split; [exact Hv |].
  intros i Hi. rewrite Hoth by lia. apply Hold, Hi.
Qed.

(** What a grow operation does when [create] refuses the capacity the
    policy asks for. *)
Lemma growRight_exception (rt : Runtime) (self : t) (amount : Z)
      (rt' : Runtime) (self' : t) :
  wf self -> 0 <= amount -> size self + amount < 2 ^ 32 ->
  growRight rt self amount = (rt', EXCEPTION, self') ->
  capacity self < size self + amount /\
  maxElements < calculateNewCapacity (size self) (size self + amount) /\
  self' = self /\
  rt' = fst (throwExcessiveCapacityError rt
               (calculateNewCapacity (size self) (size self + amount))).
Proof.
  intros Hwf Ha H32 Heq. pose proof (wf_size_nonneg self Hwf) as Hc0.
  unfold growRight in Heq. rewrite wrap32_small in Heq by lia.
  destruct (Z.leb_spec (size self + amount) (capacity self)) as [Hin | Hout].
  { destruct (growRightWithinCapacity rt self amount). discriminate. }
  unfold create in Heq.
  destruct (Z.ltb_spec maxElements
              (calculateNewCapacity (size self) (size self + amount)))
    as [Hbig | Hok].
  - injection Heq as <- <-. repeat split; assumption.
  - cbv iota beta in Heq.
    destruct (increaseSize true _ _ _) in Heq. discriminate.
Qed.

Lemma growLeft_exception (rt : Runtime) (self : t) (amount : Z)
      (rt' : Runtime) (self' : t) :
  wf self -> 0 <= amount -> size self + amount < 2 ^ 32 ->
  growLeft rt self amount = (rt', EXCEPTION, self') ->
  capacity self <= size self + amount /\
  maxElements < calculateNewCapacity (size self) (size self + amount) /\
  self' = self /\
  rt' = fst (throwExcessiveCapacityError rt
               (calculateNewCapacity (size self) (size self + amount))).
Proof.
  intros Hwf Ha H32 Heq. pose proof (wf_size_nonneg self Hwf) as Hc0.
  unfold growLeft in Heq. rewrite wrap32_small in Heq by lia.
  destruct (Z.ltb_spec (size self + amount) (capacity self)) as [Hin | Hout].
  { destruct (growLeftWithinCapacity rt self amount). discriminate. }
  unfold create in Heq.
  destruct (Z.ltb_spec maxElements
              (calculateNewCapacity (size self) (size self + amount)))
    as [Hbig | Hok].
  - injection Heq as <- <-. repeat split; assumption.
  - cbv iota beta in Heq.
    destruct (increaseSize false _ _ _) in Heq. discriminate.
Qed.

(** X13: [push_back(value)] on a well-formed array appends: the size
    grows by one, the new last element is the value and every older
    element is where it was, whether the array grew in place or was
    reallocated.  The call returns unless [create] refuses the capacity
    the policy asks for; in that case the array is left as it was. *)
Theorem push_back_appends (rt : Runtime) (self : t) (value : HermesValue) :
  wf self -> size self + 1 < 2 ^ 32 ->
  (size self + 1 <= capacity self \/
   calculateNewCapacity (size self) (size self + 1) <= maxElements ->
   exists rt' self', push_back rt self value = (rt', RETURNED, self')) /\
  (forall rt' self',
     push_back rt self value = (rt', RETURNED, self') ->
     wf self' /\ size self' = size self + 1 /\
     at_ self' (size self) = value /\
     forall i, 0 <= i < size self -> at_ self' i = at_ self i) /\
  (forall rt' self',
     push_back rt self value = (rt', EXCEPTION, self') ->
     self' = self /\
     maxElements < calculateNewCapacity (size self) (size self + 1)).
Proof.
  intros Hwf H32. split; [| split].
  - intros Hfit. unfold push_back.
    destruct (growRight_returns rt self 1 Hwf ltac:(lia) H32 Hfit)
      as (rt1 & s1 & ->).
    eauto.
  - intros rt' self' Heq.
    exact (push_back_spec rt self value rt' self' Hwf H32 Heq).
  - intros rt' self' Heq. unfold push_back in Heq.
    destruct (growRight rt self 1) as [[rt1 st] s1] eqn:Hg.
    destruct st; [| discriminate]. injection Heq as <- <-.
    destruct (growRight_exception rt self 1 rt1 s1 Hwf ltac:(lia) H32 Hg)
      as (_ & Hbig & Hs & _).
    split; assumption.
Qed.

(** X14: a run of [push_back] calls that all return leaves the pushed
    values after the old elements, in the order they were pushed, and
    the old elements untouched. *)
Theorem push_back_all_in_order (values : list HermesValue) (rt : Runtime)
        (self : t) (rt' : Runtime) (self' : t) :
  wf self -> size self + len values < 2 ^ 32 ->
  push_back_all rt self values = (rt', RETURNED, self') ->
  wf self' /\ size self' = size self + len values /\
  (forall i, 0 <= i < size self -> at_ self' i = at_ self i) /\
  (forall k v, values !! k = Some v ->
               at_ self' (size self + Z.of_nat k) = v).
Proof.
  revert rt self. induction values as [| v vs IH];
    intros rt self Hwf H32 Heq.
  - simpl in Heq. injection Heq as <- <-. unfold len; simpl.
    split; [exact Hwf |]. split; [lia |]. split; [reflexivity |].
    intros k v Hk. rewrite lookup_nil in Hk. discriminate.
  - pose proof (wf_size_nonneg self Hwf) as Hc0.
    pose proof (len_nonneg vs) as Hl0.
    assert (len (v :: vs) = 1 + len vs) as Hlen
      by (unfold len; simpl length; lia).
    rewrite Hlen in *. simpl in Heq.
    destruct (push_back rt self v) as [[rt1 st] s1] eqn:Hp.
    destruct st; [discriminate |].
    destruct (push_back_spec rt self v rt1 s1 Hwf ltac:(lia) Hp)
      as (Hw1 & Hs1 & Hv1 & Hold1).
    destruct (IH rt1 s1 Hw1 ltac:(lia) Heq) as (Hw & Hs & Hold & Hnew).
    split; [exact Hw |]. split; [lia |]. split.
    + intros i Hi. rewrite Hold by lia. apply Hold1, Hi.
    + intros [| k] v' Hk; simpl in Hk.
      * injection Hk as <-. rewrite Z.add_0_r, Hold by lia. exact Hv1.
      * specialize (Hnew k v' Hk).
        replace (size self + Z.of_nat (S k)) with (size s1 + Z.of_nat k)
          by lia.
        exact Hnew.
Qed.

(** X15: a [growRight] that returns keeps every old element at its
    index, on both of its paths; it allocates a new SegmentedArray cell
    exactly when the final size exceeds the capacity, and otherwise the
    array keeps its slot capacity. *)
Theorem growRight_keeps_elements (rt : Runtime) (self : t) (amount : Z)
        (rt' : Runtime) (self' : t) :
  wf self -> 0 <= amount -> size self + amount < 2 ^ 32 ->
  growRight rt self amount = (rt', RETURNED, self') ->
  wf self' /\ size self' <= capacity self' /\
  (forall i, 0 <= i < size self -> at_ self' i = at_ self i) /\
  (arraysAllocated rt' = arraysAllocated rt <->
   size self + amount <= capacity self) /\
  (size self + amount <= capacity self ->
   slotCapacity_ self' = slotCapacity_ self /\
   thrownValue_ rt' = thrownValue_ rt).
Proof.
  intros Hwf Ha H32 Heq. pose proof (wf_size_nonneg self Hwf) as Hc0.
  destruct (growRight_spec rt self amount rt' self' Hwf Ha H32 Heq)
    as (Hw & Hs & Hold & _ & Hal).
  split; [exact Hw |]. split; [apply wf_size_le_capacity, Hw |].
  split; [exact Hold |]. split.
  - rewrite Hal.
    destruct (Z.leb_spec (size self + amount) (capacity self)); lia.
  - intros Hin. unfold growRight in Heq.
    rewrite wrap32_small in Heq by lia.
    destruct (Z.leb_spec (size self + amount) (capacity self)); [| lia].
    unfold growRightWithinCapacity in Heq.
    destruct (increaseSize true rt self amount) as [rt1 s1] eqn:He.
    injection Heq as <- <-.
    destruct (increaseSize_spec true rt self amount rt1 s1 Hwf Ha Hin H32 He)
      as (_ & _ & H3 & _ & H5 & _).
    split; assumption.
Qed.

(** X16: [shrinkLeft(amount)] drops the first [amount] elements: the
    element at index [i] afterwards is the one that was at
    [i + amount]; the capacity stays. *)
Theorem shrinkLeft_drops_front (self : t) (amount : Z) :
  wf self -> 0 <= amount <= size self ->
  wf (shrinkLeft self amount) /\
  size (shrinkLeft self amount) = size self - amount /\
  (forall i, 0 <= i < size self - amount ->
             at_ (shrinkLeft self amount) i = at_ self (i + amount)) /\
  capacity (shrinkLeft self amount) = capacity self.
Proof.
  intros Hwf Ha.
  destruct (shrinkLeft_spec self amount Hwf Ha) as (Hw & Hs & Hv & _).
  split; [exact Hw |]. split; [exact Hs |]. split; [exact Hv |].
  unfold shrinkLeft.
  destruct (copyWithin_spec self amount (size self) 0 Hwf ltac:(lia)
              ltac:(lia)) as ((Hw1 & Hs1 & _ & Hc1) & _).
  destruct (decreaseSize_spec (copyWithin self amount (size self) 0) amount
              Hw1 ltac:(lia)) as (_ & _ & Hc2 & _).
  apply capacity_of_slotCapacity. congruence.
Qed.

(** X17: growing and then shrinking by the same amount on the same side
    gives back the old size and the old elements: [growLeft] then
    [shrinkLeft], and [growRight] then [shrinkRight]. *)
Theorem grow_shrink_roundtrip (rt : Runtime) (self : t) (amount : Z) :
  wf self -> 0 <= amount -> size self + amount < 2 ^ 32 ->
  (forall rt' self',
     growLeft rt self amount = (rt', RETURNED, self') ->
     wf (shrinkLeft self' amount) /\
     size (shrinkLeft self' amount) = size self /\
     forall i, 0 <= i < size self ->
               at_ (shrinkLeft self' amount) i = at_ self i) /\
  (forall rt' self',
     growRight rt self amount = (rt', RETURNED, self') ->
     wf (shrinkRight self' amount) /\
     size (shrinkRight self' amount) = size self /\
     forall i, 0 <= i < size self ->
               at_ (shrinkRight self' amount) i = at_ self i).
Proof.
  intros Hwf Ha H32. pose proof (wf_size_nonneg self Hwf) as Hc0. split.
  - intros rt' self' Heq.
    destruct (growLeft_spec rt self amount rt' self' Hwf Ha H32 Heq)
      as (Hw & Hs & _ & Hold & _).
    destruct (shrinkLeft_spec self' amount Hw ltac:(lia))
      as (Hw' & Hs' & Hv & _).
    split; [exact Hw' |]. split; [lia |].
    intros i Hi. rewrite Hv by lia.
    replace (i + amount) with (amount + i) by lia. apply Hold, Hi.
  - intros rt' self' Heq.
    destruct (growRight_spec rt self amount rt' self' Hwf Ha H32 Heq)
      as (Hw & Hs & Hold & _).
    unfold shrinkRight.
    destruct (decreaseSize_spec self' amount Hw ltac:(lia))
      as (Hw' & Hs' & _ & Hv).
    split; [exact Hw' |]. split; [lia |].
    intros i Hi. rewrite Hv by lia. apply Hold, Hi.
Qed.

(** X18: shrinking on the right and growing again by the same amount
    happens in place (the capacity was kept, no cell is allocated, the
    call returns), and the elements that come back into view read
    "empty", not the values they held before the shrink. *)
Theorem shrink_then_grow_clears (rt : Runtime) (self : t) (amount : Z) :
  wf self -> 0 <= amount <= size self ->
  capacity (shrinkRight self amount) = capacity self /\
  exists rt' self',
    growRight rt (shrinkRight self amount) amount = (rt', RETURNED, self') /\
    arraysAllocated rt' = arraysAllocated rt /\
    wf self' /\ size self' = size self /\
    (forall i, 0 <= i < size self - amount -> at_ self' i = at_ self i) /\
    (forall i, size self - amount <= i < size self ->
               at_ self' i = EmptyValue).
Proof.
  intros Hwf Ha. pose proof Hwf as (_ & _ & H32 & _).
  pose proof (wf_size_le_capacity self Hwf) as Hcap.
  unfold shrinkRight.
  destruct (decreaseSize_spec self amount Hwf Ha) as (Hw & Hs & Hc & Hv).
  pose proof (capacity_of_slotCapacity _ _ Hc) as Hcap'.
  split; [exact Hcap' |].
  destruct (growRight_returns rt (decreaseSize self amount) amount Hw
              ltac:(lia) ltac:(lia) ltac:(left; lia))
    as (rt' & self' & Heq).
  exists rt', self'. split; [exact Heq |].
  destruct (growRight_spec rt _ amount rt' self' Hw ltac:(lia) ltac:(lia)
              Heq) as (Hw' & Hs' & Hold & Hnew & Hal).
  split.
  { rewrite Hal.
    destruct (Z.leb_spec (size (decreaseSize self amount) + amount)
                         (capacity (decreaseSize self amount))); lia. }
  split; [exact Hw' |]. split; [lia |]. split.
  - intros i Hi. rewrite Hold by lia. apply Hv. lia.
  - intros i Hi. apply Hnew. lia.
Qed.

(** X19: [resize(newSize)] leaves an array of exactly [newSize]
    elements whose common prefix with the old array is unchanged; the
    elements past the old size read "empty".  A [resize] that does not
    grow always returns, and leaves the runtime alone: it allocates
    nothing and raises nothing. *)
Theorem resize_keeps_prefix (rt : Runtime) (self : t) (newSize : Z) :
  wf self -> 0 <= newSize < 2 ^ 32 ->
  (forall rt' self',
     resize rt self newSize = (rt', RETURNED, self') ->
     wf self' /\ size self' = newSize /\
     (forall i, 0 <= i < size self -> i < newSize ->
                at_ self' i = at_ self i) /\
     (forall i, size self <= i < newSize -> at_ self' i = EmptyValue)) /\
  (newSize <= size self ->
   exists self', resize rt self newSize = (rt, RETURNED, self')).
Proof.
  intros Hwf Hn. pose proof (wf_size_nonneg self Hwf) as Hc0.
  pose proof Hwf as (_ & _ & H32 & _). unfold resize. split.
  - intros rt' self' Heq.
    destruct (Z.ltb_spec (size self) newSize) as [Hlt | Hge].
    + rewrite wrap32_small in Heq by lia.
      destruct (growRight_spec rt self (newSize - size self) rt' self' Hwf
                  ltac:(lia) ltac:(lia) Heq) as (Hw & Hs & Hold & Hnew & _).
      split; [exact Hw |]. split; [lia |]. split.
      * intros i Hi _. apply Hold, Hi.
      * intros i Hi. apply Hnew. lia.
    + destruct (Z.ltb_spec newSize (size self)) as [Hlt | Hge'].
      * injection Heq as _ <-. unfold shrinkRight.
        rewrite wrap32_small by lia.
        destruct (decreaseSize_spec self (size self - newSize) Hwf
                    ltac:(lia)) as (Hw & Hs & _ & Hv).
        split; [exact Hw |]. split; [lia |]. split.
        -- intros i Hi _. apply Hv. lia.
        -- intros i Hi. lia.
      * injection Heq as _ <-.
        split; [exact Hwf |]. split; [lia |]. split.
        -- intros i _ _. reflexivity.
        -- intros i Hi. lia.
  - intros Hle.
    destruct (Z.ltb_spec (size self) newSize); [lia |].
    destruct (Z.ltb_spec newSize (size self)); eauto.
Qed.

(** X20: [resizeLeft(newSize)] leaves an array of exactly [newSize]
    elements that keeps the common suffix: with [d = newSize - oldSize],
    the old element [j] is found at [j + d] whenever that index exists,
    and when the array grows the [d] elements in front read "empty". *)
Theorem resizeLeft_keeps_suffix (rt : Runtime) (self : t) (newSize : Z)
        (rt' : Runtime) (self' : t) :
  wf self -> 0 <= newSize < 2 ^ 32 ->
  resizeLeft rt self newSize = (rt', RETURNED, self') ->
  wf self' /\ size self' = newSize /\
  (forall j, 0 <= j < size self -> 0 <= j + (newSize - size self) ->
             at_ self' (j + (newSize - size self)) = at_ self j) /\
  (forall i, 0 <= i < newSize - size self -> at_ self' i = EmptyValue).
Proof.
  intros Hwf Hn Heq. pose proof (wf_size_nonneg self Hwf) as Hc0.
  pose proof Hwf as (_ & _ & H32 & _). unfold resizeLeft in Heq.
  destruct (Z.eqb_spec newSize (size self)) as [He | Hne].
  { injection Heq as _ <-. split; [exact Hwf |]. split; [lia |]. split.
    - intros j Hj _. f_equal. lia.
    - intros i Hi. lia. }
  destruct (Z.ltb_spec (size self) newSize) as [Hlt | Hge].
  - rewrite wrap32_small in Heq by lia.
    destruct (growLeft_spec rt self (newSize - size self) rt' self' Hwf
                ltac:(lia) ltac:(lia) Heq) as (Hw & Hs & Hnew & Hold & _).
    split; [exact Hw |]. split; [lia |]. split.
    + intros j Hj _.
      replace (j + (newSize - size self)) with (newSize - size self + j)
        by lia.
      apply Hold, Hj.
    + intros i Hi. apply Hnew, Hi.
  - injection Heq as _ <-. rewrite wrap32_small by lia.
    destruct (shrinkLeft_spec self (size self - newSize) Hwf ltac:(lia))
      as (Hw & Hs & Hv & _).
    split; [exact Hw |]. split; [lia |]. split.
    + intros j Hj Hd. rewrite Hv by lia. f_equal. lia.
    + intros i Hi. lia.
Qed.

(** X21: when a grow operation ends in an exception.  [growRight]
    does so exactly when the final size exceeds the capacity and
    [create] refuses the capacity the policy asks for.  [growLeft],
    whose guard is strict, does so exactly when the final size is not
    below the capacity (it may equal it) and [create] refuses.  In both
    cases the handle still refers to the old array, and the runtime is
    the one [throwExcessiveCapacityError] leaves for the capacity asked
    for. *)
Theorem grow_exception_leaves_array (rt : Runtime) (self : t) (amount : Z) :
  wf self -> 0 <= amount -> size self + amount < 2 ^ 32 ->
  let c := calculateNewCapacity (size self) (size self + amount) in
  (forall rt' self',
     growRight rt self amount = (rt', EXCEPTION, self') <->
     capacity self < size self + amount /\ maxElements < c /\
     self' = self /\ rt' = fst (throwExcessiveCapacityError rt c)) /\
  (forall rt' self',
     growLeft rt self amount = (rt', EXCEPTION, self') <->
     capacity self <= size self + amount /\ maxElements < c /\
     self' = self /\ rt' = fst (throwExcessiveCapacityError rt c)).
Proof.
  intros Hwf Ha H32 c. pose proof (wf_size_nonneg self Hwf) as Hc0.
  split; intros rt' self'; split.
  - intros Heq.
    exact (growRight_exception rt self amount rt' self' Hwf Ha H32 Heq).
  - intros (Hout & Hbig & -> & ->). unfold growRight, create.
    rewrite wrap32_small by lia. fold c.
    destruct (Z.leb_spec (size self + amount) (capacity self)); [lia |].
    destruct (Z.ltb_spec maxElements c); [reflexivity | lia].
  - intros Heq.
    exact (growLeft_exception rt self amount rt' self' Hwf Ha H32 Heq).
  - intros (Hout & Hbig & -> & ->). unfold growLeft, create.
    rewrite wrap32_small by lia. fold c.
    destruct (Z.ltb_spec (size self + amount) (capacity self)); [lia |].
    destruct (Z.ltb_spec maxElements c); [reflexivity | lia].
Qed.

(** X22: [create(runtime, capacity, size)] with [size <= capacity]:
    when the capacity is allowed it returns a well-formed array of
    [size] elements that all read "empty", after allocating one
    SegmentedArray cell; when the capacity exceeds [maxElements()] it
    raises the range error of [create] and allocates nothing. *)
Theorem create_with_size_all_empty (rt : Runtime) (cap n : Z) :
  0 <= n <= cap ->
  (maxElements < cap ->
   create_with_size rt cap n
   = (fst (throwExcessiveCapacityError rt cap), None)) /\
  (cap <= maxElements ->
   exists rt' arr,
     create_with_size rt cap n = (rt', Some arr) /\
     wf arr /\ size arr = n /\ cap <= capacity arr /\
     (forall i, 0 <= i < n -> at_ arr i = EmptyValue) /\
     arraysAllocated rt' = arraysAllocated rt + 1 /\
     thrownValue_ rt' = thrownValue_ rt).
Proof.
  intros Hn. unfold create_with_size, create. split.
  - intros Hbig. destruct (Z.ltb_spec maxElements cap); [| lia].
    reflexivity.
  - intros Hok. destruct (Z.ltb_spec maxElements cap); [lia |].
    destruct (construct_spec cap ltac:(lia))
      as (Hw & Hs & _ & Hcap & _).
    destruct (increaseSize true _ (construct cap) n) as [rt1 s1] eqn:He.
    exists rt1, s1. split; [reflexivity |].
    destruct (increaseSize_spec true _ (construct cap) n rt1 s1 Hw
                ltac:(lia) ltac:(lia) ltac:(lia) He)
      as (H1 & H2 & H3 & H4 & H5 & _ & H7).
    split; [exact H1 |]. split; [lia |]. split.
    { rewrite (capacity_of_slotCapacity _ _ H3). exact Hcap. }
    split.
    { intros i Hi. apply (H7 eq_refl). lia. }
    split; [rewrite H4; reflexivity | rewrite H5; reflexivity].
Qed.

(** X23: [Segment::setLength(newLength)] within the payload: the
    declared length becomes [newLength]; when the length grows the
    elements between the old and the new length are filled with "empty"
    and the others are left; when it does not grow the payload is not
    touched at all. *)
Theorem setLength_fills_growth (seg : Segment) (newLength : Z) :
  0 <= length_ seg -> newLength <= len (data_ seg) ->
  length_ (setLength seg newLength) = newLength /\
  len (data_ (setLength seg newLength)) = len (data_ seg) /\
  (forall r, length_ seg <= r < newLength ->
             load (data_ (setLength seg newLength)) r = EmptyValue) /\
  (forall r, 0 <= r -> ~ (length_ seg <= r < newLength) ->
             load (data_ (setLength seg newLength)) r
             = load (data_ seg) r) /\
  (newLength <= length_ seg ->
   data_ (setLength seg newLength) = data_ seg).
Proof.
  intros Hl Hn.
  destruct (setLengthAs_spec true seg newLength Hl Hn) as (H1 & H2 & H3).
  change (setLengthAs true seg newLength) with (setLength seg newLength)
    in *.
  split; [exact H1 |]. split; [exact H2 |]. split; [| split].
  - intros r Hr. rewrite H3 by lia.
    rewrite bool_decide_eq_true_2 by exact Hr. reflexivity.
  - intros r Hr Hout. rewrite H3 by exact Hr.
    rewrite bool_decide_eq_false_2 by exact Hout. reflexivity.
  - intros Hle. unfold setLength.
    destruct (Z.ltb_spec (length_ seg) newLength); [lia | reflexivity].
Qed.

(** X24: [_trimCallback] on a well-formed array changes neither the
    size nor any element, and the capacity it leaves still holds the
    elements: it lies between the size and the old capacity, and is the
    size itself while the array is inline. *)
Theorem trim_keeps_contents (self : t) :
  wf self ->
  size (_trimCallback self) = size self /\
  (forall i, at_ (_trimCallback self) i = at_ self i) /\
  size self <= capacity (_trimCallback self) <= capacity self /\
  (numSlotsUsed_ self <= T -> capacity (_trimCallback self) = size self).
Proof.
  intros Hwf. pose proof Hwf as ((Hu0 & Hu) & _).
  split; [reflexivity |]. split; [reflexivity |].
  unfold capacity, _trimCallback; simpl.
  destruct (Z.le_gt_cases (numSlotsUsed_ self) T) as [Hle | Hgt].
  - rewrite size_inline by exact Hle.
    destruct (Z.leb_spec (numSlotsUsed_ self) T); [| lia].
    split; [| reflexivity].
    destruct (Z.leb_spec (slotCapacity_ self) T); nia.
  - destruct (wf_last_segment self Hwf Hgt) as (seg & _ & _ & Hl & Hsz).
    destruct (Z.leb_spec (numSlotsUsed_ self) T); [lia |].
    split; [| lia].
    destruct (Z.leb_spec (slotCapacity_ self) T); nia.
Qed.

(** X25: [resizeWithinCapacity(newSize)] with [newSize] inside the
    capacity works in place: the size becomes [newSize], the slot
    capacity stays, no SegmentedArray cell is allocated and nothing is
    raised; the common prefix is unchanged and the elements past the old
    size read "empty". *)
Theorem resizeWithinCapacity_in_place (rt : Runtime) (self : t)
        (newSize : Z) (rt' : Runtime) (self' : t) :
  wf self -> 0 <= newSize < 2 ^ 32 ->
  resizeWithinCapacity_assert self newSize ->
  resizeWithinCapacity rt self newSize = (rt', self') ->
  wf self' /\ size self' = newSize /\
  slotCapacity_ self' = slotCapacity_ self /\
  arraysAllocated rt' = arraysAllocated rt /\
  thrownValue_ rt' = thrownValue_ rt /\
  (forall i, 0 <= i < size self -> i < newSize ->
             at_ self' i = at_ self i) /\
  (forall i, size self <= i < newSize -> at_ self' i = EmptyValue).
Proof.
  unfold resizeWithinCapacity_assert. intros Hwf Hn Hcap Heq.
  pose proof (wf_size_nonneg self Hwf) as Hc0.
  pose proof Hwf as (_ & _ & H32 & _).
  unfold resizeWithinCapacity in Heq.
  destruct (Z.ltb_spec (size self) newSize) as [Hlt | Hge].
  - rewrite wrap32_small in Heq by lia.
    unfold growRightWithinCapacity in Heq.
    destruct (increaseSize_spec true rt self (newSize - size self) rt' self'
                Hwf ltac:(lia) ltac:(lia) ltac:(lia) Heq)
      as (H1 & H2 & H3 & H4 & H5 & H6 & H7).
    split; [exact H1 |]. split; [lia |]. split; [exact H3 |].
    split; [exact H4 |]. split; [exact H5 |]. split.
    + intros i Hi _. apply H6, Hi.
    + intros i Hi. apply (H7 eq_refl). lia.
  - destruct (Z.ltb_spec newSize (size self)) as [Hlt | Hge'].
    + injection Heq as <- <-. unfold shrinkRight.
      rewrite wrap32_small by lia.
      destruct (decreaseSize_spec self (size self - newSize) Hwf
                  ltac:(lia)) as (Hw & Hs & Hc & Hv).
      split; [exact Hw |]. split; [lia |]. split; [exact Hc |].
      split; [reflexivity |]. split; [reflexivity |]. split.
      * intros i Hi _. apply Hv. lia.
      * intros i Hi. lia.
    + injection Heq as <- <-.
      split; [exact Hwf |]. split; [lia |]. split; [reflexivity |].
      split; [reflexivity |]. split; [reflexivity |]. split.
      * intros i _ _. reflexivity.
      * intros i Hi. lia.
Qed.

(** Every [allocateSegment] of the loop allocates one [Segment]. *)
Lemma allocate_loop_count (p : Runtime * t) (a n : Z) :
  0 <= n ->
  segmentsAllocated
    (fst (foldl (fun '(rt, self) i => allocateSegment rt self i) p
                (seqZ a n)))
  = segmentsAllocated (fst p) + n.
Proof.
  intros Hn.
  pose proof (foldl_seqZ_inv
    (fun '(rt, self) i => allocateSegment rt self i)
    (fun k (q : Runtime * t) =>
       segmentsAllocated (fst q) = segmentsAllocated (fst p) + (k - a))
    a n p Hn) as H.
  cbv beta in H. replace (a + n - a) with n in H by lia.
  apply H; [lia |].
  intros k [rt1 s1] Hk Hq. rewrite allocateSegment_eq. simpl in *. lia.
Qed.

(** The segments allocated by a growth that ends in the segments: the
    first one touched only when the array was inline, and every later
    one. *)
Lemma increaseSize_segments_count (Fill : bool) (rt : Runtime) (self : t)
      (amount : Z) (rt' : Runtime) (self' : t) :
  wf self -> 0 <= amount -> T < size self + amount ->
  size self + amount <= capacity self -> size self + amount < 2 ^ 32 ->
  increaseSize Fill rt self amount = (rt', self') ->
  segmentsAllocated rt' =
  segmentsAllocated rt
  + (toSegment (size self + amount - 1) - startSegmentOf self
     + (if size self <=? T then 1 else 0)).
Proof.
  intros Hwf Ha Hf Hcap H32 Heq.
  pose proof Hwf as (Hb & Hlen & _ & Hseg).
  pose proof (wf_size_nonneg self Hwf) as Hc0.
  pose proof (wf_size_inline_iff self Hwf) as Hiff.
  destruct (increaseSize_segments_slots Fill rt self amount rt' self' Hwf Ha
              Hf Hcap H32 Heq) as (Hst & _ & _ & _ & _ & _ & Hroom & _).
  set (c := size self) in *. set (f := c + amount) in *.
  destruct (index_split (f - 1) ltac:(lia)) as (Hl0 & Hrl & Hfeq).
  set (last := toSegment (f - 1)) in *.
  set (start := startSegmentOf self) in *.
  assert (start = (if c <=? T then 0 else toSegment (c - 1)) /\
          (T < c -> exists lseg,
              segmentAtPossiblyUnallocated self start = SegmentValue lseg /\
              numSlotsUsed_ self = T + start + 1))
    as (Hstart & Hold).
  { unfold start, startSegmentOf. fold c.
    destruct (Z.leb_spec c T) as [Hin | Hout].
    - split; [reflexivity | lia].
    - assert (T < numSlotsUsed_ self) as Hgt by lia.
      destruct (wf_last_segment self Hwf Hgt)
        as (lseg & Hls & Hld & Hll & Hsz).
      fold c in Hsz.
      destruct (index_unsplit (numSlotsUsed_ self - T - 1)
                  (length_ lseg - 1) ltac:(lia) ltac:(lia) ltac:(lia))
        as [Hts _].
      replace (T + (numSlotsUsed_ self - T - 1) * L + (length_ lseg - 1))
        with (c - 1) in Hts by lia.
      split; [congruence |].
      intros _. exists lseg. split; [exact Hls | lia]. }
  set (s1 := if c <=? T
             then set_numSlotsUsed
                    (set_slots self (fill (slots self) c T EmptyValue)) T
             else self).
  set (newU := numSlotsForCapacity f).
  set (s2 := set_numSlotsUsed
               (set_slots s1 (fill (slots s1) (numSlotsUsed_ s1) newU
                                   EmptyValue)) newU).
  set (p3 := if (start <=? last)
                && isEmpty (segmentAtPossiblyUnallocated s2 start)
             then allocateSegment rt s2 start else (rt, s2)).
  set (p4 := foldl (fun '(rt, self) i => allocateSegment rt self i) p3
                   (seqZ (start + 1) (last - start))).
  assert (0 <= start < 2 ^ 32 - 1) as Hst32 by nia.
  rewrite (increaseSize_segments_eq Fill rt self amount s1 s2 start p3 p4)
    in Heq; try reflexivity; try lia; try exact Hstart.
  injection Heq as Hrt _. rewrite <- Hrt. unfold p4.
  rewrite allocate_loop_count by lia.
  assert (newU = T + last + 1) as HnewU.
  { unfold newU. rewrite numSlotsForCapacity_segments by lia. reflexivity. }
  assert (len (slots s1) = len (slots self) /\
          numSlotsUsed_ s1 = (if c <=? T then T else T + start + 1) /\
          forall j, 0 <= j ->
            load (slots s1) j =
            if decide (c <= j < T) then EmptyValue else load (slots self) j)
    as (Hlen1 & Hu1 & Hs1).
  { unfold s1. destruct (Z.leb_spec c T) as [Hin | Hout].
    - destruct (fill_spec (slots self) c T EmptyValue Hc0)
        as [Hfl Hfv]; [lia |].
      simpl. split; [exact Hfl |]. split; [reflexivity |]. exact Hfv.
    - destruct (Hold Hout) as (lseg & _ & Hu).
      split; [reflexivity |]. split; [exact Hu |].
      intros j Hj. rewrite decide_False by lia. reflexivity. }
  assert (T <= numSlotsUsed_ s1 <= newU) as Hu1b.
  { rewrite Hu1, HnewU. destruct (Z.leb_spec c T); lia. }
  destruct (fill_spec (slots s1) (numSlotsUsed_ s1) newU EmptyValue)
    as [Hlen2 Hs2]; [lia | lia |].
  change (fill (slots s1) (numSlotsUsed_ s1) newU EmptyValue)
    with (slots s2) in Hlen2, Hs2.
  assert (segmentsAllocated (fst p3)
          = segmentsAllocated rt + (if c <=? T then 1 else 0)) as ->.
  { assert ((start <=? last) = true) as Hle by (apply Z.leb_le; lia).
    unfold p3. rewrite Hle. cbn [andb].
    destruct (Z.leb_spec c T) as [Hin | Hout].
    - assert (segmentAtPossiblyUnallocated s2 start = EmptyValue) as ->.
      { unfold segmentAtPossiblyUnallocated. rewrite Hs2 by lia.
        rewrite Hu1. rewrite decide_True by lia. reflexivity. }
      cbn [isEmpty]. rewrite allocateSegment_eq. reflexivity.
    - destruct (Hold Hout) as (lseg & Hls & Hu).
      assert (segmentAtPossiblyUnallocated s2 start = SegmentValue lseg)
        as ->.
      { unfold segmentAtPossiblyUnallocated. rewrite Hs2 by lia.
        rewrite Hu1. rewrite decide_False by lia.
        rewrite Hs1, decide_False by lia. exact Hls. }
      cbn [isEmpty fst]. lia. }
  lia.
Qed.

(** X26: growing within the capacity allocates one [Segment] for every
    segment slot that comes into use and nothing else: none while the
    array stays inside the inline storage, and never a second one for
    the half-full last segment.  The number of used slots afterwards is
    the one the final size needs. *)
Theorem increaseSize_allocates_per_slot (Fill : bool) (rt : Runtime)
        (self : t) (amount : Z) (rt' : Runtime) (self' : t) :
  wf self -> 0 <= amount ->
  size self + amount <= capacity self -> size self + amount < 2 ^ 32 ->
  increaseSize Fill rt self amount = (rt', self') ->
  numSlotsUsed_ self' = numSlotsForCapacity (size self + amount) /\
  segmentsAllocated rt' =
  segmentsAllocated rt
  + (Z.max T (numSlotsUsed_ self') - Z.max T (numSlotsUsed_ self)) /\
  (size self + amount <= T -> rt' = rt).
Proof.
  intros Hwf Ha Hcap H32 Heq.
  pose proof (wf_size_nonneg self Hwf) as Hc0.
  pose proof (wf_size_inline_iff self Hwf) as Hiff.
  destruct (Z.le_gt_cases (size self + amount) T) as [Hin | Hout].
  - rewrite increaseSize_inline_eq in Heq by lia.
    injection Heq as <- <-. simpl.
    rewrite numSlotsForCapacity_inline by exact Hin.
    split; [reflexivity |]. split; [lia | reflexivity].
  - destruct (increaseSize_segments_slots Fill rt self amount rt' self' Hwf
                Ha Hout Hcap H32 Heq) as (Hst & _ & _ & Hu & _).
    pose proof (increaseSize_segments_count Fill rt self amount rt' self'
                  Hwf Ha Hout Hcap H32 Heq) as Hcount.
    rewrite numSlotsForCapacity_segments by lia.
    split; [exact Hu |]. split; [| lia].
    rewrite Hcount, Hu. unfold startSegmentOf in *.
    destruct (Z.leb_spec (size self) T) as [Hci | Hco]; lia.
Qed.

End Layout.

(** *** Concrete runs *)

Lemma exampleArray_wf : wf 4 4 exampleArray.
Proof.
  split; [simpl; lia |]. split; [reflexivity |].
  split; [reflexivity |]. simpl. intros n Hn Hlt. lia.
Qed.

Lemma inlineArray_wf : wf 4 4 inlineArray.
Proof.
  split; [simpl; lia |]. split; [reflexivity |].
  split; [reflexivity |]. simpl. intros n Hn Hlt. lia.
Qed.

Lemma shrunkArray_wf : wf 4 4 shrunkArray.
Proof.
  split; [simpl; lia |]. split; [reflexivity |].
  split; [reflexivity |]. simpl. intros n Hn Hlt. lia.
Qed.

Lemma examplePolicy_fits (oldSize newSize : Z) :
  0 <= oldSize <= newSize -> newSize < 2 ^ 32 ->
  newSize <= examplePolicy oldSize newSize.
Proof. unfold examplePolicy. lia. Qed.

(** C1, as stated, fails after a shrink: [shrinkRight(1)] on the inline
    array [10; 11] leaves size 1 and capacity 4, and the inline slot 1,
    inside [size, slotCapacity), still holds 11.  It fails after a growth
    as well when an earlier shrink left values behind: growing the array
    of size 1 with storage [10; 11; 12; _] by one element clears slot 1
    only, and slot 2 still holds 12. *)
Lemma slack_slots_not_empty :
  ~ (forall (self : t) (amount : Z),
        wf 4 4 self -> 0 <= amount <= size 4 4 self ->
        forall i, size 4 4 (shrinkRight 4 4 self amount) <= i
                  < slotCapacity_ (shrinkRight 4 4 self amount) ->
                  i < 4 ->
                  load (slots (shrinkRight 4 4 self amount)) i = EmptyValue)
  /\
  ~ (forall (self self' : t) (amount : Z) (rt rt' : Runtime),
        wf 4 4 self -> 0 <= amount ->
        size 4 4 self + amount <= capacity 4 4 self ->
        growRightWithinCapacity 4 4 exampleFresh rt self amount
        = (rt', self') ->
        forall i, size 4 4 self' <= i < slotCapacity_ self' -> i < 4 ->
                  load (slots self') i = EmptyValue).
Proof.
  split.
  - intros H.
    specialize (H inlineArray 1 inlineArray_wf
                  ltac:(vm_compute; split; discriminate) 1).
    vm_compute in H.
    specialize (H ltac:(split; [discriminate | reflexivity]) eq_refl).
    discriminate.
  - intros H.
    specialize (H shrunkArray _ 1 exampleRuntime _ shrunkArray_wf
                  ltac:(lia) ltac:(vm_compute; discriminate) eq_refl 2).
    vm_compute in H.
    specialize (H ltac:(split; [discriminate | reflexivity]) eq_refl).
    discriminate.
Qed.

Lemma grow_fills_exposed_slots_witness :
  exists self',
    size 4 4 self' = 7 /\ at_ 4 4 self' 2 = EmptyValue /\
    at_ 4 4 self' 6 = EmptyValue.
Proof.
  destruct (grow_fills_exposed_slots 4 4 1000 examplePolicy exampleFresh
      exampleString exampleError
              ltac:(lia) ltac:(lia) ltac:(lia) examplePolicy_fits
              exampleRuntime exampleArray 5 exampleArray_wf ltac:(lia)
              ltac:(vm_compute; reflexivity)) as [H _].
  edestruct H as [Hs He]; [vm_compute; reflexivity |].
  eexists. split; [exact Hs |].
  split; apply He; vm_compute; split; (discriminate || reflexivity).
Defined.

Lemma exampleString_chars (rt : Runtime) (buf : string) (rt' : Runtime)
      (str : string) :
  exampleString rt buf = (rt', Some str) -> str = buf.
Proof. intros [= _ <-]. reflexivity. Qed.

Lemma failingString_chars (rt : Runtime) (buf : string) (rt' : Runtime)
      (str : string) :
  failingString rt buf = (rt', Some str) -> str = buf.
Proof. intros [=]. Qed.

Lemma exampleError_prototype (rt : Runtime) (proto : ErrorPrototype)
      (rt' : Runtime) (errorObj : JSError) :
  exampleError rt proto = (rt', Some errorObj) -> prototype errorObj = proto.
Proof. intros [= _ <-]. reflexivity. Qed.

(** 1001 elements where 1000 are allowed: with allocations that
    succeed the RangeError is thrown; when the message string cannot be
    allocated the call still returns an exception, the one the
    allocation left. *)
Lemma create_range_error_iff_witness :
  snd (create 4 4 1000 exampleFresh exampleString exampleError
              exampleRuntime 1001) = None /\
  thrownValue_ (fst (create 4 4 1000 exampleFresh exampleString exampleError
                            exampleRuntime 1001))
  = Some (mkJSError RangeErrorPrototype
            "Requested an array size larger than the max allowable: Requested elements = 1001, max elements = 1000") /\
  create 4 4 1000 exampleFresh failingString exampleError exampleRuntime 1001
  = (fst (failingString exampleRuntime EmptyString), None).
Proof.
  pose proof (create_range_error_iff 4 4 1000 exampleFresh exampleString
                exampleError ltac:(lia) ltac:(lia) ltac:(lia)
                exampleString_chars exampleError_prototype
                exampleRuntime 1001) as H.
  pose proof (create_range_error_iff 4 4 1000 exampleFresh failingString
                exampleError ltac:(lia) ltac:(lia) ltac:(lia)
                failingString_chars exampleError_prototype
                exampleRuntime 1001) as HF.
  cbv zeta in H, HF.
  destruct H as ([_ H1] & H2 & _). destruct HF as (_ & HF2 & _).
  split; [apply H1; lia |].
  destruct (H2 ltac:(lia)) as (_ & _ & H3 & _).
  destruct (HF2 ltac:(lia)) as (_ & _ & _ & HF4 & _).
  split.
  - rewrite (H3 _ _ _ _ eq_refl eq_refl). reflexivity.
  - apply HF4. reflexivity.
Defined.

Lemma growLeft_prepends_empty_witness :
  exists self',
    size 4 4 self' = 7 /\ at_ 4 4 self' 0 = EmptyValue /\
    at_ 4 4 self' 4 = EmptyValue /\
    at_ 4 4 self' 5 = NumberValue 10 /\ at_ 4 4 self' 6 = NumberValue 11.
Proof.
  destruct (growLeft_prepends_empty 4 4 1000 examplePolicy exampleFresh
      exampleString exampleError
              ltac:(lia) ltac:(lia) ltac:(lia) examplePolicy_fits
              exampleRuntime exampleArray 5 exampleArray_wf ltac:(lia)
              ltac:(vm_compute; reflexivity)) as [_ H].
  edestruct H as (He & Hold & Hs); [vm_compute; reflexivity |].
  eexists. split; [exact Hs |].
  split; [apply He; lia |]. split; [apply He; lia |].
  split.
  - apply (Hold 0). vm_compute; split; (discriminate || reflexivity).
  - apply (Hold 1). vm_compute; split; (discriminate || reflexivity).
Defined.

(** The failing input of C8: two elements in an array of capacity 4,
    [growLeft(2)]. *)
Lemma growLeft_reallocates_at_full_capacity_witness :
  (exists rt' self',
     growLeft 4 4 1000 examplePolicy exampleFresh
         exampleString exampleError exampleRuntime
              inlineArray 2 = (rt', RETURNED, self') /\
     arraysAllocated rt' = 1) /\
  (exists rt' self',
     growRight 4 4 1000 examplePolicy exampleFresh
         exampleString exampleError exampleRuntime
               inlineArray 2 = (rt', RETURNED, self') /\
     arraysAllocated rt' = 0).
Proof.
  destruct (growLeft_reallocates_at_full_capacity 4 4 1000 examplePolicy
              exampleFresh
                  exampleString exampleError ltac:(lia) ltac:(lia) ltac:(lia)
              examplePolicy_fits exampleRuntime inlineArray 2
              inlineArray_wf ltac:(lia) eq_refl
              ltac:(vm_compute; reflexivity)
              ltac:(vm_compute; discriminate)) as (_ & HL & HR).
  split; [exact HL | exact HR].
Defined.

(** *** Concrete runs of the further properties *)

Lemma push_back_appends_witness :
  exists self',
    size 4 4 self' = 3 /\ at_ 4 4 self' 2 = NumberValue 12 /\
    at_ 4 4 self' 0 = NumberValue 10.
Proof.
  destruct (push_back_appends 4 4 1000 examplePolicy exampleFresh
      exampleString exampleError
              ltac:(lia) ltac:(lia) ltac:(lia) examplePolicy_fits
              exampleRuntime inlineArray (NumberValue 12) inlineArray_wf
              ltac:(vm_compute; reflexivity)) as (_ & H & _).
  edestruct H as (_ & Hs & Hv & Hold); [vm_compute; reflexivity |].
  eexists. split; [exact Hs |]. split; [exact Hv |].
  apply (Hold 0). vm_compute; split; (discriminate || reflexivity).
Defined.

(** Three pushes onto [10; 11] with capacity 4: the third reallocates. *)
Lemma push_back_all_in_order_witness :
  exists self',
    size 4 4 self' = 5 /\ at_ 4 4 self' 1 = NumberValue 11 /\
    at_ 4 4 self' 2 = NumberValue 1 /\ at_ 4 4 self' 4 = NumberValue 3.
Proof.
  edestruct (push_back_all_in_order 4 4 1000 examplePolicy exampleFresh
      exampleString exampleError
               ltac:(lia) ltac:(lia) ltac:(lia) examplePolicy_fits
               exampleValues exampleRuntime inlineArray)
    as (_ & Hs & Hold & Hnew);
    [exact inlineArray_wf | vm_compute; reflexivity
     | vm_compute; reflexivity |].
  eexists. split; [exact Hs |]. split; [| split].
  - apply (Hold 1). vm_compute; split; (discriminate || reflexivity).
  - exact (Hnew 0%nat _ eq_refl).
  - exact (Hnew 2%nat _ eq_refl).
Defined.

Lemma growRight_keeps_elements_witness :
  exists self',
    at_ 4 4 self' 0 = NumberValue 10 /\ at_ 4 4 self' 1 = NumberValue 11.
Proof.
  edestruct (growRight_keeps_elements 4 4 1000 examplePolicy exampleFresh
      exampleString exampleError
               ltac:(lia) ltac:(lia) ltac:(lia) examplePolicy_fits
               exampleRuntime exampleArray 5)
    as (_ & _ & Hold & _);
    [exact exampleArray_wf | lia | vm_compute; reflexivity
     | vm_compute; reflexivity |].
  eexists. split.
  - apply (Hold 0). vm_compute; split; (discriminate || reflexivity).
  - apply (Hold 1). vm_compute; split; (discriminate || reflexivity).
Defined.

Lemma shrinkLeft_drops_front_witness :
  size 4 4 (shrinkLeft 4 4 inlineArray 1) = 1 /\
  at_ 4 4 (shrinkLeft 4 4 inlineArray 1) 0 = NumberValue 11.
Proof.
  destruct (shrinkLeft_drops_front 4 4 ltac:(lia) ltac:(lia) inlineArray 1
              inlineArray_wf ltac:(vm_compute; split; discriminate))
    as (_ & Hs & Hv & _).
  split; [exact Hs |].
  apply (Hv 0). vm_compute; split; (discriminate || reflexivity).
Defined.

Lemma grow_shrink_roundtrip_witness :
  exists self',
    size 4 4 (shrinkLeft 4 4 self' 5) = 2 /\
    at_ 4 4 (shrinkLeft 4 4 self' 5) 0 = NumberValue 10 /\
    at_ 4 4 (shrinkLeft 4 4 self' 5) 1 = NumberValue 11.
Proof.
  destruct (grow_shrink_roundtrip 4 4 1000 examplePolicy exampleFresh
      exampleString exampleError
              ltac:(lia) ltac:(lia) ltac:(lia) examplePolicy_fits
              exampleRuntime exampleArray 5 exampleArray_wf ltac:(lia)
              ltac:(vm_compute; reflexivity)) as [H _].
  edestruct H as (_ & Hs & Hv); [vm_compute; reflexivity |].
  eexists. split; [exact Hs |]. split.
  - apply (Hv 0). vm_compute; split; (discriminate || reflexivity).
  - apply (Hv 1). vm_compute; split; (discriminate || reflexivity).
Defined.

(** [10; 11] shrunk to [10] and grown again: slot 1 reads "empty". *)
Lemma shrink_then_grow_clears_witness :
  exists self',
    size 4 4 self' = 2 /\ at_ 4 4 self' 0 = NumberValue 10 /\
    at_ 4 4 self' 1 = EmptyValue.
Proof.
  destruct (shrink_then_grow_clears 4 4 1000 examplePolicy exampleFresh
      exampleString exampleError
              ltac:(lia) ltac:(lia) ltac:(lia) examplePolicy_fits
              exampleRuntime inlineArray 1 inlineArray_wf
              ltac:(vm_compute; split; discriminate))
    as (_ & rt' & self' & _ & _ & _ & Hs & Hold & Hnew).
  exists self'. split; [exact Hs |]. split.
  - apply (Hold 0). vm_compute; split; (discriminate || reflexivity).
  - apply (Hnew 1). vm_compute; split; (discriminate || reflexivity).
Defined.

Lemma resize_keeps_prefix_witness :
  exists self',
    size 4 4 self' = 1 /\ at_ 4 4 self' 0 = NumberValue 10.
Proof.
  destruct (resize_keeps_prefix 4 4 1000 examplePolicy exampleFresh
      exampleString exampleError
              ltac:(lia) ltac:(lia) ltac:(lia) examplePolicy_fits
              exampleRuntime inlineArray 1 inlineArray_wf ltac:(lia))
    as [H Hret].
  destruct Hret as [self' Heq]; [vm_compute; discriminate |].
  destruct (H _ _ Heq) as (_ & Hs & Hold & _).
  exists self'. split; [exact Hs |].
  apply (Hold 0); [vm_compute; split; (discriminate || reflexivity) | lia].
Defined.

Lemma resizeLeft_keeps_suffix_witness :
  exists self',
    size 4 4 self' = 1 /\ at_ 4 4 self' 0 = NumberValue 11.
Proof.
  edestruct (resizeLeft_keeps_suffix 4 4 1000 examplePolicy exampleFresh
      exampleString exampleError
               ltac:(lia) ltac:(lia) ltac:(lia) examplePolicy_fits
               exampleRuntime inlineArray 1)
    as (_ & Hs & Hold & _);
    [exact inlineArray_wf | lia | vm_compute; reflexivity |].
  eexists. split; [exact Hs |].
  apply (Hold 1);
    [vm_compute; split; (discriminate || reflexivity)
    | vm_compute; discriminate].
Defined.

Lemma doublingPolicy_fits (oldSize newSize : Z) :
  0 <= oldSize <= newSize -> newSize < 2 ^ 32 ->
  newSize <= doublingPolicy oldSize newSize.
Proof. unfold doublingPolicy. lia. Qed.

(** Two elements, capacity 4, two more elements, at most 6 elements
    and a policy that doubles: the final size fits the capacity, and
    still [growLeft] ends in the exception, while [growRight]
    returns. *)
Lemma grow_exception_leaves_array_witness :
  growLeft 4 4 6 doublingPolicy exampleFresh exampleString exampleError
           exampleRuntime inlineArray 2
  = (fst (throwExcessiveCapacityError 6 exampleString exampleError
            exampleRuntime 8), EXCEPTION, inlineArray) /\
  snd (fst (growRight 4 4 6 doublingPolicy exampleFresh exampleString
                      exampleError exampleRuntime inlineArray 2))
  <> EXCEPTION.
Proof.
  pose proof (grow_exception_leaves_array 4 4 6 doublingPolicy
                exampleFresh exampleString exampleError ltac:(lia)
                exampleRuntime inlineArray 2
                inlineArray_wf ltac:(lia) ltac:(vm_compute; reflexivity))
    as H.
  cbv zeta in H. destruct H as [HR HL]. split.
  - apply HL. split; [vm_compute; discriminate |].
    split; [vm_compute; reflexivity |]. split; reflexivity.
  - intros He.
    destruct (growRight 4 4 6 doublingPolicy exampleFresh exampleString
                        exampleError exampleRuntime inlineArray 2)
      as [[rt' st] self'] eqn:Hg.
    simpl in He. subst st.
    destruct (proj1 (HR rt' self') eq_refl) as (Hlt & _).
    vm_compute in Hlt. discriminate Hlt.
Defined.

(** Capacity 6 and size 5: four inline elements and one in a segment. *)
Lemma create_with_size_all_empty_witness :
  exists arr,
    snd (create_with_size 4 4 1000 exampleFresh
        exampleString exampleError exampleRuntime 6 5)
    = Some arr /\
    size 4 4 arr = 5 /\ at_ 4 4 arr 0 = EmptyValue /\
    at_ 4 4 arr 4 = EmptyValue.
Proof.
  destruct (create_with_size_all_empty 4 4 1000 exampleFresh
      exampleString exampleError ltac:(lia)
              ltac:(lia) ltac:(lia) exampleRuntime 6 5 ltac:(lia))
    as [_ H].
  destruct H as (rt' & arr & Heq & _ & Hs & _ & He & _); [lia |].
  exists arr. rewrite Heq. split; [reflexivity |]. split; [exact Hs |].
  split; apply He; lia.
Defined.

Lemma setLength_fills_growth_witness :
  length_ (setLength exampleSegment 3) = 3 /\
  load (data_ (setLength exampleSegment 3)) 0 = NumberValue 7 /\
  load (data_ (setLength exampleSegment 3)) 2 = EmptyValue.
Proof.
  destruct (setLength_fills_growth exampleSegment 3)
    as (Hl & _ & Hnew & Hold & _).
  - vm_compute. discriminate.
  - vm_compute. discriminate.
  - split; [exact Hl |]. split.
    + apply (Hold 0); [lia |]. vm_compute. intros [H _]. apply H.
      reflexivity.
    + apply (Hnew 2). vm_compute; split; (discriminate || reflexivity).
Defined.

Lemma trim_keeps_contents_witness :
  capacity 4 4 (_trimCallback exampleArray) = 2 /\
  size 4 4 (_trimCallback exampleArray) = 2.
Proof.
  destruct (trim_keeps_contents 4 4 ltac:(lia) ltac:(lia) exampleArray
              exampleArray_wf) as (Hs & _ & _ & Hc).
  split; [| exact Hs].
  apply Hc. vm_compute. discriminate.
Defined.

Lemma resizeWithinCapacity_in_place_witness :
  exists self',
    size 4 4 self' = 7 /\ slotCapacity_ self' = 6 /\
    at_ 4 4 self' 1 = NumberValue 11 /\ at_ 4 4 self' 6 = EmptyValue.
Proof.
  edestruct (resizeWithinCapacity_in_place 4 4 exampleFresh ltac:(lia)
               ltac:(lia) exampleRuntime exampleArray 7)
    as (_ & Hs & Hc & _ & _ & Hold & Hnew);
    [exact exampleArray_wf | lia | vm_compute; discriminate
     | vm_compute; reflexivity |].
  eexists. split; [exact Hs |]. split; [exact Hc |]. split.
  - apply (Hold 1); [vm_compute; split; (discriminate || reflexivity) | lia].
  - apply (Hnew 6). vm_compute; split; (discriminate || reflexivity).
Defined.

(** From two inline elements to seven: the four inline slots and one
    segment. *)
Lemma increaseSize_allocates_per_slot_witness :
  exists rt' self',
    increaseSize 4 4 exampleFresh true exampleRuntime exampleArray 5
    = (rt', self') /\
    numSlotsUsed_ self' = 5 /\ segmentsAllocated rt' = 1.
Proof.
  edestruct (increaseSize_allocates_per_slot 4 4 exampleFresh ltac:(lia)
               ltac:(lia) true exampleRuntime exampleArray 5)
    as (Hu & Hc & _);
    [exact exampleArray_wf | lia | vm_compute; discriminate
     | vm_compute; reflexivity | vm_compute; reflexivity |].
  eexists. eexists. split; [reflexivity |].
  split; [exact Hu | exact Hc].
Defined.

End SegmentedArray.
